(** * Ambient audio scheduling core: worker-side scheduler and main-thread bridge

    A shallow embedding of
      - [src/audio-worker.js]      (module [AudioWorker]),
      - the second copy of the worker, at the head of [src/unnamed/part_002]
                                   (module [JitterWorker]),
      - [src/sound.js]             (module [SoundSystem]),
      - the message handler of [src/unnamed/part_001]
                                   (module [PianoBridge]),
    followed by the properties of the specification that concern them.

    Conventions.
      - [performance.now()] and [Date.now()] are inputs of the functions that
        read them.  The schedulers are given over whole milliseconds
        (integers, on which JavaScript's arithmetic is exact); the drift
        correction of [processNext] is also given over any arithmetic, binary64
        among them (module [ClockArithmetic]).
      - Web Audio times, frequencies and gains are rationals ([Q]).
      - JavaScript's [%] on integers is [Z.rem]: the result takes the sign
        of the dividend.
      - the melody of a scheduler is never empty ([x % 0] is NaN in
        JavaScript, which the integers here do not have).
      - an uncaught exception keeps the mutations made before it; functions
        that may throw return a [Completion]. *)

From stdpp Require Import base option list gmap strings pretty.
From Stdlib Require Import Ascii ZArith QArith Qminmax Lia.
From Stdlib Require PrimFloat Uint63.

Local Open Scope Z_scope.

(** ** JavaScript completions *)

Inductive Completion (A : Type) : Type :=
| Normal (a : A)
| Throw (a : A).
Arguments Normal {A} a.
Arguments Throw {A} a.

Definition final {A} (c : Completion A) : A :=
  match c with Normal a | Throw a => a end.

Definition threw {A} (c : Completion A) : bool :=
  match c with Normal _ => false | Throw _ => true end.

(** Sequencing: the rest of a function body runs only after a normal
    completion. *)
Definition and_then {A} (c : Completion A) (k : A → Completion A) : Completion A :=
  match c with Normal a => k a | Throw a => Throw a end.

(** [try { c } catch (e) { handler }] *)
Definition try_catch {A} (c : Completion A) (handler : A → Completion A) : Completion A :=
  match c with Normal a => Normal a | Throw a => handler a end.

(** [a[i]] for a JavaScript array and an integer [i]: [undefined] outside
    [0 .. length-1], negative indices included. *)
Definition js_index {A} (a : list A) (i : Z) : option A :=
  if i <? 0 then None else a !! Z.to_nat i.

(** ** Messages exchanged between the two execution contexts *)

Module Protocol.

(** main -> worker: [{action, index, mode}] *)
Inductive ControlMessage :=
| start (index : option Z)
| stop
| sync (index : option Z)
| set_performance_mode (mode : option string)
| get_status
| check_health
| unknown_action.

Record Status := mkStatus {
  st_isRunning : bool;
  st_currentIndex : Z;
  st_uptime : Z;
  st_performanceMode : option string }.

(** worker -> main *)
Inductive WorkerMessage :=
| play_note (note : Q) (duration priority timestamp currentIndex : Z)
| sync_state (currentIndex : Z)
| status_response (status : Status)
| health_check (timestamp : Z) (workerStatus : Status).

(** [e.data.currentIndex], [undefined] when the message has no such
    field. *)
Definition msg_currentIndex (m : WorkerMessage) : option Z :=
  match m with
  | play_note _ _ _ _ i => Some i
  | sync_state i => Some i
  | status_response _ | health_check _ _ => None
  end.

Definition is_play_note (m : WorkerMessage) : bool :=
  match m with play_note _ _ _ _ _ => true | _ => false end.

Definition is_sync_state (m : WorkerMessage) : bool :=
  match m with sync_state _ => true | _ => false end.

End Protocol.
Import Protocol.

(** ** The worker's global scope: timers and the outgoing message port *)

Record Timeout := mkTimeout { tid : positive; delay : Z }.

Record WorkerGlobalScope := mkScope {
  timeouts : list Timeout;        (* pending wake-ups, oldest first *)
  nextTimeoutId : positive;
  outbox : list WorkerMessage     (* posted messages, oldest first *) }.

Definition emptyScope : WorkerGlobalScope :=
  {| timeouts := []; nextTimeoutId := 1%positive; outbox := [] |}.

Definition postMessage (m : WorkerMessage) (g : WorkerGlobalScope) : WorkerGlobalScope :=
  {| timeouts := timeouts g; nextTimeoutId := nextTimeoutId g;
     outbox := outbox g ++ [m] |}.

Definition setTimeout (d : Z) (g : WorkerGlobalScope) : positive * WorkerGlobalScope :=
  (nextTimeoutId g,
   {| timeouts := timeouts g ++ [mkTimeout (nextTimeoutId g) d];
      nextTimeoutId := Pos.succ (nextTimeoutId g);
      outbox := outbox g |}).

Definition drop_timeout (id : positive) (l : list Timeout) : list Timeout :=
  filter (fun t => tid t ≠ id) l.

Definition clearTimeout (id : positive) (g : WorkerGlobalScope) : WorkerGlobalScope :=
  {| timeouts := drop_timeout id (timeouts g);
     nextTimeoutId := nextTimeoutId g;
     outbox := outbox g |}.

(** A timer that fires is no longer pending when its callback runs. *)
Definition expire (id : positive) (g : WorkerGlobalScope) : WorkerGlobalScope :=
  {| timeouts := drop_timeout id (timeouts g);
     nextTimeoutId := nextTimeoutId g;
     outbox := outbox g |}.

(** ** AudioTask (both copies of the worker) *)

Record AudioTask := mkAudioTask {
  note : Q;
  duration : Z;
  priority : Z;      (* 1 = Normal, 2 = High *)
  isRest : bool }.

(** [new AudioTask(note, duration, priority = 1, isRest = false)] *)
Definition newAudioTask (n : Q) (d : Z) (p : option Z) (r : option bool) : AudioTask :=
  {| note := n; duration := d; priority := default 1 p; isRest := default false r |}.

Definition sum_durations (l : list AudioTask) : Z :=
  foldr (fun t acc => duration t + acc) 0 l.

(** ** src/audio-worker.js *)

Module AudioWorker.

Record BackgroundScheduler := mkScheduler {
  isRunning : bool;
  timer : option positive;
  currentIndex : Z;
  lastExecutionTime : Z;
  melody : list AudioTask }.

Definition theMelody : list AudioTask :=
  [ newAudioTask 392.00 2000 (Some 1) None;
    newAudioTask 329.63 2000 (Some 1) None;
    newAudioTask 261.63 1500 (Some 1) None;
    newAudioTask 293.66 1500 (Some 1) None;
    newAudioTask 196.00 3000 (Some 2) None;
    newAudioTask 0 1000 (Some 1) (Some true);
    newAudioTask 261.63 1500 (Some 1) None;
    newAudioTask 329.63 1500 (Some 1) None;
    newAudioTask 493.88 2000 (Some 2) None;
    newAudioTask 392.00 3000 (Some 1) None;
    newAudioTask 0 4000 (Some 1) (Some true) ].

(** [constructor()], with the melody it installs as a parameter. *)
Definition newScheduler (m : list AudioTask) : BackgroundScheduler :=
  {| isRunning := false; timer := None; currentIndex := 0;
     lastExecutionTime := 0; melody := m |}.

Record Worker := mkWorker {
  SchedulerInstance : BackgroundScheduler;
  self : WorkerGlobalScope }.

Definition newWorker (m : list AudioTask) : Worker :=
  {| SchedulerInstance := newScheduler m; self := emptyScope |}.

(** The message of one emission: built from the task and the index read
    at that moment. *)
Definition emission (now : Z) (idx : Z) (task : AudioTask) : WorkerMessage :=
  if negb (isRest task)
  then play_note (note task) (duration task) (priority task) now idx
  else sync_state idx.

(** [(this.lastExecutionTime + task.duration) - now] *)
Definition nextDelay (now : Z) (s : BackgroundScheduler) (task : AudioTask) : Z :=
  (lastExecutionTime s + duration task) - now.

Definition processNext (now : Z) (w : Worker) : Completion Worker :=
  let s := SchedulerInstance w in
  if negb (isRunning s) then Normal w else
  match js_index (melody s) (currentIndex s) with
  | None => Throw w                 (* task is undefined: task.isRest throws *)
  | Some task =>
      let g1 := postMessage (emission now (currentIndex s) task) (self w) in
      let idx' := Z.rem (currentIndex s + 1) (Z.of_nat (length (melody s))) in
      let d := nextDelay now s task in
      let '(d', last') :=
        if d <? 0 then (0, now) else (d, lastExecutionTime s + duration task) in
      let g2 := match timer s with
                | Some id => clearTimeout id g1
                | None => g1
                end in
      let '(id, g3) := setTimeout d' g2 in
      Normal {| SchedulerInstance :=
                  {| isRunning := isRunning s; timer := Some id;
                     currentIndex := idx'; lastExecutionTime := last';
                     melody := melody s |};
                self := g3 |}
  end.

(** The three assignments of [start] that precede the first emission. *)
Definition start_assign (now startIndex : Z) (s : BackgroundScheduler) : BackgroundScheduler :=
  {| isRunning := true; timer := timer s;
     currentIndex := Z.rem startIndex (Z.of_nat (length (melody s)));
     lastExecutionTime := now; melody := melody s |}.

Definition start (now startIndex : Z) (w : Worker) : Completion Worker :=
  if isRunning (SchedulerInstance w) then Normal w else
  processNext now
    {| SchedulerInstance := start_assign now startIndex (SchedulerInstance w);
       self := self w |}.

Definition stop (w : Worker) : Worker :=
  let s := SchedulerInstance w in
  {| SchedulerInstance :=
       {| isRunning := false; timer := None; currentIndex := currentIndex s;
          lastExecutionTime := lastExecutionTime s; melody := melody s |};
     self := match timer s with
             | Some id => clearTimeout id (self w)
             | None => self w
             end |}.

Definition getStatus (now : Z) (s : BackgroundScheduler) : Status :=
  {| st_isRunning := isRunning s;
     st_currentIndex := currentIndex s;
     st_uptime := if isRunning s then now - lastExecutionTime s else 0;
     st_performanceMode := None |}.

Definition set_currentIndex (i : Z) (s : BackgroundScheduler) : BackgroundScheduler :=
  {| isRunning := isRunning s; timer := timer s; currentIndex := i;
     lastExecutionTime := lastExecutionTime s; melody := melody s |}.

(** [self.onmessage]; [index || 0] is [0] for a missing index and the
    index itself otherwise. *)
Definition onmessage (now dateNow : Z) (m : ControlMessage) (w : Worker) : Completion Worker :=
  match m with
  | Protocol.start index => start now (default 0 index) w
  | Protocol.stop => Normal (stop w)
  | sync (Some index) =>
      let s := SchedulerInstance w in
      Normal {| SchedulerInstance :=
                  set_currentIndex (Z.rem index (Z.of_nat (length (melody s)))) s;
                self := self w |}
  | sync None => Normal w
  | get_status =>
      Normal {| SchedulerInstance := SchedulerInstance w;
                self := postMessage (status_response (getStatus now (SchedulerInstance w)))
                          (self w) |}
  | check_health =>
      Normal {| SchedulerInstance := SchedulerInstance w;
                self := postMessage (health_check dateNow (getStatus now (SchedulerInstance w)))
                          (self w) |}
  | set_performance_mode _ | unknown_action => Normal w
  end.

(** A timer that fires leaves the pending list and runs its callback,
    [() => this.processNext()]. *)
Definition fire (now : Z) (id : positive) (w : Worker) : Completion Worker :=
  if bool_decide (id ∈ map tid (timeouts (self w)))
  then processNext now
         {| SchedulerInstance := SchedulerInstance w;
            self := expire id (self w) |}
  else Normal w.

(** Events delivered to the worker by its event loop, each with the
    clock readings its handler makes. *)
Inductive WorkerEvent :=
| Message (now dateNow : Z) (m : ControlMessage)
| TimeoutFires (now : Z) (id : positive).

Definition step (e : WorkerEvent) (w : Worker) : Worker :=
  match e with
  | Message now dateNow m => final (onmessage now dateNow m w)
  | TimeoutFires now id => final (fire now id w)
  end.

Definition run (es : list WorkerEvent) (w : Worker) : Worker :=
  foldl (fun w e => step e w) w es.

(** [n] consecutive emission steps, the k-th reading the clock [nows_k]. *)
Fixpoint emissions (nows : list Z) (w : Worker) : Worker :=
  match nows with
  | [] => w
  | now :: rest => emissions rest (final (processNext now w))
  end.

(** The tasks those steps read, in order. *)
Fixpoint emitted_tasks (nows : list Z) (w : Worker) : list AudioTask :=
  match nows with
  | [] => []
  | now :: rest =>
      match js_index (melody (SchedulerInstance w)) (currentIndex (SchedulerInstance w)) with
      | Some task => task :: emitted_tasks rest (final (processNext now w))
      | None => []
      end
  end.

(** No step of the run computes a negative delay. *)
Fixpoint no_stall (nows : list Z) (w : Worker) : bool :=
  match nows with
  | [] => true
  | now :: rest =>
      match js_index (melody (SchedulerInstance w)) (currentIndex (SchedulerInstance w)) with
      | Some task =>
          (0 <=? nextDelay now (SchedulerInstance w) task)
          && no_stall rest (final (processNext now w))
      | None => false
      end
  end.

(** [0 <= currentIndex < melody.length] *)
Definition index_in_range (s : BackgroundScheduler) : Prop :=
  0 <= currentIndex s < Z.of_nat (length (melody s)).

(** Every pending wake-up is the one [this.timer] refers to. *)
Definition single_timer (w : Worker) : Prop :=
  timeouts (self w) = [] ∨
  ∃ id d, timeouts (self w) = [mkTimeout id d] ∧ timer (SchedulerInstance w) = Some id.

(** Invariant of the event loop: pending wake-ups are at most the one in
    [this.timer]; an idle scheduler has none and a null [timer]. *)
Definition loop_inv (w : Worker) : Prop :=
  single_timer w ∧
  (isRunning (SchedulerInstance w) = false →
   timer (SchedulerInstance w) = None ∧ timeouts (self w) = []).

End AudioWorker.

(** ** The copy of the worker at the head of src/unnamed/part_002 *)

Module JitterWorker.

Record BackgroundScheduler := mkScheduler {
  isRunning : bool;
  timer : option positive;
  currentIndex : Z;
  lastExecutionTime : Z;
  performanceMode : string;       (* 'balanced' or 'performance' *)
  melody : list AudioTask }.

Definition theMelody : list AudioTask :=
  [ newAudioTask 329.63 1400 (Some 1) None;
    newAudioTask 392.00 1400 (Some 2) None;
    newAudioTask 493.88 1400 (Some 1) None;
    newAudioTask 523.25 2800 (Some 2) None;
    newAudioTask 0 600 (Some 1) (Some true);
    newAudioTask 440.00 1400 (Some 1) None;
    newAudioTask 392.00 1400 (Some 1) None;
    newAudioTask 329.63 1400 (Some 1) None;
    newAudioTask 0 3500 (Some 1) (Some true) ].

Definition newScheduler (m : list AudioTask) : BackgroundScheduler :=
  {| isRunning := false; timer := None; currentIndex := 0;
     lastExecutionTime := 0; performanceMode := "balanced"; melody := m |}.

Record Worker := mkWorker {
  SchedulerInstance : BackgroundScheduler;
  self : WorkerGlobalScope }.

Definition newWorker (m : list AudioTask) : Worker :=
  {| SchedulerInstance := newScheduler m; self := emptyScope |}.

Definition emission (now : Z) (idx : Z) (task : AudioTask) : WorkerMessage :=
  if negb (isRest task)
  then play_note (note task) (duration task) (priority task) now idx
  else sync_state idx.

(** [random30] is the integer part of [Math.random() * 30], the part of
    the jitter that survives [setTimeout]'s conversion of its delay. *)
Definition processNext (now random30 : Z) (w : Worker) : Completion Worker :=
  let s := SchedulerInstance w in
  if negb (isRunning s) then Normal w else
  match js_index (melody s) (currentIndex s) with
  | None => Throw w
  | Some task =>
      let g1 := postMessage (emission now (currentIndex s) task) (self w) in
      let idx' := Z.rem (currentIndex s + 1) (Z.of_nat (length (melody s))) in
      let jitter := if String.eqb (performanceMode s) "performance" then 0 else random30 in
      let d := duration task + jitter in
      let '(id, g2) := setTimeout d g1 in
      Normal {| SchedulerInstance :=
                  {| isRunning := isRunning s; timer := Some id;
                     currentIndex := idx'; lastExecutionTime := now;
                     performanceMode := performanceMode s;
                     melody := melody s |};
                self := g2 |}
  end.

Definition start_assign (now startIndex : Z) (s : BackgroundScheduler) : BackgroundScheduler :=
  {| isRunning := true; timer := timer s;
     currentIndex := Z.rem startIndex (Z.of_nat (length (melody s)));
     lastExecutionTime := now; performanceMode := performanceMode s;
     melody := melody s |}.

Definition start (now random30 startIndex : Z) (w : Worker) : Completion Worker :=
  if isRunning (SchedulerInstance w) then Normal w else
  processNext now random30
    {| SchedulerInstance := start_assign now startIndex (SchedulerInstance w);
       self := self w |}.

Definition stop (w : Worker) : Worker :=
  let s := SchedulerInstance w in
  {| SchedulerInstance :=
       {| isRunning := false; timer := None; currentIndex := currentIndex s;
          lastExecutionTime := lastExecutionTime s;
          performanceMode := performanceMode s; melody := melody s |};
     self := match timer s with
             | Some id => clearTimeout id (self w)
             | None => self w
             end |}.

Definition setPerformanceMode (mode : string) (s : BackgroundScheduler) : BackgroundScheduler :=
  {| isRunning := isRunning s; timer := timer s; currentIndex := currentIndex s;
     lastExecutionTime := lastExecutionTime s; performanceMode := mode;
     melody := melody s |}.

Definition getStatus (now : Z) (s : BackgroundScheduler) : Status :=
  {| st_isRunning := isRunning s;
     st_currentIndex := currentIndex s;
     st_uptime := if isRunning s then now - lastExecutionTime s else 0;
     st_performanceMode := Some (performanceMode s) |}.

Definition set_currentIndex (i : Z) (s : BackgroundScheduler) : BackgroundScheduler :=
  {| isRunning := isRunning s; timer := timer s; currentIndex := i;
     lastExecutionTime := lastExecutionTime s;
     performanceMode := performanceMode s; melody := melody s |}.

(** [mode || 'balanced']: the empty string is falsy too. *)
Definition mode_or_balanced (mode : option string) : string :=
  match mode with
  | Some m => if String.eqb m "" then "balanced" else m
  | None => "balanced"
  end.

Definition onmessage (now dateNow random30 : Z) (m : ControlMessage) (w : Worker)
  : Completion Worker :=
  match m with
  | Protocol.start index => start now random30 (default 0 index) w
  | Protocol.stop => Normal (stop w)
  | sync (Some index) =>
      let s := SchedulerInstance w in
      Normal {| SchedulerInstance :=
                  set_currentIndex (Z.rem index (Z.of_nat (length (melody s)))) s;
                self := self w |}
  | sync None => Normal w
  | set_performance_mode mode =>
      Normal {| SchedulerInstance :=
                  setPerformanceMode (mode_or_balanced mode) (SchedulerInstance w);
                self := self w |}
  | get_status =>
      Normal {| SchedulerInstance := SchedulerInstance w;
                self := postMessage (status_response (getStatus now (SchedulerInstance w)))
                          (self w) |}
  | check_health =>
      Normal {| SchedulerInstance := SchedulerInstance w;
                self := postMessage (health_check dateNow (getStatus now (SchedulerInstance w)))
                          (self w) |}
  | unknown_action => Normal w
  end.

Definition fire (now random30 : Z) (id : positive) (w : Worker) : Completion Worker :=
  if bool_decide (id ∈ map tid (timeouts (self w)))
  then processNext now random30
         {| SchedulerInstance := SchedulerInstance w;
            self := expire id (self w) |}
  else Normal w.

Inductive WorkerEvent :=
| Message (now dateNow random30 : Z) (m : ControlMessage)
| TimeoutFires (now random30 : Z) (id : positive).

Definition step (e : WorkerEvent) (w : Worker) : Worker :=
  match e with
  | Message now dateNow r m => final (onmessage now dateNow r m w)
  | TimeoutFires now r id => final (fire now r id w)
  end.

Definition run (es : list WorkerEvent) (w : Worker) : Worker :=
  foldl (fun w e => step e w) w es.

(** A pending wake-up exists only while running, and is then the one
    [this.timer] refers to. *)
Definition single_timer (w : Worker) : Prop :=
  timeouts (self w) = [] ∨
  (isRunning (SchedulerInstance w) = true ∧
   ∃ id d, timeouts (self w) = [mkTimeout id d] ∧ timer (SchedulerInstance w) = Some id).

End JitterWorker.


(** The two-entry sequence of the specification's scenario. *)
Definition scenario : list AudioTask :=
  [ newAudioTask 440 1000 (Some 1) None;
    newAudioTask 0 500 (Some 1) (Some true) ].

(** ** The arithmetic of the worker's clock *)

Module ClockArithmetic.

(** The numbers [processNext] computes with.  In JavaScript they are
    binary64 values: [performance.now()] has a fractional part, and each sum
    is rounded.  On whole milliseconds the same operations are exact. *)
Class Arithmetic (num : Type) := mkArithmetic {
  num_add : num → num → num;
  num_sub : num → num → num;
  num_negative : num → bool;        (* [x < 0] *)
  num_zero : num;
  num_of_ms : Z → num }.            (* the number an integer literal denotes *)

#[export] Instance whole_milliseconds : Arithmetic Z :=
  {| num_add := Z.add; num_sub := Z.sub; num_negative := fun x => x <? 0;
     num_zero := 0; num_of_ms := fun z => z |}.

#[export] Instance binary64 : Arithmetic PrimFloat.float :=
  {| num_add := PrimFloat.add; num_sub := PrimFloat.sub;
     num_negative := fun x => PrimFloat.ltb x PrimFloat.zero;
     num_zero := PrimFloat.zero;
     num_of_ms := fun z =>
       if z <? 0 then PrimFloat.opp (PrimFloat.of_uint63 (Uint63.of_Z (- z)))
       else PrimFloat.of_uint63 (Uint63.of_Z z) |}.

Section Drift.
Context {num : Type} {arithmetic : Arithmetic num}.

(** Lines 84-102 of [processNext] in src/audio-worker.js: from
    [this.lastExecutionTime], the clock reading [now] and the task, the delay
    handed to [setTimeout] and the new [this.lastExecutionTime]. *)
Definition correct_drift (lastExecutionTime now : num) (task : AudioTask) : num * num :=
  let nextDelay := num_sub (num_add lastExecutionTime (num_of_ms (duration task))) now in
  if num_negative nextDelay
  then (num_zero, now)
  else (nextDelay, num_add lastExecutionTime (num_of_ms (duration task))).

(** [this.lastExecutionTime] after consecutive emission steps, each with
    its clock reading and the task it emits. *)
Fixpoint reference_clock (steps : list (num * AudioTask)) (lastExecutionTime : num) : num :=
  match steps with
  | [] => lastExecutionTime
  | (now, task) :: rest =>
      reference_clock rest (correct_drift lastExecutionTime now task).2
  end.

(** No step computes a negative delay. *)
Fixpoint never_stalls (steps : list (num * AudioTask)) (lastExecutionTime : num) : bool :=
  match steps with
  | [] => true
  | (now, task) :: rest =>
      negb (num_negative
              (num_sub (num_add lastExecutionTime (num_of_ms (duration task))) now))
      && never_stalls rest (correct_drift lastExecutionTime now task).2
  end.

End Drift.

End ClockArithmetic.

(** ** The Web Audio objects the bridge builds *)

Module WebAudio.
Local Open Scope Q_scope.

Inductive OscillatorType := sine | square | sawtooth | triangle.

Inductive AutomationEvent :=
| setValueAtTime (value time : Q)
| linearRampToValueAtTime (value time : Q)
| exponentialRampToValueAtTime (value time : Q).

Definition event_time (e : AutomationEvent) : Q :=
  match e with
  | setValueAtTime _ t | linearRampToValueAtTime _ t
  | exponentialRampToValueAtTime _ t => t
  end.

Record AudioParam := mkParam {
  value : Q;                         (* last value assigned to [.value] *)
  events : list AutomationEvent      (* scheduled automation, in call order *) }.

Inductive ParamName := gain | frequency | detune | Q_.

(** [stopTime = None]: [stop] was never called on the oscillator. *)
Inductive AudioNode :=
| GainNode (p_gain : AudioParam)
| OscillatorNode (type : OscillatorType) (p_frequency p_detune : AudioParam)
    (startTime stopTime : option Q)
| BiquadFilterNode (lowpass : bool) (p_frequency p_Q : AudioParam).

Inductive Sink :=
| destination
| node_input (n : nat)
| node_param (n : nat) (p : ParamName).

Inductive ContextState := suspended | running.

Record AudioContext := mkContext {
  state : ContextState;
  currentTime : Q;
  nodes : list AudioNode;              (* a node is referred to by its position *)
  connections : list (nat * Sink) }.

(** [new AudioContext()].  The [state] of the context is the browser's,
    not the repository's: it stands for the autoplay policy (a context built
    before any user gesture starts suspended) and nothing in src/ decides
    it. *)
Definition newAudioContext (userActivated : bool) : AudioContext :=
  {| state := if userActivated then running else suspended;
     currentTime := 0; nodes := []; connections := [] |}.

(** [ctx.resume()]; under the same policy of the browser it takes effect
    once the page has had a user gesture. *)
Definition resume (userActivated : bool) (c : AudioContext) : AudioContext :=
  {| state := if userActivated then running else state c;
     currentTime := currentTime c; nodes := nodes c; connections := connections c |}.

Definition with_nodes (l : list AudioNode) (c : AudioContext) : AudioContext :=
  {| state := state c; currentTime := currentTime c; nodes := l;
     connections := connections c |}.

Definition add_node (n : AudioNode) (c : AudioContext) : nat * AudioContext :=
  (length (nodes c), with_nodes (nodes c ++ [n]) c).

Definition createGain : AudioContext → nat * AudioContext :=
  add_node (GainNode (mkParam 1 [])).

Definition createOscillator : AudioContext → nat * AudioContext :=
  add_node (OscillatorNode sine (mkParam 440 []) (mkParam 0 []) None None).

Definition createBiquadFilter : AudioContext → nat * AudioContext :=
  add_node (BiquadFilterNode true (mkParam 350 []) (mkParam 1 [])).

(** Apply [f] to the parameter [p] of a node; other nodes, and nodes
    without such a parameter, are left as they are. *)
Definition on_param (p : ParamName) (f : AudioParam → AudioParam) (n : AudioNode) : AudioNode :=
  match n, p with
  | GainNode g, gain => GainNode (f g)
  | OscillatorNode ty fr de st sp, frequency => OscillatorNode ty (f fr) de st sp
  | OscillatorNode ty fr de st sp, detune => OscillatorNode ty fr (f de) st sp
  | BiquadFilterNode lp fr q, frequency => BiquadFilterNode lp (f fr) q
  | BiquadFilterNode lp fr q, Q_ => BiquadFilterNode lp fr (f q)
  | _, _ => n
  end.

Definition update_param (n : nat) (p : ParamName) (f : AudioParam → AudioParam)
    (c : AudioContext) : AudioContext :=
  with_nodes (alter (on_param p f) n (nodes c)) c.

Definition schedule (e : AutomationEvent) (a : AudioParam) : AudioParam :=
  {| value := value a; events := events a ++ [e] |}.

(** [param.value = v] *)
Definition set_value (n : nat) (p : ParamName) (v : Q) : AudioContext → AudioContext :=
  update_param n p (fun a => {| value := v; events := events a |}).

Definition param_setValueAtTime (n : nat) (p : ParamName) (v t : Q) :=
  update_param n p (schedule (setValueAtTime v t)).

Definition param_linearRampToValueAtTime (n : nat) (p : ParamName) (v t : Q) :=
  update_param n p (schedule (linearRampToValueAtTime v t)).

Definition param_exponentialRampToValueAtTime (n : nat) (p : ParamName) (v t : Q) :=
  update_param n p (schedule (exponentialRampToValueAtTime v t)).

(** [param.cancelScheduledValues(t)]: events at or after [t] are removed. *)
Definition param_cancelScheduledValues (n : nat) (p : ParamName) (t : Q) :=
  update_param n p
    (fun a => {| value := value a;
                 events := filter (fun e => Qle_bool t (event_time e) = false) (events a) |}).

Definition set_type (n : nat) (ty : OscillatorType) (c : AudioContext) : AudioContext :=
  with_nodes
    (alter (fun x => match x with
                     | OscillatorNode _ fr de st sp => OscillatorNode ty fr de st sp
                     | _ => x
                     end) n (nodes c)) c.

(** [filter.type = 'lowpass'] *)
Definition set_lowpass (n : nat) (c : AudioContext) : AudioContext :=
  with_nodes
    (alter (fun x => match x with
                     | BiquadFilterNode _ fr q => BiquadFilterNode true fr q
                     | _ => x
                     end) n (nodes c)) c.

Definition connect (src : nat) (dst : Sink) (c : AudioContext) : AudioContext :=
  {| state := state c; currentTime := currentTime c; nodes := nodes c;
     connections := connections c ++ [(src, dst)] |}.

(** [osc.start(t)]; [osc.start()] is [start_osc n 0]. *)
Definition start_osc (n : nat) (t : Q) (c : AudioContext) : AudioContext :=
  with_nodes
    (alter (fun x => match x with
                     | OscillatorNode ty fr de _ sp => OscillatorNode ty fr de (Some t) sp
                     | _ => x
                     end) n (nodes c)) c.

Definition stop_osc (n : nat) (t : Q) (c : AudioContext) : AudioContext :=
  with_nodes
    (alter (fun x => match x with
                     | OscillatorNode ty fr de st _ => OscillatorNode ty fr de st (Some t)
                     | _ => x
                     end) n (nodes c)) c.

Definition is_oscillator (n : AudioNode) : bool :=
  match n with OscillatorNode _ _ _ _ _ => true | _ => false end.

(** An oscillator that was started and on which [stop] was never called:
    it sounds until the context is closed. *)
Definition runs_forever (n : AudioNode) : bool :=
  match n with
  | OscillatorNode _ _ _ (Some _) None => true
  | _ => false
  end.

Definition oscillators (c : AudioContext) : list AudioNode :=
  List.filter is_oscillator (nodes c).

Definition count_running_forever (c : AudioContext) : nat :=
  length (List.filter runs_forever (nodes c)).

(** The start time of a started oscillator. *)
Definition started_at (n : AudioNode) : option Q :=
  match n with OscillatorNode _ _ _ st _ => st | _ => None end.

(** [Math.max(min, Math.min(max, num))] *)
Definition clamp (num min max : Q) : Q := Qmax min (Qmin max num).

End WebAudio.

(** ** What the page offers to the sound system *)

Inductive WorkerSupport :=
| no_Worker              (* window.Worker is undefined *)
| Worker_throws          (* the constructor throws *)
| storage_throws         (* the worker is constructed, then sessionStorage.getItem throws *)
| Worker_constructs.     (* the try block runs to its end *)

Record WorkerHandle := mkHandle {
  script : string;
  posted : list ControlMessage;    (* messages sent to the worker, oldest first *)
  has_onmessage : bool;
  terminated : bool }.

(** A [setInterval] registration of the legacy scheduler, with the counter
    [i] its callback closes over. *)
Record Interval := mkInterval { iid : positive; period : Z; counter : nat }.

Record Page := mkPage {
  hasAudioContext : bool;     (* window.AudioContext || window.webkitAudioContext *)
  userActivated : bool;       (* the page has had a user gesture *)
  workerSupport : WorkerSupport;
  (* for a name that is not a sound: [Some throws] when the prototype chain
     of the [sounds] object supplies a function under that name, [throws]
     telling whether calling it with the options throws *)
  inheritedFunction : string → option bool;
  sessionStorage : gmap string string;
  workers : list WorkerHandle;
  intervals : list Interval;
  nextIntervalId : positive;
  console : list string }.

Definition with_sessionStorage (m : gmap string string) (p : Page) : Page :=
  {| hasAudioContext := hasAudioContext p; userActivated := userActivated p;
     workerSupport := workerSupport p; inheritedFunction := inheritedFunction p;
     sessionStorage := m; workers := workers p; intervals := intervals p;
     nextIntervalId := nextIntervalId p; console := console p |}.

Definition with_workers (l : list WorkerHandle) (p : Page) : Page :=
  {| hasAudioContext := hasAudioContext p; userActivated := userActivated p;
     workerSupport := workerSupport p; inheritedFunction := inheritedFunction p;
     sessionStorage := sessionStorage p; workers := l; intervals := intervals p;
     nextIntervalId := nextIntervalId p; console := console p |}.

Definition with_intervals (l : list Interval) (next : positive) (p : Page) : Page :=
  {| hasAudioContext := hasAudioContext p; userActivated := userActivated p;
     workerSupport := workerSupport p; inheritedFunction := inheritedFunction p;
     sessionStorage := sessionStorage p; workers := workers p; intervals := l;
     nextIntervalId := next; console := console p |}.

Definition console_warn (msg : string) (p : Page) : Page :=
  {| hasAudioContext := hasAudioContext p; userActivated := userActivated p;
     workerSupport := workerSupport p; inheritedFunction := inheritedFunction p;
     sessionStorage := sessionStorage p; workers := workers p;
     intervals := intervals p; nextIntervalId := nextIntervalId p;
     console := console p ++ [msg] |}.

(** [sessionStorage.setItem(key, n)] stores the decimal string of [n]. *)
Definition setItem (key : string) (n : Z) (p : Page) : Page :=
  with_sessionStorage (<[key := pretty n]> (sessionStorage p)) p.

(** [worker.postMessage(m)] *)
Definition post_to (k : nat) (m : ControlMessage) (p : Page) : Page :=
  with_workers
    (alter (fun h => {| script := script h; posted := posted h ++ [m];
                        has_onmessage := has_onmessage h;
                        terminated := terminated h |}) k (workers p)) p.

Definition set_onmessage (k : nat) (p : Page) : Page :=
  with_workers
    (alter (fun h => {| script := script h; posted := posted h;
                        has_onmessage := true;
                        terminated := terminated h |}) k (workers p)) p.

Definition terminate (k : nat) (p : Page) : Page :=
  with_workers
    (alter (fun h => {| script := script h; posted := posted h;
                        has_onmessage := has_onmessage h;
                        terminated := true |}) k (workers p)) p.

Definition clearInterval (id : positive) (p : Page) : Page :=
  with_intervals (filter (fun i => iid i ≠ id) (intervals p)) (nextIntervalId p) p.

(** ** parseInt on the stored position *)

Definition is_space (a : ascii) : bool :=
  let n := nat_of_ascii a in
  (Nat.eqb n 32 || (Nat.leb 9 n && Nat.leb n 13))%bool.

Fixpoint skip_spaces (s : string) : string :=
  match s with
  | String a s' => if is_space a then skip_spaces s' else s
  | EmptyString => s
  end.

Definition digit_of (a : ascii) : option Z :=
  let n := nat_of_ascii a in
  if (Nat.leb 48 n && Nat.leb n 57)%bool then Some (Z.of_nat n - 48) else None.

(** The longest prefix of decimal digits, [None] when there is none. *)
Fixpoint leading_digits (s : string) (acc : option Z) : option Z :=
  match s with
  | String a s' =>
      match digit_of a with
      | Some d => leading_digits s' (Some (10 * default 0 acc + d))
      | None => acc
      end
  | EmptyString => acc
  end.

(** [parseInt(s)] for decimal input; [None] is NaN.  (A [0x] prefix, which
    the stored strings never have, is not treated.) *)
Definition parseInt (s : string) : option Z :=
  match skip_spaces s with
  | String "-" s' => Z.opp <$> leading_digits s' None
  | String "+" s' => leading_digits s' None
  | s' => leading_digits s' None
  end.

(** A page with Web Audio and workers, after a user gesture, with nothing
    stored yet. *)
Definition unlocked_page : Page :=
  {| hasAudioContext := true; userActivated := true;
     workerSupport := Worker_constructs; inheritedFunction := fun _ => None;
     sessionStorage := ∅; workers := []; intervals := [];
     nextIntervalId := 1%positive; console := [] |}.

(** The same page before any user gesture. *)
Definition locked_page : Page :=
  {| hasAudioContext := true; userActivated := false;
     workerSupport := Worker_constructs; inheritedFunction := fun _ => None;
     sessionStorage := ∅; workers := []; intervals := [];
     nextIntervalId := 1%positive; console := [] |}.

(** ** src/sound.js *)

Module SoundSystem.
Import WebAudio.
Local Open Scope Q_scope.

(** The variables of the module closure that the audio paths use, and the
    page they act on.  ([interactionsInitialized], [pointerSensitivity],
    [lastMoveAt], [lastX] and [lastY] belong to the DOM wiring of
    [initInteractions].) *)
Record State := mkState {
  audioCtx : option AudioContext;
  masterGain : option nat;
  ambientGain : option nat;
  ambientStarted : bool;
  ambientTimer : option positive;
  audioWorker : option nat;
  page : Page }.

Definition initial (p : Page) : State :=
  {| audioCtx := None; masterGain := None; ambientGain := None;
     ambientStarted := false; ambientTimer := None; audioWorker := None;
     page := p |}.

Definition with_audioCtx (c : AudioContext) (st : State) : State :=
  {| audioCtx := Some c; masterGain := masterGain st; ambientGain := ambientGain st;
     ambientStarted := ambientStarted st; ambientTimer := ambientTimer st;
     audioWorker := audioWorker st; page := page st |}.

Definition with_page (p : Page) (st : State) : State :=
  {| audioCtx := audioCtx st; masterGain := masterGain st; ambientGain := ambientGain st;
     ambientStarted := ambientStarted st; ambientTimer := ambientTimer st;
     audioWorker := audioWorker st; page := p |}.

Definition with_ambientStarted (b : bool) (st : State) : State :=
  {| audioCtx := audioCtx st; masterGain := masterGain st; ambientGain := ambientGain st;
     ambientStarted := b; ambientTimer := ambientTimer st;
     audioWorker := audioWorker st; page := page st |}.

Definition with_ambientTimer (t : option positive) (st : State) : State :=
  {| audioCtx := audioCtx st; masterGain := masterGain st; ambientGain := ambientGain st;
     ambientStarted := ambientStarted st; ambientTimer := t;
     audioWorker := audioWorker st; page := page st |}.

Definition with_audioWorker (k : option nat) (st : State) : State :=
  {| audioCtx := audioCtx st; masterGain := masterGain st; ambientGain := ambientGain st;
     ambientStarted := ambientStarted st; ambientTimer := ambientTimer st;
     audioWorker := k; page := page st |}.

Definition MELODY_NOTES : list Q :=
  [261.63; 329.63; 392.0; 349.23; 293.66; 392.0; 329.63; 261.63].
Definition SAFE_MIN_VOLUME : Q := 0.0001.

Definition initContext (st : State) : Completion State :=
  and_then
    match audioCtx st with
    | Some _ => Normal st
    | None =>
        if hasAudioContext (page st) then
          let ctx := newAudioContext (userActivated (page st)) in
          let '(mg, ctx) := createGain ctx in
          let ctx := set_value mg gain 0.35 ctx in
          let ctx := connect mg destination ctx in
          let '(ag, ctx) := createGain ctx in
          let ctx := set_value ag gain 0.0 ctx in
          let ctx := connect ag (node_input mg) ctx in
          Normal {| audioCtx := Some ctx; masterGain := Some mg; ambientGain := Some ag;
                    ambientStarted := ambientStarted st; ambientTimer := ambientTimer st;
                    audioWorker := audioWorker st; page := page st |}
        else Throw st                 (* undefined is not a constructor *)
    end
    (fun st =>
       match audioCtx st with
       | Some ctx =>
           match state ctx with
           | suspended => Normal (with_audioCtx (resume (userActivated (page st)) ctx) st)
           | running => Normal st
           end
       | None => Normal st
       end).

(** [createTone(frequency, type, startTime, duration, volume = 0.1,
    destination = masterGain)]; the two defaults are filled in by the
    callers below. *)
Definition createTone (freq : Q) (type : OscillatorType) (startTime duration volume : Q)
    (dest : option nat) (st : State) : State :=
  match audioCtx st, dest with
  | Some ctx, Some dest =>
      if Qle_bool duration 0 then st else
      let '(osc, ctx) := createOscillator ctx in
      let '(g, ctx) := createGain ctx in
      let safeVolume := clamp volume SAFE_MIN_VOLUME 1.0 in
      let ctx := set_type osc type ctx in
      let ctx := param_setValueAtTime osc frequency freq startTime ctx in
      let ctx := param_setValueAtTime g gain safeVolume startTime ctx in
      let ctx := param_exponentialRampToValueAtTime g gain SAFE_MIN_VOLUME
                   (startTime + duration) ctx in
      let ctx := connect osc (node_input g) ctx in
      let ctx := connect g (node_input dest) ctx in
      let ctx := start_osc osc startTime ctx in
      let ctx := stop_osc osc (startTime + duration) ctx in
      with_audioCtx ctx st
  | _, _ => st
  end.

(** [createNote(frequency, startTime, duration, volume = 0.07,
    destination = masterGain)] *)
Definition createNote (freq startTime duration volume : Q)
    (dest : option nat) (st : State) : State :=
  match audioCtx st, dest with
  | Some ctx, Some dest =>
      let '(osc, ctx) := createOscillator ctx in
      let '(g, ctx) := createGain ctx in
      let '(flt, ctx) := createBiquadFilter ctx in
      let ctx := set_type osc triangle ctx in
      let ctx := param_setValueAtTime osc frequency freq startTime ctx in
      let ctx := set_lowpass flt ctx in
      let ctx := param_setValueAtTime flt frequency 1800 startTime ctx in
      let ctx := param_setValueAtTime flt Q_ 0.75 startTime ctx in
      let ctx := param_setValueAtTime g gain SAFE_MIN_VOLUME startTime ctx in
      let ctx := param_exponentialRampToValueAtTime g gain
                   (clamp volume SAFE_MIN_VOLUME 1) (startTime + 0.02) ctx in
      let ctx := param_exponentialRampToValueAtTime g gain SAFE_MIN_VOLUME
                   (startTime + duration) ctx in
      let ctx := connect osc (node_input flt) ctx in
      let ctx := connect flt (node_input g) ctx in
      let ctx := connect g (node_input dest) ctx in
      let ctx := start_osc osc startTime ctx in
      let ctx := stop_osc osc (startTime + duration + 0.02) ctx in
      with_audioCtx ctx st
  | _, _ => st
  end.

(** The staleness test of the handler,
    [e.data.timestamp && (now - e.data.timestamp > 150)]: a timestamp of 0
    is falsy and skips the comparison. *)
Definition is_stale (now timestamp : Z) : bool :=
  (negb (timestamp =? 0)%Z && (150 <? now - timestamp)%Z)%bool.

(** The synthesis of one received note on the ambient bus. *)
Definition synthesize (note : Q) (duration priority : Z) (ag : nat)
    (ctx : AudioContext) : AudioContext :=
  let t := currentTime ctx + 0.05 in
  let dur := inject_Z duration / 1000 in
  let priority := if (priority =? 0)%Z then 1%Z else priority in
  let '(osc, ctx) := createOscillator ctx in
  let '(g, ctx) := createGain ctx in
  let ctx := set_type osc sine ctx in
  let ctx := param_setValueAtTime osc frequency note t ctx in
  let '(vGain, ctx) := createGain ctx in
  let '(vOsc, ctx) := createOscillator ctx in
  let ctx := set_value vGain gain (if (priority =? 2)%Z then 5 else 3) ctx in
  let ctx := set_value vOsc frequency (if (priority =? 2)%Z then 6 else 4) ctx in
  let ctx := connect vOsc (node_input vGain) ctx in
  let ctx := connect vGain (node_param osc frequency) ctx in
  let maxVol := if (priority =? 2)%Z then 0.18 else 0.12 in
  let ctx := param_setValueAtTime g gain 0 t ctx in
  let ctx := param_linearRampToValueAtTime g gain maxVol (t + 0.1) ctx in
  let ctx := param_linearRampToValueAtTime g gain 0 (t + dur) ctx in
  let ctx := connect osc (node_input g) ctx in
  let ctx := connect g (node_input ag) ctx in
  let ctx := start_osc vOsc t ctx in
  let ctx := start_osc osc t ctx in
  let ctx := stop_osc vOsc (t + dur + 0.1) ctx in
  let ctx := stop_osc osc (t + dur + 0.1) ctx in
  ctx.

(** [audioWorker.onmessage], with [now] the handler's reading of
    [performance.now()].  [g.connect(ambientGain)] throws on a null
    [ambientGain]; [initContext] assigns [audioCtx] and [ambientGain]
    together, so this does not happen, and the nodes built before the
    failing call are left out. *)
Definition onmessage (now : Z) (data : WorkerMessage) (st : State) : Completion State :=
  let st := match msg_currentIndex data with
            | Some i => with_page (setItem "ambient_melody_index" i (page st)) st
            | None => st
            end in
  match data with
  | play_note note duration priority timestamp _ =>
      match audioCtx st with
      | None => Normal st
      | Some ctx =>
          if is_stale now timestamp then
            Normal (with_page
                      (console_warn
                         "Dropping stale background note to maintain website smoothness"
                         (page st)) st)
          else
            match ambientGain st with
            | Some ag => Normal (with_audioCtx (synthesize note duration priority ag ctx) st)
            | None => Throw st
            end
      end
  | _ => Normal st
  end.

Definition setupLegacyInterval (st : State) : State :=
  let id := nextIntervalId (page st) in
  with_ambientTimer (Some id)
    (with_page
       (with_intervals (intervals (page st) ++ [mkInterval id 1300 0]) (Pos.succ id) (page st))
       st).

(** One run of the interval callback registered under [id]. *)
Definition interval_callback (i : nat) (st : State) : State :=
  match audioCtx st with
  | None => st
  | Some ctx =>
      let t := currentTime ctx + 0.02 in
      match MELODY_NOTES !! (i mod length MELODY_NOTES)%nat with
      | Some note =>
          let st := createNote note t 0.9 0.028 (ambientGain st) st in
          createNote (note * 0.5) t 1.1 0.014 (ambientGain st) st
      | None => st
      end
  end.

Definition interval_fires (id : positive) (st : State) : State :=
  match List.find (fun i => Pos.eqb (iid i) id) (intervals (page st)) with
  | Some reg =>
      match audioCtx st with
      | None => st                  (* the callback returns before [i += 1] *)
      | Some _ =>
          let st := interval_callback (counter reg) st in
          with_page
            (with_intervals
               (map (fun i => if Pos.eqb (iid i) id
                              then mkInterval (iid i) (period i) (S (counter i)) else i)
                    (intervals (page st)))
               (nextIntervalId (page st)) (page st)) st
      end
  | None => st
  end.

(** The part of [startAmbient] under [if (window.Worker)]. *)
Definition start_worker (st : State) : State :=
  match workerSupport (page st) with
  | no_Worker => setupLegacyInterval st
  | Worker_throws =>
      setupLegacyInterval
        (with_page (console_warn "Worker failed, fallback to interval" (page st)) st)
  | storage_throws =>
      (* [audioWorker = new Worker(...)] has run when [getItem] throws: the
         catch block finds the worker assigned, without handler or message *)
      let k := length (workers (page st)) in
      let p := with_workers (workers (page st) ++ [mkHandle "audio-worker.js" [] false false])
                 (page st) in
      setupLegacyInterval
        (with_page (console_warn "Worker failed, fallback to interval" p)
           (with_audioWorker (Some k) st))
  | Worker_constructs =>
      let k := length (workers (page st)) in
      let p := with_workers (workers (page st) ++ [mkHandle "audio-worker.js" [] false false])
                 (page st) in
      let stored := default "" (sessionStorage p !! "ambient_melody_index") in
      let savedIndex := parseInt (if String.eqb stored "" then "0" else stored) in
      let p := set_onmessage k p in
      let p := post_to k (Protocol.start savedIndex) p in
      with_audioWorker (Some k) (with_page p st)
  end.

(** The fade-in of the ambient bus at the head of [startAmbient]. *)
Definition fade_in (ag : nat) (ctx : AudioContext) : AudioContext :=
  let now := currentTime ctx in
  let ctx := param_cancelScheduledValues ag gain now ctx in
  let ctx := param_setValueAtTime ag gain 0.0 now ctx in
  param_linearRampToValueAtTime ag gain 0.65 (now + 0.5) ctx.

(** The drone layer of [startAmbient]: two oscillators, started and never
    given a stop time, through a gain and a filter into the ambient bus. *)
Definition drone_layer (ag : nat) (ctx : AudioContext) : AudioContext :=
  let '(drone1, ctx) := createOscillator ctx in
  let '(drone2, ctx) := createOscillator ctx in
  let '(droneGain, ctx) := createGain ctx in
  let '(droneFilter, ctx) := createBiquadFilter ctx in
  let ctx := set_type drone1 triangle ctx in
  let ctx := set_type drone2 sine ctx in
  let ctx := set_value drone1 frequency 65.41 ctx in
  let ctx := set_value drone2 frequency 98.0 ctx in
  let ctx := set_value droneGain gain 0.12 ctx in
  let ctx := set_lowpass droneFilter ctx in
  let ctx := set_value droneFilter frequency 520 ctx in
  let ctx := set_value droneFilter Q_ 0.4 ctx in
  let ctx := connect drone1 (node_input droneGain) ctx in
  let ctx := connect drone2 (node_input droneGain) ctx in
  let ctx := connect droneGain (node_input droneFilter) ctx in
  let ctx := connect droneFilter (node_input ag) ctx in
  let ctx := start_osc drone1 0 ctx in
  let ctx := start_osc drone2 0 ctx in
  ctx.

Definition startAmbient (st : State) : Completion State :=
  and_then (initContext st) (fun st =>
    match audioCtx st, ambientGain st with
    | Some ctx, Some ag =>
        if ambientStarted st then Normal st else
        let st := with_ambientStarted true st in
        let ctx := fade_in ag ctx in
        let ctx := drone_layer ag ctx in
        Normal (start_worker (with_audioCtx ctx st))
    | _, _ => Normal st
    end).

(** The fade-out of [stopAmbient], with [gainValue] the reading of
    [ambientGain.gain.value]. *)
Definition fade_out (gainValue : Q) (ag : nat) (ctx : AudioContext) : AudioContext :=
  let now := currentTime ctx in
  let ctx := param_cancelScheduledValues ag gain now ctx in
  let ctx := param_setValueAtTime ag gain gainValue now ctx in
  param_linearRampToValueAtTime ag gain 0.0 (now + 0.5) ctx.

Definition stopAmbient (gainValue : Q) (st : State) : State :=
  let st := match audioWorker st with
            | Some k =>
                with_audioWorker None
                  (with_page (terminate k (post_to k Protocol.stop (page st))) st)
            | None => st
            end in
  let st := match ambientTimer st with
            | Some id => with_ambientTimer None (with_page (clearInterval id (page st)) st)
            | None => st
            end in
  let st := match audioCtx st, ambientGain st with
            | Some ctx, Some ag => with_audioCtx (fade_out gainValue ag ctx) st
            | _, _ => st
            end in
  with_ambientStarted false st.

(** The options object of a sound: [{ intensity = 1 } = {}]. *)
Record Options := mkOptions { intensity : option Q }.

Definition now_of (st : State) : Q :=
  match audioCtx st with Some ctx => currentTime ctx | None => 0 end.

(** A sound of the [sounds] table: [initContext(); if (!audioCtx) return;]
    and then its tones. *)
Definition sound (tones : State → State) (st : State) : Completion State :=
  and_then (initContext st) (fun st =>
    match audioCtx st with
    | None => Normal st
    | Some _ => Normal (tones st)
    end).

Definition click (o : Options) : State → Completion State :=
  sound (fun st =>
    let now := now_of st in
    let vol := clamp (0.04 + default 1 (intensity o) * 0.06) 0.04 0.12 in
    let st := createTone 293.66 square now 0.06 vol (masterGain st) st in
    createTone 220.0 triangle (now + 0.01) 0.08 (vol * 0.8) (masterGain st) st).

Definition hover (o : Options) : State → Completion State :=
  sound (fun st =>
    let now := now_of st in
    let vol := clamp (0.015 + default 1 (intensity o) * 0.025) 0.012 0.05 in
    createTone 659.25 triangle now 0.045 vol (masterGain st) st).

Definition success : State → Completion State :=
  sound (fun st =>
    let now := now_of st in
    let st := createNote 392.0 now 0.14 0.07 (masterGain st) st in
    let st := createNote 493.88 (now + 0.12) 0.14 0.07 (masterGain st) st in
    createNote 587.33 (now + 0.24) 0.3 0.08 (masterGain st) st).

Definition error : State → Completion State :=
  sound (fun st =>
    let now := now_of st in
    let st := createTone 185.0 sawtooth now 0.12 0.08 (masterGain st) st in
    createTone 155.56 sawtooth (now + 0.1) 0.2 0.07 (masterGain st) st).

Definition hurt : State → Completion State :=
  sound (fun st =>
    let now := now_of st in
    let st := createTone 164.81 sawtooth now 0.16 0.08 (masterGain st) st in
    createTone 130.81 sawtooth (now + 0.05) 0.2 0.07 (masterGain st) st).

Definition scan : State → Completion State :=
  sound (fun st =>
    let now := now_of st in
    let st := createTone 783.99 sine now 0.06 0.05 (masterGain st) st in
    createTone 987.77 sine (now + 0.05) 0.09 0.04 (masterGain st) st).

Definition level_up : State → Completion State :=
  sound (fun st =>
    let now := now_of st in
    fst (foldl (fun '(st, i) f =>
                  (createNote f (now + inject_Z i * 0.12) 0.35 0.09 (masterGain st) st,
                   (i + 1)%Z))
               (st, 0%Z) [329.63; 392.0; 493.88; 659.25])).

(** [sounds[type]]: the table's own entries. *)
Definition sounds (type : string) : option (Options → State → Completion State) :=
  if String.eqb type "click" then Some click
  else if String.eqb type "hover" then Some hover
  else if String.eqb type "success" then Some (fun _ => success)
  else if String.eqb type "error" then Some (fun _ => error)
  else if String.eqb type "hurt" then Some (fun _ => hurt)
  else if String.eqb type "scan" then Some (fun _ => scan)
  else if String.eqb type "level_up" then Some (fun _ => level_up)
  else None.

(** The body of [play]'s [try] block. *)
Definition play_body (type : string) (options : Options) (st : State) : Completion State :=
  and_then
    match audioCtx st with
    | None => initContext st
    | Some _ => Normal st
    end
    (fun st =>
       match sounds type with
       | Some fn => fn options st
       | None =>
           match inheritedFunction (page st) type with
           | Some true => Throw st
           | Some false | None => Normal st
           end
       end).

(** [play(type, options = {})] *)
Definition play (type : string) (options : option Options) (st : State) : Completion State :=
  try_catch (play_body type (default (mkOptions None) options) st)
    (fun st => Normal (with_page (console_warn "Sound playback error:" (page st)) st)).

(** Oscillators of the context that were started and never given a stop
    time. *)
Definition drones (st : State) : nat :=
  match audioCtx st with
  | Some ctx => count_running_forever ctx
  | None => 0%nat
  end.

(** An audio context exists with its ambient bus, or the page can supply
    one. *)
Definition ready (st : State) : Prop :=
  match audioCtx st with
  | Some _ => is_Some (ambientGain st)
  | None => hasAudioContext (page st) = true
  end.

(** The worker's handler runs for a message only while [audioWorker] holds
    a worker that has the handler and was not terminated. *)
Definition listening (st : State) : bool :=
  match audioWorker st with
  | Some k =>
      match workers (page st) !! k with
      | Some h => (has_onmessage h && negb (terminated h))%bool
      | None => false
      end
  | None => false
  end.

(** What happens to the sound system, one call or event at a time. *)
Inductive Event :=
| StartAmbient
| StopAmbient (gainValue : Q)
| Play (type : string) (options : option Options)
| FromWorker (now : Z) (data : WorkerMessage)
| IntervalFires (id : positive)
| UserGesture
| TimePasses (dt : Q).

Definition step (e : Event) (st : State) : State :=
  match e with
  | StartAmbient => final (startAmbient st)
  | StopAmbient v => stopAmbient v st
  | Play type options => final (play type options st)
  | FromWorker now data => if listening st then final (onmessage now data st) else st
  | IntervalFires id => interval_fires id st
  | UserGesture =>
      let p := page st in
      with_page
        {| hasAudioContext := hasAudioContext p; userActivated := true;
           workerSupport := workerSupport p; inheritedFunction := inheritedFunction p;
           sessionStorage := sessionStorage p; workers := workers p;
           intervals := intervals p; nextIntervalId := nextIntervalId p;
           console := console p |} st
  | TimePasses dt =>
      match audioCtx st with
      | Some ctx =>
          match state ctx with
          | running =>
              with_audioCtx {| state := running; currentTime := currentTime ctx + dt;
                               nodes := nodes ctx; connections := connections ctx |} st
          | suspended => st
          end
      | None => st
      end
  end.

Definition run (es : list Event) (st : State) : State :=
  foldl (fun st e => step e st) st es.

(** [st'] has the worker of [st] and at least its audio objects. *)
Definition extends (st st' : State) : Prop :=
  audioWorker st' = audioWorker st ∧
  (is_Some (audioCtx st) → is_Some (audioCtx st')) ∧
  (is_Some (ambientGain st) → is_Some (ambientGain st')).

(** While a worker is held, the audio context and the ambient bus exist. *)
Definition worker_has_audio (st : State) : Prop :=
  is_Some (audioWorker st) → is_Some (audioCtx st) ∧ is_Some (ambientGain st).

(** [n] rounds of startAmbient() followed by stopAmbient(). *)
Fixpoint cycles (gainValues : list Q) (st : State) : State :=
  match gainValues with
  | [] => st
  | v :: rest => cycles rest (stopAmbient v (final (startAmbient st)))
  end.

End SoundSystem.

(** ** The message handler of src/unnamed/part_001 *)

Module PianoBridge.
Import WebAudio.
Local Open Scope Q_scope.

(** This copy of the sound system has a third bus, [sfxGain]. *)
Record State := mkState {
  audioCtx : option AudioContext;
  masterGain : option nat;
  sfxGain : option nat;
  ambientGain : option nat;
  ambientStarted : bool;
  ambientTimer : option positive;
  audioWorker : option nat;
  page : Page }.

Definition with_audioCtx (c : AudioContext) (st : State) : State :=
  {| audioCtx := Some c; masterGain := masterGain st; sfxGain := sfxGain st;
     ambientGain := ambientGain st; ambientStarted := ambientStarted st;
     ambientTimer := ambientTimer st; audioWorker := audioWorker st;
     page := page st |}.

Definition with_page (p : Page) (st : State) : State :=
  {| audioCtx := audioCtx st; masterGain := masterGain st; sfxGain := sfxGain st;
     ambientGain := ambientGain st; ambientStarted := ambientStarted st;
     ambientTimer := ambientTimer st; audioWorker := audioWorker st;
     page := p |}.

(** The two-layer note; [random] is the value of [Math.random()]. *)
Definition synthesize (random : Q) (note : Q) (duration priority : Z) (ag : nat)
    (ctx : AudioContext) : AudioContext :=
  let t := currentTime ctx + 0.05 in
  let dur := inject_Z duration / 1000 in
  let priority := if (priority =? 0)%Z then 1%Z else priority in
  let '(osc, ctx) := createOscillator ctx in
  let '(g, ctx) := createGain ctx in
  let ctx := set_type osc sine ctx in
  let ctx := param_setValueAtTime osc frequency note t ctx in
  let '(osc2, ctx) := createOscillator ctx in
  let '(g2, ctx) := createGain ctx in
  let ctx := set_type osc2 triangle ctx in
  let ctx := param_setValueAtTime osc2 frequency note t ctx in
  let ctx := param_setValueAtTime osc2 detune (random * 6 - 3) t ctx in
  let maxVol := if (priority =? 2)%Z then 0.08 else 0.05 in
  let ctx := param_setValueAtTime g gain 0 t ctx in
  let ctx := param_linearRampToValueAtTime g gain maxVol (t + 0.02) ctx in
  let ctx := param_exponentialRampToValueAtTime g gain (maxVol * 0.6) (t + 0.3) ctx in
  let ctx := param_exponentialRampToValueAtTime g gain 0.001 (t + dur + 1.5) ctx in
  let ctx := param_setValueAtTime g2 gain 0 t ctx in
  let ctx := param_linearRampToValueAtTime g2 gain (maxVol * 0.3) (t + 0.02) ctx in
  let ctx := param_exponentialRampToValueAtTime g2 gain 0.001 (t + dur * 0.8) ctx in
  let ctx := connect osc (node_input g) ctx in
  let ctx := connect osc2 (node_input g2) ctx in
  let ctx := connect g (node_input ag) ctx in
  let ctx := connect g2 (node_input ag) ctx in
  let ctx := start_osc osc t ctx in
  let ctx := start_osc osc2 t ctx in
  let ctx := stop_osc osc (t + dur + 2.0) ctx in
  let ctx := stop_osc osc2 (t + dur + 2.0) ctx in
  ctx.

(** [audioWorker.onmessage]: the staleness test is commented out in this
    copy, so the handler does not read [performance.now()].  (A null
    [ambientGain] next to a context: as in src/sound.js.) *)
Definition onmessage (random : Q) (data : WorkerMessage) (st : State) : Completion State :=
  let st := match msg_currentIndex data with
            | Some i => with_page (setItem "ambient_melody_index" i (page st)) st
            | None => st
            end in
  match data with
  | play_note note duration priority timestamp _ =>
      match audioCtx st with
      | None => Normal st
      | Some ctx =>
          match ambientGain st with
          | Some ag =>
              Normal (with_audioCtx (synthesize random note duration priority ag ctx) st)
          | None => Throw st
          end
      end
  | _ => Normal st
  end.

End PianoBridge.

(** ** Observations on the worker's event loop *)

(** The two kinds of event that report a melody position. *)
Definition is_note_event (m : WorkerMessage) : bool :=
  (is_play_note m || is_sync_state m)%bool.

Module WorkerTrace.
Import AudioWorker.

(** The handler an event runs, with its completion. *)
Definition dispatch (e : WorkerEvent) (w : Worker) : Completion Worker :=
  match e with
  | Message now dateNow m => onmessage now dateNow m w
  | TimeoutFires now id => fire now id w
  end.

Definition is_start_message (e : WorkerEvent) : bool :=
  match e with
  | Message _ _ (Protocol.start _) => true
  | _ => false
  end.

(** The index of a start or sync message, when it has one, is not
    negative. *)
Definition index_nonnegative (e : WorkerEvent) : bool :=
  match e with
  | Message _ _ (Protocol.start (Some i)) | Message _ _ (sync (Some i)) => 0 <=? i
  | _ => true
  end.

(** Positions within the melody [m], as far as a message reports one. *)
Definition reports_valid_position (m : list AudioTask) (ev : WorkerMessage) : Prop :=
  ∀ j, msg_currentIndex ev = Some j → 0 <= j < Z.of_nat (length m).

Definition safe (m : list AudioTask) (w : Worker) : Prop :=
  melody (SchedulerInstance w) = m ∧
  index_in_range (SchedulerInstance w) ∧
  Forall (reports_valid_position m) (outbox (self w)).

(** The wake-up of a running scheduler: one pending timeout, the one
    [this.timer] holds, with a delay that is not negative. *)
Definition wake_up_pending (w : Worker) : Prop :=
  ∃ id d, timeouts (self w) = [mkTimeout id d] ∧
          timer (SchedulerInstance w) = Some id ∧ 0 <= d.

End WorkerTrace.

(** ** Observations on the bridge's ambient sources *)

Module AmbientSources.
Import WebAudio SoundSystem.

(** [st'] has the drones, the worker, the interval timer and the started
    flag of [st], on a page with the same workers and the same registered
    intervals. *)
Definition same_ambience (st st' : State) : Prop :=
  drones st' = drones st ∧
  audioWorker st' = audioWorker st ∧
  ambientTimer st' = ambientTimer st ∧
  ambientStarted st' = ambientStarted st ∧
  workers (page st') = workers (page st) ∧
  map iid (intervals (page st')) = map iid (intervals (page st)).

(** The registered intervals and the live workers are exactly what the
    module's variables refer to, and a worker that is listened to never has
    the interval next to it. *)
Definition tidy (st : State) : Prop :=
  map iid (intervals (page st)) =
    match ambientTimer st with Some id => [id] | None => [] end ∧
  (∀ k h, workers (page st) !! k = Some h → terminated h = false →
          audioWorker st = Some k) ∧
  (∀ k, audioWorker st = Some k →
        ∃ h, workers (page st) !! k = Some h ∧ terminated h = false) ∧
  (ambientStarted st = false → audioWorker st = None ∧ ambientTimer st = None) ∧
  (listening st = true → ambientTimer st = None).

Definition is_StartAmbient (e : Event) : bool :=
  match e with StartAmbient => true | _ => false end.

(** The target of an exponential ramp is above zero (a ramp to zero or
    below is a RangeError in Web Audio). *)
Definition ramp_target_positive (e : AutomationEvent) : bool :=
  match e with
  | exponentialRampToValueAtTime v _ => negb (Qle_bool v 0)
  | _ => true
  end.

Definition params_of (n : AudioNode) : list AudioParam :=
  match n with
  | GainNode g => [g]
  | OscillatorNode _ fr de _ _ => [fr; de]
  | BiquadFilterNode _ fr q => [fr; q]
  end.

Definition node_ramps_positive (n : AudioNode) : bool :=
  forallb (fun a => forallb ramp_target_positive (events a)) (params_of n).

Definition context_ramps_positive (c : AudioContext) : bool :=
  forallb node_ramps_positive (nodes c).

Definition ramps_positive (st : State) : bool :=
  match audioCtx st with
  | Some ctx => context_ramps_positive ctx
  | None => true
  end.

(** The pitch an oscillator was scheduled to sound at: the value of the
    first [frequency.setValueAtTime] call on it. *)
Definition oscillator_frequency (n : AudioNode) : option Q :=
  match n with
  | OscillatorNode _ fr _ _ _ =>
      match events fr with
      | setValueAtTime v _ :: _ => Some v
      | _ => None
      end
  | _ => None
  end.

(** The scheduled pitches of the context, in the order the oscillators
    were created. *)
Definition scheduled_pitches (st : State) : list Q :=
  match audioCtx st with
  | Some ctx => omap oscillator_frequency (nodes ctx)
  | None => []
  end.

(** Ticks of the interval [id], each after some time has passed. *)
Definition legacy_ticks (id : positive) (dts : list Q) : list Event :=
  flat_map (fun dt => [TimePasses dt; IntervalFires id]) dts.

End AmbientSources.

(** ** The handlers [initInteractions] registers (src/sound.js) *)

Module Interactions.
Import WebAudio SoundSystem.
Local Open Scope Q_scope.

(** The variables the handlers share: [pointerSensitivity], [lastMoveAt],
    [lastX] and [lastY] of the module closure and [lastHoverAt] of
    [initInteractions], next to the state of the audio paths. *)
Record Wiring := mkWiring {
  pointerSensitivity : Q;
  lastMoveAt : Z;
  lastX : Q;
  lastY : Q;
  lastHoverAt : Z;
  system : State }.

(** The variables as [initInteractions] finds and leaves them. *)
Definition wired (st : State) : Wiring :=
  {| pointerSensitivity := 0.85; lastMoveAt := 0; lastX := 0; lastY := 0;
     lastHoverAt := 0; system := st |}.

Definition with_system (st : State) (w : Wiring) : Wiring :=
  {| pointerSensitivity := pointerSensitivity w; lastMoveAt := lastMoveAt w;
     lastX := lastX w; lastY := lastY w; lastHoverAt := lastHoverAt w;
     system := st |}.

(** [unlockAndStart]: [initContext(); startAmbient();] *)
Definition unlockAndStart (st : State) : Completion State :=
  and_then (initContext st) startAmbient.

(** [clickHandler]; [target] tells whether the event's target lies within
    an interactive element. *)
Definition clickHandler (target : bool) (w : Wiring) : Completion Wiring :=
  match unlockAndStart (system w) with
  | Throw st => Throw (with_system st w)
  | Normal st =>
      if target
      then match play "click" (Some (mkOptions (Some (pointerSensitivity w)))) st with
           | Normal st => Normal (with_system st w)
           | Throw st => Throw (with_system st w)
           end
      else Normal (with_system st w)
  end.

(** [hoverHandler], with [nowMs] its reading of [Date.now()]. *)
Definition hoverHandler (target : bool) (nowMs : Z) (w : Wiring) : Completion Wiring :=
  if negb target then Normal w else
  if (nowMs - lastHoverAt w <? 60)%Z then Normal w else
  let w := {| pointerSensitivity := pointerSensitivity w; lastMoveAt := lastMoveAt w;
              lastX := lastX w; lastY := lastY w; lastHoverAt := nowMs;
              system := system w |} in
  match play "hover" (Some (mkOptions (Some (pointerSensitivity w)))) (system w) with
  | Normal st => Normal (with_system st w)
  | Throw st => Throw (with_system st w)
  end.

Section MoveHandler.

(** [Math.sqrt], on the numbers the handler passes to it. *)
Variable sqrt : Q → Q.

(** [moveHandler], for numeric [clientX] and [clientY]. *)
Definition moveHandler (clientX clientY : Q) (nowMs : Z) (w : Wiring) : Wiring :=
  let sensitivity :=
    if (lastMoveAt w =? 0)%Z then pointerSensitivity w else
    let dt := Z.max 16 (nowMs - lastMoveAt w) in
    let dx := clientX - lastX w in
    let dy := clientY - lastY w in
    let speed := sqrt ((dx * dx) + (dy * dy)) / inject_Z dt in
    clamp (speed * 1.8) 0.4 1.8 in
  {| pointerSensitivity := sensitivity; lastMoveAt := nowMs;
     lastX := clientX; lastY := clientY; lastHoverAt := lastHoverAt w;
     system := system w |}.

(** The events the document listeners receive. *)
Inductive PointerEvent :=
| Click (target : bool)
| MouseEnter (target : bool) (nowMs : Z)
| MouseMove (clientX clientY : Q) (nowMs : Z)
| KeyDown
| TouchStart.

Definition handle (e : PointerEvent) (w : Wiring) : Wiring :=
  match e with
  | Click target => final (clickHandler target w)
  | MouseEnter target nowMs => final (hoverHandler target nowMs w)
  | MouseMove x y nowMs => moveHandler x y nowMs w
  | KeyDown | TouchStart => with_system (final (unlockAndStart (system w))) w
  end.

Definition handle_all (es : list PointerEvent) (w : Wiring) : Wiring :=
  foldl (fun w e => handle e w) w es.

End MoveHandler.

End Interactions.

(** * Properties of the worker-side scheduler *)

Lemma js_index_Some {A} (l : list A) (i : Z) (x : A) :
  js_index l i = Some x → 0 <= i < Z.of_nat (length l).
Proof.
  unfold js_index. destruct (Z.ltb_spec i 0) as [Hneg|Hpos]; [discriminate|].
  intros Hl. apply lookup_lt_Some in Hl. lia.
Qed.

Lemma js_index_is_Some {A} (l : list A) (i : Z) :
  0 <= i < Z.of_nat (length l) → is_Some (js_index l i).
Proof.
  intros [H0 H1]. unfold js_index.
  destruct (Z.ltb_spec i 0); [lia|].
  apply lookup_lt_is_Some. lia.
Qed.

Lemma rem_succ_in_range (i L : Z) :
  0 <= i < L → Z.rem (i + 1) L = (i + 1) mod L ∧ 0 <= Z.rem (i + 1) L < L.
Proof.
  intros H. rewrite Z.rem_mod_nonneg by lia.
  split; [reflexivity|]. apply Z.mod_pos_bound. lia.
Qed.

Lemma drop_timeout_single (id : positive) (d : Z) :
  drop_timeout id [mkTimeout id d] = [].
Proof.
  unfold drop_timeout. rewrite filter_cons_False; [reflexivity|]. simpl. tauto.
Qed.

Module AudioWorkerFacts.
Import AudioWorker.

(** Everything one emission step does, when the scheduler runs and the
    current position holds a task. *)
Lemma processNext_emits (now : Z) (w : Worker) (task : AudioTask) :
  isRunning (SchedulerInstance w) = true →
  js_index (melody (SchedulerInstance w)) (currentIndex (SchedulerInstance w)) = Some task →
  ∃ w', processNext now w = Normal w' ∧
    outbox (self w') =
      outbox (self w) ++ [emission now (currentIndex (SchedulerInstance w)) task] ∧
    currentIndex (SchedulerInstance w') =
      Z.rem (currentIndex (SchedulerInstance w) + 1)
            (Z.of_nat (length (melody (SchedulerInstance w)))) ∧
    isRunning (SchedulerInstance w') = true ∧
    melody (SchedulerInstance w') = melody (SchedulerInstance w) ∧
    lastExecutionTime (SchedulerInstance w') =
      (if nextDelay now (SchedulerInstance w) task <? 0 then now
       else lastExecutionTime (SchedulerInstance w) + duration task) ∧
    timeouts (self w') =
      match timer (SchedulerInstance w) with
      | Some id => drop_timeout id (timeouts (self w))
      | None => timeouts (self w)
      end ++ [mkTimeout (nextTimeoutId (self w))
                (if nextDelay now (SchedulerInstance w) task <? 0 then 0
                 else nextDelay now (SchedulerInstance w) task)] ∧
    timer (SchedulerInstance w') = Some (nextTimeoutId (self w)).
Proof.
  intros Hrun Htask. unfold processNext. rewrite Hrun, Htask. simpl.
  destruct (nextDelay now (SchedulerInstance w) task <? 0);
    destruct (timer (SchedulerInstance w)); simpl;
    eexists; (split; [reflexivity|]); simpl; repeat split; reflexivity.
Qed.

Lemma processNext_idle (now : Z) (w : Worker) :
  isRunning (SchedulerInstance w) = false → processNext now w = Normal w.
Proof. intros H. unfold processNext. rewrite H. reflexivity. Qed.

Lemma processNext_undefined_task (now : Z) (w : Worker) :
  isRunning (SchedulerInstance w) = true →
  js_index (melody (SchedulerInstance w)) (currentIndex (SchedulerInstance w)) = None →
  processNext now w = Throw w.
Proof. intros H1 H2. unfold processNext. rewrite H1, H2. reflexivity. Qed.

Lemma single_timer_cleared (w : Worker) :
  single_timer w →
  match timer (SchedulerInstance w) with
  | Some id => drop_timeout id (timeouts (self w))
  | None => timeouts (self w)
  end = [].
Proof.
  intros [Hnil | (id & d & Hl & Ht)].
  - rewrite Hnil. destruct (timer _); reflexivity.
  - rewrite Ht, Hl. apply drop_timeout_single.
Qed.

(** The emission step keeps the single-timer discipline, whatever it
    finds. *)
Lemma processNext_single_timer (now : Z) (w : Worker) :
  single_timer w → single_timer (final (processNext now w)).
Proof.
  intros Hs.
  destruct (isRunning (SchedulerInstance w)) eqn:Hrun.
  - destruct (js_index (melody (SchedulerInstance w))
                (currentIndex (SchedulerInstance w))) as [task|] eqn:Htask.
    + destruct (processNext_emits now w task Hrun Htask)
        as (w' & Hw' & _ & _ & _ & _ & _ & Hto & Htm).
      rewrite Hw'. simpl. right.
      rewrite (single_timer_cleared w Hs) in Hto. simpl in Hto. eauto.
    + rewrite processNext_undefined_task by assumption. exact Hs.
  - rewrite processNext_idle by assumption. exact Hs.
Qed.

Lemma stop_no_timer (w : Worker) :
  single_timer w → timeouts (self (stop w)) = [].
Proof.
  intros Hs. unfold stop. simpl.
  pose proof (single_timer_cleared w Hs) as H.
  destruct (timer (SchedulerInstance w)); exact H.
Qed.

Lemma processNext_loop_inv (now : Z) (w : Worker) :
  single_timer w →
  (isRunning (SchedulerInstance w) = false →
   timer (SchedulerInstance w) = None ∧ timeouts (self w) = []) →
  loop_inv (final (processNext now w)).
Proof.
  intros Hs Hidle. split; [by apply processNext_single_timer|].
  destruct (isRunning (SchedulerInstance w)) eqn:Hrun.
  - destruct (js_index (melody (SchedulerInstance w))
                (currentIndex (SchedulerInstance w))) as [task|] eqn:Htask.
    + destruct (processNext_emits now w task Hrun Htask)
        as (w' & Hw' & _ & _ & Hr & _).
      rewrite Hw'. simpl. congruence.
    + rewrite processNext_undefined_task by assumption. simpl. congruence.
  - rewrite processNext_idle by assumption. simpl. auto.
Qed.

Lemma step_loop_inv (e : WorkerEvent) (w : Worker) :
  loop_inv w → loop_inv (step e w).
Proof.
  intros [Hs Hidle]. destruct e as [now dateNow m | now id]; simpl.
  - destruct m as [index| |[index|]| | | |]; simpl;
      try (split; assumption).
    + (* start *)
      unfold start. destruct (isRunning (SchedulerInstance w)) eqn:Hrun.
      * simpl. split; [assumption|]. intros; congruence.
      * destruct (Hidle eq_refl) as [Ht Hto].
        apply processNext_loop_inv; simpl.
        -- left. exact Hto.
        -- discriminate.
    + (* stop *)
      split.
      * left. by apply stop_no_timer.
      * intros _. split; [reflexivity|]. by apply stop_no_timer.
  - unfold fire. case_bool_decide as Hin; [|simpl; by split].
    destruct Hs as [Hnil | (id' & d & Hl & Ht)].
    { rewrite Hnil in Hin. simpl in Hin. by apply elem_of_nil in Hin. }
    rewrite Hl in Hin. simpl in Hin. apply list_elem_of_singleton in Hin. subst id'.
    apply processNext_loop_inv; simpl.
    + left. simpl. rewrite Hl. apply drop_timeout_single.
    + intros Hrun. destruct (Hidle Hrun) as [_ Hto]. rewrite Hto in Hl. discriminate.
Qed.

Lemma newWorker_loop_inv (m : list AudioTask) : loop_inv (newWorker m).
Proof. split; [by left | by intros _]. Qed.

Lemma run_loop_inv (es : list WorkerEvent) (w : Worker) :
  loop_inv w → loop_inv (run es w).
Proof.
  revert w. induction es as [|e es IH]; intros w Hw; simpl; [exact Hw|].
  apply IH. by apply step_loop_inv.
Qed.

Lemma single_timer_length (w : Worker) :
  single_timer w → (length (timeouts (self w)) <= 1)%nat.
Proof.
  intros [H | (id & d & H & _)]; rewrite H; simpl; lia.
Qed.

End AudioWorkerFacts.

Module JitterWorkerFacts.
Import JitterWorker.

Lemma jitter_processNext_emits (now r : Z) (w : Worker) (task : AudioTask) :
  isRunning (SchedulerInstance w) = true →
  js_index (melody (SchedulerInstance w)) (currentIndex (SchedulerInstance w)) = Some task →
  ∃ w', processNext now r w = Normal w' ∧
    isRunning (SchedulerInstance w') = true ∧
    lastExecutionTime (SchedulerInstance w') = now ∧
    (∃ d, timeouts (self w') =
            timeouts (self w) ++ [mkTimeout (nextTimeoutId (self w)) d]) ∧
    timer (SchedulerInstance w') = Some (nextTimeoutId (self w)).
Proof.
  intros Hrun Htask. unfold processNext. rewrite Hrun, Htask. simpl.
  eexists. split; [reflexivity|]. simpl. repeat split; eauto.
Qed.

(** Without a pending wake-up at its entry the emission step leaves at
    most its own. *)
Lemma jitter_processNext_single_timer (now r : Z) (w : Worker) :
  timeouts (self w) = [] → single_timer (final (processNext now r w)).
Proof.
  intros Hnil.
  destruct (isRunning (SchedulerInstance w)) eqn:Hrun.
  - destruct (js_index (melody (SchedulerInstance w))
                (currentIndex (SchedulerInstance w))) as [task|] eqn:Htask.
    + destruct (jitter_processNext_emits now r w task Hrun Htask)
        as (w' & Hw' & Hr & _ & (d & Hto) & Htm).
      rewrite Hw'. simpl. right. split; [exact Hr|].
      rewrite Hnil in Hto. simpl in Hto. eauto.
    + unfold processNext. rewrite Hrun, Htask. simpl. by left.
  - unfold processNext. rewrite Hrun. simpl. by left.
Qed.

Lemma jitter_step_single_timer (e : WorkerEvent) (w : Worker) :
  single_timer w → single_timer (step e w).
Proof.
  intros Hs. destruct e as [now dateNow r m | now r id]; simpl.
  - destruct m as [index| |[index|]|mode| | |]; simpl; try assumption.
    + (* start: only an idle scheduler reaches the emission step *)
      unfold start. destruct (isRunning (SchedulerInstance w)) eqn:Hrun; [exact Hs|].
      apply jitter_processNext_single_timer. simpl.
      destruct Hs as [Hnil | [Hr _]]; [exact Hnil | congruence].
    + (* stop *)
      left. unfold stop. simpl.
      destruct Hs as [Hnil | (_ & id & d & Hl & Ht)].
      * destruct (timer _); simpl; rewrite Hnil; reflexivity.
      * rewrite Ht. simpl. rewrite Hl. apply drop_timeout_single.
  - unfold fire. case_bool_decide as Hin; [|exact Hs].
    destruct Hs as [Hnil | (_ & id' & d & Hl & Ht)].
    { rewrite Hnil in Hin. simpl in Hin. by apply elem_of_nil in Hin. }
    rewrite Hl in Hin. simpl in Hin. apply list_elem_of_singleton in Hin. subst id'.
    apply jitter_processNext_single_timer. simpl. rewrite Hl. apply drop_timeout_single.
Qed.

Lemma jitter_run_single_timer (es : list WorkerEvent) (w : Worker) :
  single_timer w → single_timer (run es w).
Proof.
  revert w. induction es as [|e es IH]; intros w Hw; simpl; [exact Hw|].
  apply IH. by apply jitter_step_single_timer.
Qed.

Lemma jitter_single_timer_length (w : Worker) :
  single_timer w → (length (timeouts (self w)) <= 1)%nat.
Proof.
  intros [H | (_ & id & d & H & _)]; rewrite H; simpl; lia.
Qed.

End JitterWorkerFacts.

(** ** The index carried by an emitted event *)

Module EmittedIndex.
Import AudioWorker AudioWorkerFacts.

(** C1, as stated, fails on the scenario: started at index 0, the first
    event is play_note with currentIndex 0 and the second is sync_state
    with currentIndex 1, not 1 and 0. *)
Lemma scenario_events_carry_pre_advance_index :
  let w1 := step (Message 0 0 (Protocol.start (Some 0))) (newWorker scenario) in
  let w2 := step (TimeoutFires 1000 1) w1 in
  outbox (self w2) = [play_note 440 1000 1 0 0; sync_state 1] ∧
  msg_currentIndex <$> outbox (self w2) ≠ [Some 1; Some 0].
Proof. split; [reflexivity | discriminate]. Qed.

(** C1 (amended): an emission step at position i of a sequence of length
    L posts exactly one event, play_note for a note and sync_state for a
    rest, whose currentIndex is i, the position of the task being emitted;
    only the scheduler's own currentIndex becomes (i+1) mod L. *)
Theorem emitted_event_carries_position_of_its_task
    (now : Z) (w : Worker) (task : AudioTask) :
  isRunning (SchedulerInstance w) = true →
  js_index (melody (SchedulerInstance w)) (currentIndex (SchedulerInstance w)) = Some task →
  let i := currentIndex (SchedulerInstance w) in
  let L := Z.of_nat (length (melody (SchedulerInstance w))) in
  ∃ w' ev, processNext now w = Normal w' ∧
    outbox (self w') = outbox (self w) ++ [ev] ∧
    msg_currentIndex ev = Some i ∧
    is_play_note ev = negb (isRest task) ∧
    is_sync_state ev = isRest task ∧
    currentIndex (SchedulerInstance w') = (i + 1) mod L ∧
    0 <= currentIndex (SchedulerInstance w') < L.
Proof.
  intros Hrun Htask i L.
  destruct (processNext_emits now w task Hrun Htask)
    as (w' & Hw' & Hout & Hidx & _).
  exists w', (emission now i task).
  pose proof (js_index_Some _ _ _ Htask) as Hrange.
  destruct (rem_succ_in_range i L Hrange) as [Hrem Hbound].
  split; [exact Hw'|]. split; [exact Hout|].
  unfold emission. fold i L in Hidx.
  destruct (isRest task); simpl; rewrite Hidx;
    repeat split; try reflexivity; try exact Hrem; lia.
Qed.

Lemma emitted_event_carries_position_of_its_task_witness :
  let w := {| SchedulerInstance := start_assign 0 0 (newScheduler scenario);
              self := emptyScope |} in
  ∃ w' ev, processNext 0 w = Normal w' ∧
    outbox (self w') = [] ++ [ev] ∧
    msg_currentIndex ev = Some 0 ∧
    is_play_note ev = true ∧
    is_sync_state ev = false ∧
    currentIndex (SchedulerInstance w') = (0 + 1) mod 2 ∧
    0 <= currentIndex (SchedulerInstance w') < 2.
Proof.
  intros w.
  exact (emitted_event_carries_position_of_its_task 0 w
           (newAudioTask 440 1000 (Some 1) None) eq_refl eq_refl).
Defined.

End EmittedIndex.

(** ** Resume index of start and sync *)

Module ResumeIndex.
Import AudioWorker AudioWorkerFacts.

(** C2, as stated, fails for a negative index: [%] keeps the sign of the
    dividend, so start(-1) and sync(-1) on the 11-entry melody leave
    currentIndex at -1, where the mathematical residue is 10. *)
Lemma negative_index_leaves_the_range :
  let w1 := step (Message 0 0 (Protocol.start (Some (-1)))) (newWorker theMelody) in
  let w2 := step (Message 0 0 (sync (Some (-1)))) (newWorker theMelody) in
  currentIndex (SchedulerInstance w1) = -1 ∧
  currentIndex (SchedulerInstance w2) = -1 ∧
  (-1) mod 11 = 10 ∧
  ¬ index_in_range (SchedulerInstance w1) ∧
  ¬ index_in_range (SchedulerInstance w2).
Proof.
  intros w1 w2. repeat split; try reflexivity;
    intros [H _]; vm_compute in H; by apply H.
Qed.

(** C2 (amended): for every resumeIndex >= 0, resumeIndex >=
    sequenceLength included, start(resumeIndex) on an idle scheduler sets
    the position to resumeIndex mod sequenceLength before its first
    emission, that emission is the task at this position, and
    0 <= currentIndex < sequenceLength holds before and after it; the
    sync(index) message sets currentIndex to index mod sequenceLength,
    in range, for every index >= 0. *)
Theorem start_and_sync_wrap_the_index
    (now dateNow r : Z) (w : Worker) :
  melody (SchedulerInstance w) ≠ [] →
  0 <= r →
  let s := SchedulerInstance w in
  let L := Z.of_nat (length (melody s)) in
  (isRunning s = false →
     currentIndex (start_assign now r s) = r mod L ∧
     index_in_range (start_assign now r s) ∧
     ∃ task w', js_index (melody s) (r mod L) = Some task ∧
       onmessage now dateNow (Protocol.start (Some r)) w = Normal w' ∧
       outbox (self w') = outbox (self w) ++ [emission now (r mod L) task] ∧
       index_in_range (SchedulerInstance w')) ∧
  (∃ w', onmessage now dateNow (sync (Some r)) w = Normal w' ∧
     currentIndex (SchedulerInstance w') = r mod L ∧
     index_in_range (SchedulerInstance w')).
Proof.
  intros Hne Hr s L.
  assert (HL : 0 < L).
  { subst L s. destruct (melody (SchedulerInstance w)); [done | simpl; lia]. }
  assert (Hrem : Z.rem r L = r mod L) by (apply Z.rem_mod_nonneg; lia).
  assert (Hbound : 0 <= r mod L < L) by (apply Z.mod_pos_bound; lia).
  split.
  - intros Hidle.
    assert (Hidx : currentIndex (start_assign now r s) = r mod L) by exact Hrem.
    split; [exact Hidx|]. split.
    { unfold index_in_range. rewrite Hidx. exact Hbound. }
    destruct (js_index_is_Some (melody s) (r mod L) Hbound) as [task Htask].
    set (w0 := {| SchedulerInstance := start_assign now r s; self := self w |}).
    assert (Htask0 : js_index (melody (SchedulerInstance w0))
                       (currentIndex (SchedulerInstance w0)) = Some task).
    { simpl. fold L. rewrite Hrem. exact Htask. }
    destruct (processNext_emits now w0 task eq_refl Htask0)
      as (w' & Hw' & Hout & Hi' & _ & Hm' & _).
    exists task, w'. split; [exact Htask|]. split.
    { simpl. unfold start. fold s. rewrite Hidle. exact Hw'. }
    split.
    { rewrite Hout. simpl. fold L. rewrite Hrem. reflexivity. }
    unfold index_in_range. rewrite Hi', Hm'.
    change (0 <= Z.rem (Z.rem r L + 1) L < L). rewrite Hrem.
    apply rem_succ_in_range. exact Hbound.
  - eexists. split; [reflexivity|]. split; [exact Hrem|].
    unfold index_in_range. change (0 <= Z.rem r L < L).
    rewrite Hrem. exact Hbound.
Qed.

Lemma start_and_sync_wrap_the_index_witness :
  let w := newWorker theMelody in
  (isRunning (SchedulerInstance w) = false →
     currentIndex (start_assign 0 25 (SchedulerInstance w)) = 25 mod 11 ∧
     index_in_range (start_assign 0 25 (SchedulerInstance w)) ∧
     ∃ task w', js_index theMelody (25 mod 11) = Some task ∧
       onmessage 0 0 (Protocol.start (Some 25)) w = Normal w' ∧
       outbox (self w') = [] ++ [emission 0 (25 mod 11) task] ∧
       index_in_range (SchedulerInstance w')) ∧
  (∃ w', onmessage 0 0 (sync (Some 25)) w = Normal w' ∧
     currentIndex (SchedulerInstance w') = 25 mod 11 ∧
     index_in_range (SchedulerInstance w')).
Proof.
  intros w.
  apply (start_and_sync_wrap_the_index 0 0 25 w); [discriminate | lia].
Defined.

End ResumeIndex.

(** ** The reference clock over runs without stall *)

Module DriftCorrection.
Import AudioWorker AudioWorkerFacts ClockArithmetic.
Import (notations) PrimFloat.
#[local] Set Warnings "-inexact-float".

(** C3, as stated, fails on the copy of the worker in part_002: its delay,
    duration + jitter, is never negative, yet every step stores the observed
    time in lastExecutionTime.  Started at 0 ms with the second step at
    1407 ms, two tasks of 1400 ms each are emitted and lastExecutionTime
    moves by 1407, not by 2800. *)
Lemma jitter_worker_clock_follows_observed_time :
  let w0 := JitterWorker.newWorker JitterWorker.theMelody in
  let w1 := JitterWorker.step (JitterWorker.Message 0 0 7 (Protocol.start (Some 0))) w0 in
  let w2 := JitterWorker.step (JitterWorker.TimeoutFires 1407 3 1) w1 in
  outbox (JitterWorker.self w2)
    = [play_note 329.63 1400 1 0 0; play_note 392.00 1400 2 1407 1] ∧
  delay <$> timeouts (JitterWorker.self w1) = [1407] ∧
  delay <$> timeouts (JitterWorker.self w2) = [1403] ∧
  JitterWorker.lastExecutionTime (JitterWorker.SchedulerInstance w2)
    - JitterWorker.lastExecutionTime (JitterWorker.SchedulerInstance w0) = 1407 ∧
  JitterWorker.lastExecutionTime (JitterWorker.SchedulerInstance w2)
    - JitterWorker.lastExecutionTime (JitterWorker.SchedulerInstance w0)
    ≠ 1400 + 1400.
Proof.
  intros w0 w1 w2. repeat split; try reflexivity.
  vm_compute. discriminate.
Qed.

Lemma position_after (i k L : Z) :
  0 <= i < L → 0 <= k → ((i + 1) mod L + k) mod L = (i + (k + 1)) mod L.
Proof.
  intros Hi Hk. rewrite Zplus_mod_idemp_l.
  replace (i + 1 + k) with (i + (k + 1)) by lia. reflexivity.
Qed.

(** On whole milliseconds the sums are exact. *)
Lemma whole_milliseconds_accumulate
    (nows : list Z) (w : Worker) :
  isRunning (SchedulerInstance w) = true →
  no_stall nows w = true →
  let s := SchedulerInstance w in
  let L := Z.of_nat (length (melody s)) in
  lastExecutionTime (SchedulerInstance (emissions nows w)) - lastExecutionTime s
    = sum_durations (emitted_tasks nows w) ∧
  length (emitted_tasks nows w) = length nows ∧
  (∀ (k : nat) task, emitted_tasks nows w !! k = Some task →
     js_index (melody s) ((currentIndex s + Z.of_nat k) mod L) = Some task).
Proof.
  revert w. induction nows as [|now rest IH]; intros w Hrun Hns s L.
  - simpl. split; [subst s; lia|]. split; [reflexivity|]. intros k task Hk. by rewrite lookup_nil in Hk.
  - simpl in Hns. simpl.
    destruct (js_index (melody (SchedulerInstance w))
                (currentIndex (SchedulerInstance w))) as [task|] eqn:Htask;
      [|discriminate].
    apply andb_prop in Hns as [Hd Hns].
    apply Z.leb_le in Hd.
    destruct (processNext_emits now w task Hrun Htask)
      as (w1 & Hw1 & _ & Hi1 & Hr1 & Hm1 & Hl1 & _).
    rewrite Hw1 in *. simpl in *.
    destruct (Z.ltb_spec (nextDelay now (SchedulerInstance w) task) 0) as [?|_]; [lia|].
    destruct (IH w1 Hr1 Hns) as (Hsum & Hlen & Hpos).
    pose proof (js_index_Some _ _ _ Htask) as Hrange. fold s L in Hrange.
    split; [|split].
    + rewrite Hl1 in Hsum. subst s. unfold sum_durations in *. simpl. lia.
    + rewrite Hlen. reflexivity.
    + intros [|k] task' Hk; simpl in Hk.
      * injection Hk as <-. rewrite Z.add_0_r.
        rewrite Z.mod_small by exact Hrange. exact Htask.
      * apply Hpos in Hk. rewrite Hm1, Hi1 in Hk. fold s L in Hk.
        destruct (rem_succ_in_range _ _ Hrange) as [Hrem _].
        rewrite Hrem in Hk.
        rewrite position_after in Hk by lia.
        replace (Z.of_nat (S k)) with (Z.of_nat k + 1) by lia. exact Hk.
Qed.

Lemma emissions_follow_the_reference_clock (nows : list Z) (w : Worker) :
  isRunning (SchedulerInstance w) = true →
  no_stall nows w = true →
  let steps := zip nows (emitted_tasks nows w) in
  lastExecutionTime (SchedulerInstance (emissions nows w))
    = reference_clock steps (lastExecutionTime (SchedulerInstance w)) ∧
  never_stalls steps (lastExecutionTime (SchedulerInstance w)) = true.
Proof.
  revert w. induction nows as [|now rest IH]; intros w Hrun Hns; [by split|].
  cbn [no_stall emitted_tasks emissions] in *.
  destruct (js_index (melody (SchedulerInstance w)) (currentIndex (SchedulerInstance w)))
    as [task|] eqn:Htask; [|discriminate].
  apply andb_prop in Hns as [Hdelay Hns]. apply Z.leb_le in Hdelay.
  destruct (processNext_emits now w task Hrun Htask)
    as (w1 & Hw1 & _ & _ & Hrun1 & _ & Hlast & _).
  rewrite Hw1 in *. cbn [final] in *.
  destruct (IH w1 Hrun1 Hns) as [Hclock Hnever].
  assert (Hstep : (correct_drift
                     (lastExecutionTime (SchedulerInstance w)) now task).2
                  = lastExecutionTime (SchedulerInstance w1)).
  { rewrite Hlast. unfold correct_drift, nextDelay. cbn.
    destruct (_ <? 0); reflexivity. }
  cbn [zip zip_with reference_clock never_stalls].
  rewrite Hstep. split; [exact Hclock|].
  apply andb_true_intro. split; [|exact Hnever].
  unfold nextDelay in Hdelay. cbn. apply negb_true_iff, Z.ltb_ge. exact Hdelay.
Qed.

(** In any arithmetic the steps that do not stall add the durations to the
    reference clock one after the other; the clock readings play no part. *)
Lemma reference_clock_adds_durations {num : Type} {arithmetic : Arithmetic num}
    (steps : list (num * AudioTask)) (t0 : num) :
  never_stalls steps t0 = true →
  reference_clock steps t0
    = foldl (fun t step =>
               num_add t (num_of_ms (duration step.2)))
            t0 steps.
Proof.
  revert t0. induction steps as [|[now task] rest IH]; intros t0 Hns; [reflexivity|].
  cbn [never_stalls reference_clock foldl snd] in *.
  apply andb_prop in Hns as [Hdelay Hns]. apply negb_true_iff in Hdelay.
  unfold correct_drift in *. rewrite Hdelay in *. cbn [snd] in *.
  by apply IH.
Qed.

(** In binary64 a sum is rounded: started at 48.2 ms, the first step of
    the melody (2000 ms) does not stall and moves lastExecutionTime by
    1999.9999999999998. *)
Lemma binary64_sum_is_rounded :
  let t0 := 48.2%float in
  let step := (t0, newAudioTask 392.00 2000 (Some 1) None) in
  never_stalls [step] t0 = true ∧
  num_sub (reference_clock [step] t0) t0
    = 1999.9999999999998%float ∧
  PrimFloat.eqb
    (num_sub (reference_clock [step] t0) t0)
    (num_of_ms 2000) = false.
Proof. cbv zeta. repeat split; vm_compute; reflexivity. Qed.

(** C3 (amended): in src/audio-worker.js, over any N consecutive emission
    steps none of which computes a negative delay, lastExecutionTime is the
    result of adding the nominal durations of the N tasks emitted, the tasks
    at positions i, i+1, ... modulo the sequence length, rests and notes
    alike, one after the other to its initial value, whatever the clock
    readings of the steps are.  On whole milliseconds the additions are exact
    and lastExecutionTime grows by exactly the sum of the durations; in
    binary64 each addition is rounded, and from a fractional reading the
    difference can miss the sum (from 48.2 by 2000: 1999.9999999999998). *)
Theorem reference_clock_accumulates_nominal_durations
    (nows : list Z) (w : Worker) :
  isRunning (SchedulerInstance w) = true →
  no_stall nows w = true →
  let s := SchedulerInstance w in
  let L := Z.of_nat (length (melody s)) in
  let tasks := emitted_tasks nows w in
  (lastExecutionTime (SchedulerInstance (emissions nows w)) - lastExecutionTime s
     = sum_durations tasks ∧
   length tasks = length nows ∧
   (∀ (k : nat) task, tasks !! k = Some task →
      js_index (melody s) ((currentIndex s + Z.of_nat k) mod L) = Some task)) ∧
  (lastExecutionTime (SchedulerInstance (emissions nows w))
     = reference_clock (zip nows tasks) (lastExecutionTime s) ∧
   never_stalls (zip nows tasks) (lastExecutionTime s) = true) ∧
  (∀ (num : Type) (arithmetic : Arithmetic num)
     (steps : list (num * AudioTask)) (t0 : num),
     never_stalls steps t0 = true →
     reference_clock steps t0
       = foldl (fun t step =>
                  num_add t (num_of_ms (duration step.2)))
               t0 steps) ∧
  (let t0 := 48.2%float in
   let step := (t0, newAudioTask 392.00 2000 (Some 1) None) in
   never_stalls [step] t0 = true ∧
   num_sub (reference_clock [step] t0) t0
     = 1999.9999999999998%float ∧
   PrimFloat.eqb
     (num_sub (reference_clock [step] t0) t0)
     (num_of_ms 2000) = false).
Proof.
  intros Hrun Hns s L tasks.
  split; [exact (whole_milliseconds_accumulate nows w Hrun Hns)|].
  split; [exact (emissions_follow_the_reference_clock nows w Hrun Hns)|].
  split; [intros num arithmetic steps t0; apply reference_clock_adds_durations|].
  exact binary64_sum_is_rounded.
Qed.

(** Three steps on the real melody, the timer firing 3 ms late, then on
    time, then 1 ms late. *)
Lemma reference_clock_accumulates_nominal_durations_witness :
  let w := {| SchedulerInstance := start_assign 0 9 (newScheduler theMelody);
              self := emptyScope |} in
  let nows := [0; 3003; 7000] in
  lastExecutionTime (SchedulerInstance (emissions nows w)) - 0
    = sum_durations (emitted_tasks nows w) ∧
  length (emitted_tasks nows w) = 3%nat ∧
  (∀ (k : nat) task, emitted_tasks nows w !! k = Some task →
     js_index theMelody ((9 + Z.of_nat k) mod 11) = Some task).
Proof.
  intros w nows.
  exact (proj1 (reference_clock_accumulates_nominal_durations nows w eq_refl eq_refl)).
Defined.

End DriftCorrection.

(** ** Recovery from a stall *)

Module StallRecovery.
Import AudioWorker AudioWorkerFacts.

(** C4: an emission step that computes a negative delay posts its one
    event, leaves exactly one pending wake-up, of delay 0, and resets
    lastExecutionTime to now.  The step this wake-up runs, at any time
    now', posts one more event and again leaves one wake-up, whose delay
    is counted from the reset clock, now + duration - now' (or 0 when that
    is negative): the tasks missed during the stall are not replayed. *)
Theorem stall_schedules_one_immediate_step
    (now : Z) (w : Worker) (task : AudioTask) :
  isRunning (SchedulerInstance w) = true →
  single_timer w →
  js_index (melody (SchedulerInstance w)) (currentIndex (SchedulerInstance w)) = Some task →
  nextDelay now (SchedulerInstance w) task < 0 →
  ∃ w1 id, processNext now w = Normal w1 ∧
    outbox (self w1) =
      outbox (self w) ++ [emission now (currentIndex (SchedulerInstance w)) task] ∧
    timeouts (self w1) = [mkTimeout id 0] ∧
    timer (SchedulerInstance w1) = Some id ∧
    lastExecutionTime (SchedulerInstance w1) = now ∧
    ∀ now', ∃ task2 w2 id2,
      js_index (melody (SchedulerInstance w1)) (currentIndex (SchedulerInstance w1))
        = Some task2 ∧
      fire now' id w1 = Normal w2 ∧
      outbox (self w2) =
        outbox (self w)
          ++ [emission now (currentIndex (SchedulerInstance w)) task;
              emission now' (currentIndex (SchedulerInstance w1)) task2] ∧
      timeouts (self w2) =
        [mkTimeout id2 (if now + duration task2 - now' <? 0 then 0
                        else now + duration task2 - now')].
Proof.
  intros Hrun Hs Htask Hlate.
  destruct (processNext_emits now w task Hrun Htask)
    as (w1 & Hw1 & Hout & Hidx & Hrun1 & Hmel & Hlast & Hto & Htm).
  rewrite (single_timer_cleared w Hs) in Hto.
  destruct (Z.ltb_spec (nextDelay now (SchedulerInstance w) task) 0) as [_|?]; [|lia].
  simpl in Hto.
  exists w1, (nextTimeoutId (self w)).
  repeat (split; [assumption|]).
  intros now'.
  pose proof (js_index_Some _ _ _ Htask) as Hrange.
  destruct (rem_succ_in_range _ _ Hrange) as [_ Hbound].
  rewrite <- Hidx, <- Hmel in Hbound.
  destruct (js_index_is_Some _ _ Hbound) as [task2 Htask2].
  set (w1' := {| SchedulerInstance := SchedulerInstance w1;
                 self := expire (nextTimeoutId (self w)) (self w1) |}).
  destruct (processNext_emits now' w1' task2 Hrun1 Htask2)
    as (w2 & Hw2 & Hout2 & _ & _ & _ & _ & Hto2 & _).
  exists task2, w2, (nextTimeoutId (self w1')).
  split; [exact Htask2|]. split.
  { unfold fire. rewrite Hto. simpl.
    rewrite bool_decide_eq_true_2 by (apply list_elem_of_singleton; reflexivity).
    exact Hw2. }
  split.
  { rewrite Hout2. simpl. rewrite Hout, <- app_assoc. reflexivity. }
  rewrite Hto2. simpl. rewrite Htm, Hto. rewrite drop_timeout_single. simpl.
  unfold nextDelay. rewrite Hlast. reflexivity.
Qed.

(** The real melody, started at 0 ms; the wake-up due at 2000 ms runs at
    60000 ms. *)
Lemma stall_schedules_one_immediate_step_witness :
  let started := final (start 0 0 (newWorker theMelody)) in
  let w := {| SchedulerInstance := SchedulerInstance started;
              self := expire 1 (self started) |} in
  ∃ w1 id, processNext 60000 w = Normal w1 ∧
    outbox (self w1) = outbox (self w) ++ [play_note 329.63 2000 1 60000 1] ∧
    timeouts (self w1) = [mkTimeout id 0] ∧
    timer (SchedulerInstance w1) = Some id ∧
    lastExecutionTime (SchedulerInstance w1) = 60000 ∧
    ∀ now', ∃ task2 w2 id2,
      js_index (melody (SchedulerInstance w1)) (currentIndex (SchedulerInstance w1))
        = Some task2 ∧
      fire now' id w1 = Normal w2 ∧
      outbox (self w2) =
        outbox (self w)
          ++ [play_note 329.63 2000 1 60000 1;
              emission now' (currentIndex (SchedulerInstance w1)) task2] ∧
      timeouts (self w2) =
        [mkTimeout id2 (if 60000 + duration task2 - now' <? 0 then 0
                        else 60000 + duration task2 - now')].
Proof.
  intros started w.
  apply (stall_schedules_one_immediate_step 60000 w
           (newAudioTask 329.63 2000 (Some 1) None)).
  - reflexivity.
  - left. reflexivity.
  - reflexivity.
  - vm_compute. reflexivity.
Defined.

End StallRecovery.

(** ** One pending wake-up *)

Module SingleWakeUp.

(** C5: after any sequence of control messages and timer firings, in
    either copy of the worker, at most one wake-up is pending, and it is
    the one this.timer holds; an emission step of src/audio-worker.js run
    in such a state cancels it before scheduling its own, and stop()
    leaves none. *)
Theorem at_most_one_pending_wake_up
    (es : list AudioWorker.WorkerEvent) (es' : list JitterWorker.WorkerEvent)
    (m : list AudioTask) (now : Z) :
  let w := AudioWorker.run es (AudioWorker.newWorker m) in
  let w' := JitterWorker.run es' (JitterWorker.newWorker m) in
  (length (timeouts (AudioWorker.self w)) <= 1)%nat ∧
  (∀ t, t ∈ timeouts (AudioWorker.self w) →
        AudioWorker.timer (AudioWorker.SchedulerInstance w) = Some (tid t)) ∧
  (length (timeouts (AudioWorker.self (final (AudioWorker.processNext now w)))) <= 1)%nat ∧
  timeouts (AudioWorker.self (AudioWorker.stop w)) = [] ∧
  (length (timeouts (JitterWorker.self w')) <= 1)%nat ∧
  (∀ t, t ∈ timeouts (JitterWorker.self w') →
        JitterWorker.timer (JitterWorker.SchedulerInstance w') = Some (tid t)) ∧
  timeouts (JitterWorker.self (JitterWorker.stop w')) = [].
Proof.
  intros w w'.
  assert (Hw : AudioWorker.single_timer w).
  { apply AudioWorkerFacts.run_loop_inv, AudioWorkerFacts.newWorker_loop_inv. }
  assert (Hw' : JitterWorker.single_timer w').
  { apply JitterWorkerFacts.jitter_run_single_timer. by left. }
  split; [by apply AudioWorkerFacts.single_timer_length|].
  split.
  { intros t Ht. destruct Hw as [Hnil | (id & d & Hl & Htm)].
    - rewrite Hnil in Ht. by apply elem_of_nil in Ht.
    - rewrite Hl in Ht. apply list_elem_of_singleton in Ht. subst t. exact Htm. }
  split.
  { apply AudioWorkerFacts.single_timer_length.
    by apply AudioWorkerFacts.processNext_single_timer. }
  split; [by apply AudioWorkerFacts.stop_no_timer|].
  split; [by apply JitterWorkerFacts.jitter_single_timer_length|].
  split.
  { intros t Ht. destruct Hw' as [Hnil | (_ & id & d & Hl & Htm)].
    - rewrite Hnil in Ht. by apply elem_of_nil in Ht.
    - rewrite Hl in Ht. apply list_elem_of_singleton in Ht. subst t. exact Htm. }
  unfold JitterWorker.stop. simpl.
  destruct Hw' as [Hnil | (_ & id & d & Hl & Htm)].
  - destruct (JitterWorker.timer _); simpl; rewrite Hnil; reflexivity.
  - rewrite Htm. simpl. rewrite Hl. apply drop_timeout_single.
Qed.

End SingleWakeUp.

(** ** stop *)

Module StopIdempotent.
Import AudioWorker AudioWorkerFacts.

(** C8: in every state the event loop can reach, stop() leaves the
    scheduler idle with no timer and no pending wake-up and keeps
    currentIndex and the posted messages; a second stop(), or a stop() on
    a scheduler that is already idle, changes nothing at all. *)
Theorem stop_is_idempotent (es : list WorkerEvent) (m : list AudioTask) :
  let w := run es (newWorker m) in
  stop (stop w) = stop w ∧
  (isRunning (SchedulerInstance w) = false → stop w = w) ∧
  isRunning (SchedulerInstance (stop w)) = false ∧
  timer (SchedulerInstance (stop w)) = None ∧
  timeouts (self (stop w)) = [] ∧
  currentIndex (SchedulerInstance (stop w)) = currentIndex (SchedulerInstance w) ∧
  outbox (self (stop w)) = outbox (self w).
Proof.
  intros w.
  assert (Hinv : loop_inv w) by apply run_loop_inv, newWorker_loop_inv.
  destruct Hinv as [Hs Hidle].
  split; [reflexivity|]. split.
  { intros Hrun. destruct (Hidle Hrun) as [Ht _].
    destruct w as [[r t i l mel] g]. simpl in *. subst. reflexivity. }
  split; [reflexivity|]. split; [reflexivity|].
  split; [by apply stop_no_timer|]. split; [reflexivity|].
  unfold stop. simpl. destruct (timer (SchedulerInstance w)); reflexivity.
Qed.

Lemma stop_is_idempotent_witness :
  let w := run [Message 0 0 (Protocol.start (Some 3)); Message 700 700 Protocol.stop]
               (newWorker theMelody) in
  isRunning (SchedulerInstance w) = false ∧ stop w = w ∧
  currentIndex (SchedulerInstance (stop w)) = 4.
Proof.
  intros w.
  destruct (stop_is_idempotent
              [Message 0 0 (Protocol.start (Some 3)); Message 700 700 Protocol.stop]
              theMelody) as (_ & Hidle & _ & _ & _ & Hidx & _).
  split; [reflexivity|]. split; [exact (Hidle eq_refl)|]. exact Hidx.
Defined.

End StopIdempotent.

(** * Properties of the main-thread bridge *)

Module WebAudioFacts.
Import WebAudio.

Lemma alter_at_length {A} (f : A → A) (l l' : list A) :
  alter f (length l) (l ++ l') = l ++ alter f 0%nat l'.
Proof.
  rewrite <- (Nat.add_0_r (length l)) at 1. apply alter_app_r.
Qed.

Lemma runs_forever_on_param (p : ParamName) (f : AudioParam → AudioParam) (n : AudioNode) :
  runs_forever (on_param p f n) = runs_forever n.
Proof. destruct n, p; reflexivity. Qed.

Lemma is_oscillator_on_param (p : ParamName) (f : AudioParam → AudioParam) (n : AudioNode) :
  is_oscillator (on_param p f n) = is_oscillator n.
Proof. destruct n, p; reflexivity. Qed.

Lemma filter_alter_length {A} (P : A → bool) (g : A → A) (k : nat) (l : list A) :
  (∀ x, P (g x) = P x) →
  length (List.filter P (alter g k l)) = length (List.filter P l).
Proof.
  intros Hg. revert k. induction l as [|x l IH]; intros [|k]; simpl; try reflexivity.
  - rewrite Hg. destruct (P x); reflexivity.
  - specialize (IH k). destruct (P x); simpl; [f_equal|]; exact IH.
Qed.

(** An update of a parameter of a gain node leaves every oscillator as it
    is. *)
Lemma alter_gain_keeps_oscillators (f : AudioParam → AudioParam) (k : nat)
    (l : list AudioNode) :
  List.filter is_oscillator (alter (on_param gain f) k l) = List.filter is_oscillator l.
Proof.
  revert k. induction l as [|x l IH]; intros [|k]; simpl; try reflexivity.
  - destruct x; reflexivity.
  - specialize (IH k). destruct (is_oscillator x); [f_equal|]; exact IH.
Qed.

End WebAudioFacts.

(** Runs the Web Audio calls of a block by value, so that each context is
    computed once before the next call uses it. *)
Ltac unfold_audio :=
  cbv beta iota zeta delta
    [SoundSystem.synthesize PianoBridge.synthesize SoundSystem.drone_layer
     SoundSystem.fade_in SoundSystem.fade_out
     WebAudio.createOscillator WebAudio.createGain WebAudio.createBiquadFilter
     WebAudio.add_node WebAudio.set_value WebAudio.param_setValueAtTime
     WebAudio.param_linearRampToValueAtTime WebAudio.param_exponentialRampToValueAtTime
     WebAudio.param_cancelScheduledValues WebAudio.update_param WebAudio.set_type
     WebAudio.set_lowpass WebAudio.start_osc WebAudio.stop_osc WebAudio.connect
     WebAudio.with_nodes WebAudio.schedule
     WebAudio.nodes WebAudio.currentTime WebAudio.state WebAudio.connections
     WebAudio.count_running_forever WebAudio.oscillators].

(** Moves every update of a freshly created node past the nodes that
    existed before. *)
Ltac push_alter :=
  repeat (first
    [ rewrite length_app
    | rewrite <- app_assoc
    | rewrite <- Nat.add_assoc
    | rewrite alter_app_r
    | rewrite WebAudioFacts.alter_at_length
    | progress cbn [length Nat.add app alter list_alter WebAudio.on_param] ]).

Module SoundSystemFacts.
Import WebAudio WebAudioFacts SoundSystem.

Lemma synthesize_new_nodes (note : Q) (d p : Z) (ag : nat) (ctx : AudioContext) :
  ∃ new, nodes (synthesize note d p ag ctx) = nodes ctx ++ new ∧
    omap started_at new = [(currentTime ctx + 0.05)%Q; (currentTime ctx + 0.05)%Q].
Proof.
  unfold_audio. push_alter.
  eexists. split; reflexivity.
Qed.

Lemma piano_synthesize_new_nodes (r note : Q) (d p : Z) (ag : nat) (ctx : AudioContext) :
  ∃ new, nodes (PianoBridge.synthesize r note d p ag ctx) = nodes ctx ++ new ∧
    omap started_at new = [(currentTime ctx + 0.05)%Q; (currentTime ctx + 0.05)%Q].
Proof.
  unfold_audio. push_alter.
  eexists. split; reflexivity.
Qed.

Lemma drone_layer_nodes (ag : nat) (ctx : AudioContext) :
  nodes (drone_layer ag ctx) =
    nodes ctx ++
      [ OscillatorNode triangle (mkParam 65.41 []) (mkParam 0 []) (Some 0%Q) None;
        OscillatorNode sine (mkParam 98.0 []) (mkParam 0 []) (Some 0%Q) None;
        GainNode (mkParam 0.12 []);
        BiquadFilterNode true (mkParam 520 []) (mkParam 0.4 []) ].
Proof.
  unfold_audio. push_alter. reflexivity.
Qed.

Lemma count_fade_in (ag : nat) (ctx : AudioContext) :
  count_running_forever (fade_in ag ctx) = count_running_forever ctx.
Proof.
  unfold_audio.
  rewrite !filter_alter_length by apply runs_forever_on_param. reflexivity.
Qed.

Lemma count_fade_out (v : Q) (ag : nat) (ctx : AudioContext) :
  count_running_forever (fade_out v ag ctx) = count_running_forever ctx.
Proof.
  unfold_audio.
  rewrite !filter_alter_length by apply runs_forever_on_param. reflexivity.
Qed.

Lemma oscillators_fade_out (v : Q) (ag : nat) (ctx : AudioContext) :
  oscillators (fade_out v ag ctx) = oscillators ctx.
Proof.
  unfold_audio.
  rewrite !alter_gain_keeps_oscillators. reflexivity.
Qed.

Lemma connections_fade_out (v : Q) (ag : nat) (ctx : AudioContext) :
  connections (fade_out v ag ctx) = connections ctx.
Proof. reflexivity. Qed.

Lemma count_drone_layer (ag : nat) (ctx : AudioContext) :
  count_running_forever (drone_layer ag ctx) = (count_running_forever ctx + 2)%nat.
Proof.
  unfold count_running_forever. rewrite drone_layer_nodes.
  rewrite List.filter_app, length_app. reflexivity.
Qed.

(** [initContext] on a ready state: it returns normally, with a context
    and its ambient bus, and creates no oscillator. *)
Lemma initContext_ready (st : State) :
  ready st →
  ∃ st' ctx ag, initContext st = Normal st' ∧
    audioCtx st' = Some ctx ∧ ambientGain st' = Some ag ∧
    count_running_forever ctx = drones st ∧
    ambientStarted st' = ambientStarted st.
Proof.
  unfold ready, initContext, drones.
  destruct (audioCtx st) as [ctx|] eqn:Hctx.
  - intros [ag Hag]. simpl. rewrite Hctx.
    destruct (state ctx); eauto 10.
  - intros Hcap. rewrite Hcap. simpl.
    destruct (userActivated (page st)); simpl; eauto 10.
Qed.

Ltac simpl_state :=
  cbn [audioCtx masterGain ambientGain ambientStarted ambientTimer audioWorker page
       with_audioCtx with_page with_ambientStarted with_ambientTimer with_audioWorker].

(** The cases of [stopAmbient] on the four variables it tests. *)
Ltac stopAmbient_cases st :=
  let Hw := fresh "Hw" in let Ht := fresh "Ht" in
  let Hc := fresh "Hc" in let Hg := fresh "Hg" in
  destruct (audioWorker st) as [?k|] eqn:Hw;
  destruct (ambientTimer st) as [?id|] eqn:Ht;
  destruct (audioCtx st) as [?ctx|] eqn:Hc;
  destruct (ambientGain st) as [?ag|] eqn:Hg;
  unfold stopAmbient;
  repeat (progress (simpl_state; rewrite ?Hw, ?Ht, ?Hc, ?Hg)).

Lemma stopAmbient_audio (v : Q) (st : State) :
  audioCtx (stopAmbient v st) =
    match audioCtx st, ambientGain st with
    | Some ctx, Some ag => Some (fade_out v ag ctx)
    | c, _ => c
    end ∧
  ambientGain (stopAmbient v st) = ambientGain st.
Proof. stopAmbient_cases st; split; reflexivity. Qed.

Lemma stopAmbient_drones (v : Q) (st : State) :
  drones (stopAmbient v st) = drones st.
Proof.
  unfold drones. destruct (stopAmbient_audio v st) as [-> _].
  destruct (audioCtx st), (ambientGain st); try reflexivity. apply count_fade_out.
Qed.

Lemma start_worker_audio (st : State) :
  audioCtx (start_worker st) = audioCtx st ∧
  ambientGain (start_worker st) = ambientGain st ∧
  ambientStarted (start_worker st) = ambientStarted st.
Proof.
  unfold start_worker, setupLegacyInterval.
  destruct (workerSupport (page st)); simpl; auto.
Qed.

Lemma startAmbient_adds_two_drones (st : State) :
  ready st → ambientStarted st = false →
  ∃ st', startAmbient st = Normal st' ∧
    drones st' = (drones st + 2)%nat ∧
    is_Some (audioCtx st') ∧ is_Some (ambientGain st') ∧
    ambientStarted st' = true.
Proof.
  intros Hready Hidle.
  destruct (initContext_ready st Hready) as (st1 & ctx & ag & Hinit & Hctx & Hag & Hcnt & Hst).
  unfold startAmbient. rewrite Hinit. simpl. rewrite Hctx, Hag, Hst, Hidle.
  eexists. split; [reflexivity|].
  match goal with |- context [start_worker ?s] =>
    destruct (start_worker_audio s) as (Ha & Hg & Hs) end.
  unfold drones. rewrite Ha, Hg, Hs. simpl.
  rewrite count_drone_layer, count_fade_in, Hcnt.
  repeat split; eauto.
Qed.

Lemma stopAmbient_ready (v : Q) (st : State) :
  is_Some (audioCtx st) → is_Some (ambientGain st) →
  ready (stopAmbient v st) ∧ ambientStarted (stopAmbient v st) = false.
Proof.
  intros [ctx Hctx] [ag Hag]. unfold ready.
  destruct (stopAmbient_audio v st) as [-> ->]. rewrite Hctx, Hag.
  split; [eauto | reflexivity].
Qed.

Lemma cycles_accumulate (vs : list Q) (st : State) :
  ready st → ambientStarted st = false →
  drones (cycles vs st) = (drones st + 2 * length vs)%nat.
Proof.
  revert st. induction vs as [|v vs IH]; intros st Hready Hidle; simpl.
  - lia.
  - destruct (startAmbient_adds_two_drones st Hready Hidle)
      as (st1 & Hstart & Hcnt & Hc & Hg & _).
    rewrite Hstart. simpl.
    destruct (stopAmbient_ready v st1 Hc Hg) as [Hr Hi].
    rewrite (IH _ Hr Hi), stopAmbient_drones, Hcnt. lia.
Qed.

End SoundSystemFacts.

(** The handler of the worker is only ever installed on top of an audio
    context. *)
Module BridgeInvariant.
Import WebAudio SoundSystem SoundSystemFacts.

Lemma extends_refl (st : State) : extends st st.
Proof. by repeat split. Qed.

Lemma extends_trans (a b c : State) : extends a b → extends b c → extends a c.
Proof.
  intros (Hw1 & Hc1 & Hg1) (Hw2 & Hc2 & Hg2). repeat split.
  - by rewrite Hw2.
  - auto.
  - auto.
Qed.

Lemma with_audioCtx_extends (c : AudioContext) (st : State) :
  extends st (with_audioCtx c st).
Proof. repeat split; simpl; eauto. Qed.

Lemma with_page_extends (p : Page) (st : State) : extends st (with_page p st).
Proof. by repeat split. Qed.

Lemma createTone_extends (f : Q) (ty : OscillatorType) (t d v : Q) (dest : option nat)
    (st : State) :
  extends st (createTone f ty t d v dest st).
Proof.
  unfold createTone.
  destruct (audioCtx st) as [ctx|] eqn:Hctx; [|apply extends_refl].
  destruct dest as [k|]; [|apply extends_refl].
  destruct (Qle_bool d 0); [apply extends_refl|].
  cbv beta iota zeta delta [createOscillator createGain add_node].
  apply with_audioCtx_extends.
Qed.

Lemma createNote_extends (f t d v : Q) (dest : option nat) (st : State) :
  extends st (createNote f t d v dest st).
Proof.
  unfold createNote.
  destruct (audioCtx st) as [ctx|] eqn:Hctx; [|apply extends_refl].
  destruct dest as [k|]; [|apply extends_refl].
  cbv beta iota zeta delta [createOscillator createGain createBiquadFilter add_node].
  apply with_audioCtx_extends.
Qed.

Lemma initContext_extends (st : State) : extends st (final (initContext st)).
Proof.
  unfold initContext.
  destruct (audioCtx st) as [ctx|] eqn:Hctx.
  - cbn [and_then]. rewrite Hctx.
    destruct (state ctx); cbn [final];
      [apply with_audioCtx_extends | apply extends_refl].
  - destruct (hasAudioContext (page st)); cbn [and_then final]; [|apply extends_refl].
    destruct (userActivated (page st)); simpl; repeat split; simpl; eauto.
Qed.

Lemma and_then_extends (c : Completion State) (k : State → Completion State) (st : State) :
  extends st (final c) → (∀ s, extends s (final (k s))) →
  extends st (final (and_then c k)).
Proof.
  intros Hc Hk. destruct c as [a|a]; cbn [and_then final] in *; [|exact Hc].
  eapply extends_trans; [exact Hc | apply Hk].
Qed.

Lemma sound_extends (tones : State → State) (st : State) :
  (∀ s, extends s (tones s)) → extends st (final (sound tones st)).
Proof.
  intros Ht. unfold sound. apply and_then_extends; [apply initContext_extends|].
  intros s. destruct (audioCtx s); cbn [final]; [apply Ht | apply extends_refl].
Qed.

(** A block of tones, last call first. *)
Ltac chain_tones :=
  cbv zeta;
  repeat (eapply extends_trans;
          [| first [apply createTone_extends | apply createNote_extends]]);
  apply extends_refl.

Lemma sounds_extend (type : string) (fn : Options → State → Completion State)
    (o : Options) (st : State) :
  sounds type = Some fn → extends st (final (fn o st)).
Proof.
  unfold sounds. intros H.
  repeat match type of H with
         | (if ?b then _ else _) = _ => destruct b
         end;
    try discriminate; injection H as <-;
    apply sound_extends; intros s; cbn -[createNote createTone]; chain_tones.
Qed.

Lemma play_extends (type : string) (options : option Options) (st : State) :
  extends st (final (play type options st)).
Proof.
  unfold play.
  assert (Hbody : extends st (final (play_body type (default (mkOptions None) options) st))).
  { unfold play_body. apply and_then_extends.
    - destruct (audioCtx st); [apply extends_refl | apply initContext_extends].
    - intros s. destruct (sounds type) as [fn|] eqn:Hfn; [by eapply sounds_extend|].
      destruct (inheritedFunction (page s) type) as [[|]|]; apply extends_refl. }
  destruct (play_body type (default (mkOptions None) options) st) as [a|a];
    cbn [try_catch final] in *; [exact Hbody|].
  eapply extends_trans; [exact Hbody | apply with_page_extends].
Qed.

Lemma onmessage_extends (now : Z) (data : WorkerMessage) (st : State) :
  extends st (final (onmessage now data st)).
Proof.
  unfold onmessage.
  set (st1 := match msg_currentIndex data with
              | Some i => with_page (setItem "ambient_melody_index" i (page st)) st
              | None => st
              end).
  assert (H1 : extends st st1).
  { subst st1. destruct (msg_currentIndex data);
      [apply with_page_extends | apply extends_refl]. }
  eapply extends_trans; [exact H1|].
  destruct data as [n d p ts j | j | s | ts s]; cbn [final]; try apply extends_refl.
  destruct (audioCtx st1) as [ctx|]; cbn [final]; [|apply extends_refl].
  destruct (is_stale now ts); cbn [final]; [apply with_page_extends|].
  destruct (ambientGain st1); cbn [final];
    [apply with_audioCtx_extends | apply extends_refl].
Qed.

Lemma interval_fires_extends (id : positive) (st : State) :
  extends st (interval_fires id st).
Proof.
  unfold interval_fires.
  destruct (List.find _ _) as [reg|]; [|apply extends_refl].
  destruct (audioCtx st) eqn:Hctx; [|apply extends_refl].
  eapply extends_trans; [|apply with_page_extends].
  unfold interval_callback. rewrite Hctx.
  destruct (MELODY_NOTES !! _); [|apply extends_refl].
  chain_tones.
Qed.

Lemma extends_keeps_invariant (st st' : State) :
  extends st st' → worker_has_audio st → worker_has_audio st'.
Proof.
  intros (Hw & Hc & Hg) Hinv Hworker. rewrite Hw in Hworker.
  destruct (Hinv Hworker). auto.
Qed.

Lemma startAmbient_invariant (st : State) :
  worker_has_audio st → worker_has_audio (final (startAmbient st)).
Proof.
  intros Hinv. unfold startAmbient.
  pose proof (initContext_extends st) as Hext.
  destruct (initContext st) as [st1|st1]; cbn [and_then final] in *;
    [|by eapply extends_keeps_invariant].
  pose proof (extends_keeps_invariant _ _ Hext Hinv) as Hinv1.
  destruct (audioCtx st1) as [ctx|] eqn:Hctx; [|exact Hinv1].
  destruct (ambientGain st1) as [ag|] eqn:Hag; [|exact Hinv1].
  destruct (ambientStarted st1); cbn [final]; [exact Hinv1|].
  intros _.
  match goal with |- context [start_worker ?s] =>
    destruct (start_worker_audio s) as (Ha & Hg & _) end.
  rewrite Ha, Hg. simpl_state. rewrite Hag. eauto.
Qed.

Lemma step_invariant (e : Event) (st : State) :
  worker_has_audio st → worker_has_audio (step e st).
Proof.
  intros Hinv. destruct e as [|v|type options|now data|id| |dt]; cbn [step].
  - by apply startAmbient_invariant.
  - intros [k Hk]. exfalso. revert Hk. stopAmbient_cases st; discriminate.
  - eapply extends_keeps_invariant; [apply play_extends | exact Hinv].
  - destruct (listening st); [|exact Hinv].
    eapply extends_keeps_invariant; [apply onmessage_extends | exact Hinv].
  - eapply extends_keeps_invariant; [apply interval_fires_extends | exact Hinv].
  - eapply extends_keeps_invariant; [apply with_page_extends | exact Hinv].
  - destruct (audioCtx st) as [ctx|] eqn:Hctx; [|exact Hinv].
    destruct (state ctx); [exact Hinv|].
    eapply extends_keeps_invariant; [apply with_audioCtx_extends | exact Hinv].
Qed.

Lemma run_invariant (es : list Event) (st : State) :
  worker_has_audio st → worker_has_audio (run es st).
Proof.
  revert st. induction es as [|e es IH]; intros st Hinv; simpl; [exact Hinv|].
  apply IH. by apply step_invariant.
Qed.

(** In every state the page can reach, a handler that is listening has the
    audio context and the ambient bus at hand. *)
Lemma listening_has_audio (es : list Event) (p : Page) :
  let st := run es (initial p) in
  listening st = true → is_Some (audioCtx st) ∧ is_Some (ambientGain st).
Proof.
  intros st Hl.
  assert (Hinv : worker_has_audio st).
  { apply run_invariant. intros [k Hk]. discriminate. }
  apply Hinv. unfold listening in Hl. destruct (audioWorker st); [eauto | discriminate].
Qed.

End BridgeInvariant.

(** ** The staleness policy of the two handlers *)

Module StalenessPolicy.
Import WebAudio SoundSystemFacts.

(** C6, as stated, fails in the variant that has the check: the test is
    guarded by the truthiness of the timestamp, so a note stamped 0 (the
    first reading of a coarse worker clock) that arrives when the page
    clock reads 1000 ms, more than 150 ms later, is synthesized: two
    oscillators are added to the two drones. *)
Lemma note_stamped_zero_is_played_however_late :
  let st := final (SoundSystem.startAmbient (SoundSystem.initial unlocked_page)) in
  let st' := final (SoundSystem.onmessage 1000 (play_note 392 2000 1 0 0) st) in
  (1000 - 0 > 150)%Z ∧
  (length ∘ oscillators) <$> SoundSystem.audioCtx st = Some 2%nat ∧
  (length ∘ oscillators) <$> SoundSystem.audioCtx st' = Some 4%nat ∧
  (omap started_at ∘ nodes) <$> SoundSystem.audioCtx st' = Some [0; 0; 0.05; 0.05]%Q.
Proof. intros st st'. repeat split; vm_compute; reflexivity. Qed.

(** C6 (amended): in every state the page can reach in which the worker's
    handler is listening, the audio context exists and the handler of
    src/sound.js drops a play_note event whose timestamp is not 0 and lies
    more than 150 ms before the handler's clock reading (the context is left
    as it was), and synthesizes every other one, a timestamp of 0 included;
    the handler of part_001 has no check and, given its context and ambient
    bus, synthesizes every play_note event.  Synthesizing adds nodes to the
    context, among them exactly two started oscillators, both starting
    0.05 s after the current audio time. *)
Theorem staleness_check_is_a_variant_knob
    (es : list SoundSystem.Event) (p : Page)
    (now : Z) (random note : Q) (duration priority timestamp idx : Z)
    (st2 : PianoBridge.State) :
  let st := SoundSystem.run es (SoundSystem.initial p) in
  let ev := play_note note duration priority timestamp idx in
  let played ctx c :=
    ∃ new, nodes c = nodes ctx ++ new ∧
           omap started_at new = [(currentTime ctx + 0.05)%Q; (currentTime ctx + 0.05)%Q] in
  SoundSystem.listening st = true →
  (∃ ctx, SoundSystem.audioCtx st = Some ctx ∧
     (timestamp ≠ 0 → now - timestamp > 150 →
        ∃ r, SoundSystem.onmessage now ev st = Normal r ∧
             SoundSystem.step (SoundSystem.FromWorker now ev) st = r ∧
             SoundSystem.audioCtx r = Some ctx) ∧
     (timestamp = 0 ∨ now - timestamp <= 150 →
        ∃ r c, SoundSystem.onmessage now ev st = Normal r ∧
               SoundSystem.step (SoundSystem.FromWorker now ev) st = r ∧
               SoundSystem.audioCtx r = Some c ∧ played ctx c)) ∧
  (∀ ctx2 ag2,
     PianoBridge.audioCtx st2 = Some ctx2 → PianoBridge.ambientGain st2 = Some ag2 →
     ∃ r c, PianoBridge.onmessage random ev st2 = Normal r ∧
            PianoBridge.audioCtx r = Some c ∧ played ctx2 c).
Proof.
  intros st ev played Hlisten.
  destruct (BridgeInvariant.listening_has_audio es p Hlisten) as [[ctx Hctx] [ag Hag]].
  fold st in Hctx, Hag.
  split.
  - exists ctx. split; [exact Hctx|]. split.
    + intros Hts Hold. unfold SoundSystem.step. rewrite Hlisten.
      unfold SoundSystem.onmessage. simpl. rewrite Hctx.
      unfold SoundSystem.is_stale.
      destruct (Z.eqb_spec timestamp 0) as [?|_]; [contradiction|].
      destruct (Z.ltb_spec 150 (now - timestamp)) as [_|?]; [|lia].
      simpl. eexists. split; [reflexivity|]. split; [reflexivity|]. exact Hctx.
    + intros Hfresh. unfold SoundSystem.step. rewrite Hlisten.
      unfold SoundSystem.onmessage. simpl. rewrite Hctx, Hag.
      assert (Hns : SoundSystem.is_stale now timestamp = false).
      { unfold SoundSystem.is_stale.
        destruct (Z.eqb_spec timestamp 0) as [?|Hne]; [reflexivity|].
        destruct (Z.ltb_spec 150 (now - timestamp)) as [?|_]; [|reflexivity].
        destruct Hfresh; [contradiction | lia]. }
      rewrite Hns. eexists _, _.
      split; [reflexivity|]. split; [reflexivity|]. split; [reflexivity|].
      apply synthesize_new_nodes.
  - intros ctx2 ag2 Hctx2 Hag2.
    unfold PianoBridge.onmessage. simpl. rewrite Hctx2, Hag2.
    eexists _, _. split; [reflexivity|]. split; [reflexivity|].
    apply piano_synthesize_new_nodes.
Qed.

(** The page after startAmbient; a note of the melody emitted when the
    worker clock read 5 ms is handled when the page clock reads 1000 ms. *)
Lemma staleness_check_is_a_variant_knob_witness :
  let st := SoundSystem.run [SoundSystem.StartAmbient] (SoundSystem.initial unlocked_page) in
  let ev := play_note 392 2000 1 5 0 in
  SoundSystem.listening st = true ∧
  ∃ ctx, SoundSystem.audioCtx st = Some ctx ∧
    ∃ r, SoundSystem.onmessage 1000 ev st = Normal r ∧
         SoundSystem.step (SoundSystem.FromWorker 1000 ev) st = r ∧
         SoundSystem.audioCtx r = Some ctx.
Proof.
  intros st ev.
  assert (Hlisten : SoundSystem.listening st = true) by (vm_compute; reflexivity).
  split; [exact Hlisten|].
  set (st2 := {| PianoBridge.audioCtx := None; PianoBridge.masterGain := None;
                 PianoBridge.sfxGain := None; PianoBridge.ambientGain := None;
                 PianoBridge.ambientStarted := false; PianoBridge.ambientTimer := None;
                 PianoBridge.audioWorker := None; PianoBridge.page := unlocked_page |}).
  destruct (staleness_check_is_a_variant_knob [SoundSystem.StartAmbient] unlocked_page
              1000 0.5 392 2000 1 5 0 st2 Hlisten) as [(ctx & Hctx & Hdrop & _) _].
  exists ctx. split; [exact Hctx|]. apply Hdrop; [discriminate | reflexivity].
Defined.

End StalenessPolicy.

(** ** Persistence of the position *)

Module Persistence.

(** C7: whenever the handler runs on a message that has a currentIndex
    field, play_note and sync_state alike, the stored
    ambient_melody_index is that index afterwards, in both copies of the
    handler and whatever else the handler then does; in particular for
    every event the scheduler emits, rests included, and for a play_note
    event that the staleness check then drops. *)
Theorem every_indexed_message_is_persisted
    (now : Z) (random : Q) (data : WorkerMessage) (i : Z)
    (st : SoundSystem.State) (st2 : PianoBridge.State) :
  msg_currentIndex data = Some i →
  sessionStorage (SoundSystem.page (final (SoundSystem.onmessage now data st)))
    !! "ambient_melody_index" = Some (pretty i) ∧
  sessionStorage (PianoBridge.page (final (PianoBridge.onmessage random data st2)))
    !! "ambient_melody_index" = Some (pretty i) ∧
  (∀ workerNow task,
     data = AudioWorker.emission workerNow i task →
     (isRest task = true → data = sync_state i) ∧
     sessionStorage (SoundSystem.page (final (SoundSystem.onmessage now data st)))
       !! "ambient_melody_index" = Some (pretty i)) ∧
  (∀ note duration priority timestamp,
     data = play_note note duration priority timestamp i →
     SoundSystem.is_stale now timestamp = true →
     is_Some (SoundSystem.audioCtx st) →
     SoundSystem.audioCtx (final (SoundSystem.onmessage now data st))
       = SoundSystem.audioCtx st ∧
     sessionStorage (SoundSystem.page (final (SoundSystem.onmessage now data st)))
       !! "ambient_melody_index" = Some (pretty i)).
Proof.
  intros Hidx.
  assert (H1 : sessionStorage (SoundSystem.page (final (SoundSystem.onmessage now data st)))
                 !! "ambient_melody_index" = Some (pretty i)).
  { unfold SoundSystem.onmessage. rewrite Hidx.
    destruct data as [n d p ts j | j | s | ts s]; simpl in *; try discriminate.
    - destruct (SoundSystem.audioCtx st); simpl; [|apply lookup_insert_eq].
      destruct (SoundSystem.is_stale now ts); simpl; [apply lookup_insert_eq|].
      destruct (SoundSystem.ambientGain st); simpl; apply lookup_insert_eq.
    - apply lookup_insert_eq. }
  split; [exact H1|]. split.
  { unfold PianoBridge.onmessage. rewrite Hidx.
    destruct data as [n d p ts j | j | s | ts s]; simpl in *; try discriminate.
    - destruct (PianoBridge.audioCtx st2); simpl; [|apply lookup_insert_eq].
      destruct (PianoBridge.ambientGain st2); simpl; apply lookup_insert_eq.
    - apply lookup_insert_eq. }
  split.
  { intros workerNow task Hd. split; [|exact H1].
    intros Hrest. rewrite Hd. unfold AudioWorker.emission. rewrite Hrest. reflexivity. }
  intros note duration priority timestamp Hd Hstale [ctx Hctx].
  split; [|exact H1].
  subst data. unfold SoundSystem.onmessage. simpl. rewrite Hctx, Hstale. simpl.
  exact Hctx.
Qed.

(** The rest at position 5 of the real melody, handled by both copies. *)
Lemma every_indexed_message_is_persisted_witness :
  let data := AudioWorker.emission 9000 5 (newAudioTask 0 1000 (Some 1) (Some true)) in
  let st := SoundSystem.initial unlocked_page in
  msg_currentIndex data = Some 5 ∧
  sessionStorage (SoundSystem.page (final (SoundSystem.onmessage 9100 data st)))
    !! "ambient_melody_index" = Some (pretty 5).
Proof.
  intros data st. split; [reflexivity|].
  set (st2 := {| PianoBridge.audioCtx := None; PianoBridge.masterGain := None;
                 PianoBridge.sfxGain := None; PianoBridge.ambientGain := None;
                 PianoBridge.ambientStarted := false; PianoBridge.ambientTimer := None;
                 PianoBridge.audioWorker := None; PianoBridge.page := unlocked_page |}).
  exact (proj1 (every_indexed_message_is_persisted 9100 0 data 5 st st2 eq_refl)).
Defined.

End Persistence.

(** ** Sounds before the audio graph exists *)

Module SilentFailure.
Import WebAudio SoundSystem.
Local Open Scope Q_scope.

Lemma play_never_throws (type : string) (options : option Options) (st : State) :
  threw (play type options st) = false.
Proof.
  unfold play, try_catch.
  destruct (play_body type (default (mkOptions None) options) st); reflexivity.
Qed.

(** Without Web Audio, [initContext] throws inside [play], whose catch
    block logs the error: nothing else changes, whatever the sound. *)
Lemma play_without_audio_only_warns (type : string) (options : option Options) (p : Page) :
  hasAudioContext p = false →
  play type options (initial p)
    = Normal (with_page (console_warn "Sound playback error:" p) (initial p)).
Proof.
  intros Hcap. unfold play, play_body, initContext. cbn. rewrite Hcap. reflexivity.
Qed.

(** With Web Audio, play('click') builds the bus graph and schedules its
    two tones on the master bus, gesture or not. *)
Lemma click_builds_the_graph (options : option Options) (p : Page) :
  hasAudioContext p = true →
  ∃ ctx, audioCtx (final (play "click" options (initial p))) = Some ctx ∧
    length (nodes ctx) = 6%nat ∧
    omap started_at (nodes ctx) = [0; 0.01] ∧
    Forall (fun n => runs_forever n = false) (nodes ctx) ∧
    connections ctx =
      [(0%nat, destination); (1%nat, node_input 0);
       (2%nat, node_input 3); (3%nat, node_input 0);
       (4%nat, node_input 5); (5%nat, node_input 0)].
Proof.
  destruct p as [cap act ws inh ss wk iv nid con]. simpl. intros ->.
  destruct act, options as [[[q|]]|]; vm_compute; eexists;
    (split; [reflexivity|]); (split; [reflexivity|]); (split; [reflexivity|]);
    (split; [|reflexivity]); repeat constructor.
Qed.

(** C9 (the claim as stated fails): on a page that has Web Audio and has
    had no gesture, play('click') is no silent no-op.  It builds the bus
    graph and starts two oscillators, at times 0 and 0.01 of the new
    context, through their gains into the master bus and the destination:
    the tones are scheduled and sound as soon as the context runs.  And
    createNote has no guard on the duration: with a duration of 0 it still
    adds an oscillator, a gain and a filter and starts the oscillator. *)
Lemma click_before_gesture_schedules_two_tones :
  let st := final (play "click" None (initial locked_page)) in
  (∃ ctx, audioCtx st = Some ctx ∧
     length (nodes ctx) = 6%nat ∧
     omap started_at (nodes ctx) = [0; 0.01] ∧
     connections ctx =
       [(0%nat, destination); (1%nat, node_input 0);
        (2%nat, node_input 3); (3%nat, node_input 0);
        (4%nat, node_input 5); (5%nat, node_input 0)]) ∧
  st ≠ initial locked_page ∧
  (∃ ctx, audioCtx (createNote 392.0 0 0 0.07 (masterGain st) st) = Some ctx ∧
     length (nodes ctx) = 9%nat ∧
     omap started_at (nodes ctx) = [0; 0.01; 0]).
Proof.
  cbv zeta. split; [|split].
  - vm_compute. eexists. repeat split; reflexivity.
  - vm_compute. discriminate.
  - vm_compute. eexists. repeat split; reflexivity.
Qed.

(** C9 (amended): no sound call throws to its caller, because the body of
    play runs inside try/catch, play('click') before any gesture included;
    createTone returns at once, leaving everything as it was, when the audio
    context or the destination bus is missing or the duration is not
    positive, and createNote when the context or the bus is missing; where
    the page has no Web Audio, play creates nothing and only logs the error;
    where it has, play('click') before the graph exists builds the graph
    itself and schedules its two tones, each with a stop time. *)
Theorem sound_before_initialization_never_throws
    (type : string) (options : option Options) (st : State) (p : Page)
    (freq : Q) (ty : OscillatorType) (startTime duration volume : Q) (dest : option nat) :
  (audioCtx st = None ∨ dest = None ∨ (duration <= 0)%Q →
     createTone freq ty startTime duration volume dest st = st) ∧
  (audioCtx st = None ∨ dest = None →
     createNote freq startTime duration volume dest st = st) ∧
  threw (play type options st) = false ∧
  threw (play "click" options (initial p)) = false ∧
  (hasAudioContext p = false →
     play type options (initial p)
       = Normal (with_page (console_warn "Sound playback error:" p) (initial p))) ∧
  (hasAudioContext p = true →
     ∃ ctx, audioCtx (final (play "click" options (initial p))) = Some ctx ∧
       length (nodes ctx) = 6%nat ∧
       omap started_at (nodes ctx) = [0; 0.01] ∧
       Forall (fun n => runs_forever n = false) (nodes ctx)).
Proof.
  split; [|split; [|split; [|split; [|split]]]].
  - intros H. unfold createTone.
    destruct (audioCtx st) as [ctx|]; [|reflexivity].
    destruct dest as [d|]; [|reflexivity].
    destruct H as [H | [H | H]]; try discriminate.
    apply Qle_bool_iff in H. rewrite H. reflexivity.
  - intros H. unfold createNote.
    destruct (audioCtx st) as [ctx|]; [|reflexivity].
    destruct dest as [d|]; [|reflexivity].
    destruct H as [H | H]; discriminate.
  - apply play_never_throws.
  - apply play_never_throws.
  - apply play_without_audio_only_warns.
  - intros Hcap. destruct (click_builds_the_graph options p Hcap)
      as (ctx & H1 & H2 & H3 & H4 & _). eauto.
Qed.

(** createTone without a context, and play('click') on the page before any
    gesture. *)
Lemma sound_before_initialization_never_throws_witness :
  let st := initial locked_page in
  createTone 293.66 square 0 0.06 0.1 (masterGain st) st = st ∧
  threw (play "click" None st) = false ∧
  ∃ ctx, audioCtx (final (play "click" None st)) = Some ctx ∧
    length (nodes ctx) = 6%nat.
Proof.
  intros st.
  destruct (sound_before_initialization_never_throws "click" None st locked_page
              293.66 square 0 0.06 0.1 (masterGain st))
    as (Htone & _ & _ & Hthrow & _ & Hgraph).
  split; [apply Htone; left; reflexivity|].
  split; [exact Hthrow|].
  destruct (Hgraph eq_refl) as (ctx & Hctx & Hlen & _). eauto.
Defined.

End SilentFailure.

(** ** Drone oscillators across start/stop rounds *)

Module DroneAccumulation.
Import WebAudio SoundSystem SoundSystemFacts.

Lemma stopAmbient_worker (v : Q) (st : State) (k : nat) (h : WorkerHandle) :
  audioWorker st = Some k → workers (page st) !! k = Some h →
  workers (page (stopAmbient v st)) !! k =
    Some {| script := script h; posted := posted h ++ [Protocol.stop];
            has_onmessage := has_onmessage h; terminated := true |}.
Proof.
  intros Hk Hh.
  assert (Hdone : workers (terminate k (post_to k Protocol.stop (page st))) !! k =
            Some {| script := script h; posted := posted h ++ [Protocol.stop];
                    has_onmessage := has_onmessage h; terminated := true |}).
  { unfold terminate, post_to. cbn [workers with_workers].
    rewrite !list_lookup_alter_eq, Hh. reflexivity. }
  stopAmbient_cases st; try discriminate;
    injection Hk as ->; exact Hdone.
Qed.

Lemma stopAmbient_interval (v : Q) (st : State) (id : positive) :
  ambientTimer st = Some id →
  id ∉ map iid (intervals (page (stopAmbient v st))).
Proof.
  intros Hid.
  assert (Hgone : ∀ l, id ∉ map iid (filter (fun i => iid i ≠ id) l)).
  { intros l Hin. apply list_elem_of_fmap in Hin as (i & -> & Hi).
    apply list_elem_of_filter in Hi as [Hne _]. by apply Hne. }
  stopAmbient_cases st; try discriminate;
    injection Hid as ->; apply Hgone.
Qed.

Lemma fade_out_gain (v : Q) (ag : nat) (ctx : AudioContext) (g : AudioParam) :
  nodes ctx !! ag = Some (GainNode g) →
  nodes (fade_out v ag ctx) !! ag =
    Some (GainNode
            {| value := value g;
               events :=
                 filter (fun e => Qle_bool (currentTime ctx) (event_time e) = false)
                        (events g)
                 ++ [setValueAtTime v (currentTime ctx);
                     linearRampToValueAtTime 0.0 (currentTime ctx + 0.5)] |}).
Proof.
  destruct ctx as [s t l c]. cbn [nodes currentTime]. intros Hg. unfold_audio.
  rewrite !list_lookup_alter_eq, Hg.
  cbn [fmap option_fmap option_map on_param value events].
  rewrite <- app_assoc. reflexivity.
Qed.

(** C10: stopAmbient keeps every oscillator and every connection of the
    context exactly as they were, so no drone is stopped or disconnected;
    what it does is post stop to the worker and terminate it, clear the
    fallback interval, reset audioWorker, ambientTimer and ambientStarted,
    and schedule on the ambient gain a ramp from the value read to 0 over
    0.5 s.  Each later startAmbient therefore adds two more oscillators
    that run for ever: after n rounds of startAmbient and stopAmbient
    their number has grown by 2n. *)
Theorem stopAmbient_never_stops_the_drones
    (gainValue : Q) (gainValues : list Q) (st : State) :
  oscillators <$> audioCtx (stopAmbient gainValue st) = oscillators <$> audioCtx st ∧
  connections <$> audioCtx (stopAmbient gainValue st) = connections <$> audioCtx st ∧
  drones (stopAmbient gainValue st) = drones st ∧
  audioWorker (stopAmbient gainValue st) = None ∧
  ambientTimer (stopAmbient gainValue st) = None ∧
  ambientStarted (stopAmbient gainValue st) = false ∧
  (∀ k h, audioWorker st = Some k → workers (page st) !! k = Some h →
     workers (page (stopAmbient gainValue st)) !! k =
       Some {| script := script h; posted := posted h ++ [Protocol.stop];
               has_onmessage := has_onmessage h; terminated := true |}) ∧
  (∀ id, ambientTimer st = Some id →
     id ∉ map iid (intervals (page (stopAmbient gainValue st)))) ∧
  (∀ ctx ag g, audioCtx st = Some ctx → ambientGain st = Some ag →
     nodes ctx !! ag = Some (GainNode g) →
     ∃ ctx', audioCtx (stopAmbient gainValue st) = Some ctx' ∧
       nodes ctx' !! ag =
         Some (GainNode
                 {| value := value g;
                    events :=
                      filter (fun e => Qle_bool (currentTime ctx) (event_time e) = false)
                             (events g)
                      ++ [setValueAtTime gainValue (currentTime ctx);
                          linearRampToValueAtTime 0.0 (currentTime ctx + 0.5)] |})) ∧
  (ready st → ambientStarted st = false →
     drones (final (startAmbient st)) = (drones st + 2)%nat ∧
     drones (cycles gainValues st) = (drones st + 2 * length gainValues)%nat).
Proof.
  destruct (stopAmbient_audio gainValue st) as [Hctx Hag].
  split; [|split; [|split; [|split; [|split; [|split; [|split; [|split; [|split]]]]]]]].
  - rewrite Hctx. destruct (audioCtx st), (ambientGain st); simpl; try reflexivity.
    by rewrite oscillators_fade_out.
  - rewrite Hctx. destruct (audioCtx st), (ambientGain st); reflexivity.
  - apply stopAmbient_drones.
  - stopAmbient_cases st; reflexivity.
  - stopAmbient_cases st; reflexivity.
  - reflexivity.
  - intros k h. apply stopAmbient_worker.
  - intros id. apply stopAmbient_interval.
  - intros ctx ag g Hc Ha Hg. rewrite Hctx, Hc, Ha.
    eexists. split; [reflexivity|]. by apply fade_out_gain.
  - intros Hready Hidle. split; [|by apply cycles_accumulate].
    destruct (startAmbient_adds_two_drones st Hready Hidle) as (st' & Hs & Hd & _).
    rewrite Hs. exact Hd.
Qed.

(** Three rounds on a fresh page leave six drones running. *)
Lemma stopAmbient_never_stops_the_drones_witness :
  let st := initial unlocked_page in
  drones (final (startAmbient st)) = 2%nat ∧
  drones (stopAmbient 0.65 (final (startAmbient st))) = 2%nat ∧
  drones (cycles [0.65; 0.4; 0.65]%Q st) = 6%nat.
Proof.
  intros st.
  destruct (stopAmbient_never_stops_the_drones 0.65 [0.65; 0.4; 0.65]%Q st)
    as (_ & _ & _ & _ & _ & _ & _ & _ & _ & Hacc).
  destruct (Hacc eq_refl eq_refl) as [H1 H3].
  split; [exact H1|]. split; [|exact H3].
  destruct (stopAmbient_never_stops_the_drones 0.65 [] (final (startAmbient st)))
    as (_ & _ & Hkeep & _).
  rewrite Hkeep. exact H1.
Defined.

End DroneAccumulation.

(** * Further properties of the worker *)

Module WorkerLoop.
Import AudioWorker AudioWorkerFacts WorkerTrace.

Lemma msg_currentIndex_emission (now i : Z) (task : AudioTask) :
  msg_currentIndex (emission now i task) = Some i.
Proof. unfold emission. destruct (isRest task); reflexivity. Qed.

Lemma is_note_event_emission (now i : Z) (task : AudioTask) :
  is_note_event (emission now i task) = true.
Proof. unfold emission. destruct (isRest task); reflexivity. Qed.

Lemma shifted_positions (i L : Z) (n : nat) :
  0 <= i < L →
  (λ k : nat, Some (((i + 1) mod L + Z.of_nat k) mod L)) <$> seq 0 n
  = (λ k : nat, Some ((i + Z.of_nat k) mod L)) <$> seq 1 n.
Proof.
  intros Hi. rewrite <- (fmap_S_seq 0 n), <- list_fmap_compose.
  apply list_fmap_ext. intros _ k _. simpl. f_equal.
  rewrite DriftCorrection.position_after by lia. f_equal. lia.
Qed.

Lemma emissions_positions (nows : list Z) (w : Worker) :
  isRunning (SchedulerInstance w) = true →
  index_in_range (SchedulerInstance w) →
  let i := currentIndex (SchedulerInstance w) in
  let L := Z.of_nat (length (melody (SchedulerInstance w))) in
  let w' := emissions nows w in
  (∃ evs, outbox (self w') = outbox (self w) ++ evs ∧
     msg_currentIndex <$> evs
       = (λ k : nat, Some ((i + Z.of_nat k) mod L)) <$> seq 0 (length nows)) ∧
  currentIndex (SchedulerInstance w') = (i + Z.of_nat (length nows)) mod L.
Proof.
  cbv zeta. revert w.
  induction nows as [|now rest IH]; intros w Hrun Hrange.
  - simpl. split.
    + exists []. by rewrite app_nil_r.
    + rewrite Z.add_0_r, Z.mod_small; [reflexivity | exact Hrange].
  - pose proof Hrange as Hr. unfold index_in_range in Hr.
    destruct (js_index_is_Some _ _ Hrange) as [task Htask].
    destruct (processNext_emits now w task Hrun Htask)
      as (w1 & Hw1 & Hout & Hidx & Hrun1 & Hmel & _).
    destruct (rem_succ_in_range _ _ Hrange) as [Hrem Hbound].
    assert (Hrange1 : index_in_range (SchedulerInstance w1)).
    { unfold index_in_range. rewrite Hidx, Hmel. exact Hbound. }
    destruct (IH w1 Hrun1 Hrange1) as [(evs & Hevs & Hpos) Hlast].
    cbn [emissions]. rewrite Hw1. cbn [final].
    rewrite Hidx, Hmel, Hrem in Hpos, Hlast.
    split.
    + exists (emission now (currentIndex (SchedulerInstance w)) task :: evs).
      split.
      * rewrite Hevs, Hout, <- app_assoc. reflexivity.
      * cbn [length seq fmap list_fmap]. rewrite msg_currentIndex_emission.
        f_equal.
        -- rewrite Z.add_0_r, Z.mod_small; [reflexivity | exact Hrange].
        -- change (list_fmap _ _ ?f ?l) with (f <$> l).
           rewrite Hpos. by apply shifted_positions.
    + rewrite Hlast, DriftCorrection.position_after by lia.
      f_equal. cbn [length]. lia.
Qed.

(** X1: n consecutive emission steps post n events whose positions are i,
    i+1, ..., i+n-1 modulo the sequence length, in this order, and leave the
    scheduler at (i+n) mod L; after exactly L steps it is back at i. *)
Theorem emissions_walk_the_melody_in_a_circle (nows : list Z) (w : Worker) :
  isRunning (SchedulerInstance w) = true →
  index_in_range (SchedulerInstance w) →
  let i := currentIndex (SchedulerInstance w) in
  let L := Z.of_nat (length (melody (SchedulerInstance w))) in
  let w' := emissions nows w in
  (∃ evs, outbox (self w') = outbox (self w) ++ evs ∧
     msg_currentIndex <$> evs
       = (λ k : nat, Some ((i + Z.of_nat k) mod L)) <$> seq 0 (length nows)) ∧
  currentIndex (SchedulerInstance w') = (i + Z.of_nat (length nows)) mod L ∧
  (Z.of_nat (length nows) = L → currentIndex (SchedulerInstance w') = i).
Proof.
  intros Hrun Hrange i L w'.
  destruct (emissions_positions nows w Hrun Hrange) as [Hevs Hlast].
  split; [exact Hevs|]. split; [exact Hlast|].
  intros Hfull. subst w' i L. rewrite Hlast, Hfull.
  rewrite <- (Z.mul_1_l (Z.of_nat _)) at 1.
  rewrite Z.mod_add by (unfold index_in_range in Hrange; lia).
  apply Z.mod_small. exact Hrange.
Qed.

(** Eleven steps on the melody of the file, started at position 4. *)
Lemma emissions_walk_the_melody_in_a_circle_witness :
  let w := {| SchedulerInstance := start_assign 0 4 (newScheduler theMelody);
              self := emptyScope |} in
  let nows := [0; 3000; 4000; 5500; 7000; 9000; 12000; 16000; 18000; 20000; 21500] in
  currentIndex (SchedulerInstance (emissions nows w)) = 4.
Proof.
  intros w nows.
  assert (Hrange : index_in_range (SchedulerInstance w))
    by (vm_compute; split; [discriminate | reflexivity]).
  exact (proj2 (proj2 (emissions_walk_the_melody_in_a_circle nows w eq_refl Hrange)) eq_refl).
Defined.

(** The three ways an emission step can go. *)
Lemma processNext_cases (now : Z) (w : Worker) :
  (isRunning (SchedulerInstance w) = false ∧ processNext now w = Normal w) ∨
  (isRunning (SchedulerInstance w) = true ∧
   js_index (melody (SchedulerInstance w)) (currentIndex (SchedulerInstance w)) = None ∧
   processNext now w = Throw w) ∨
  (∃ task w',
     isRunning (SchedulerInstance w) = true ∧
     js_index (melody (SchedulerInstance w)) (currentIndex (SchedulerInstance w)) = Some task ∧
     processNext now w = Normal w' ∧
     outbox (self w') =
       outbox (self w) ++ [emission now (currentIndex (SchedulerInstance w)) task] ∧
     currentIndex (SchedulerInstance w') =
       Z.rem (currentIndex (SchedulerInstance w) + 1)
             (Z.of_nat (length (melody (SchedulerInstance w)))) ∧
     isRunning (SchedulerInstance w') = true ∧
     melody (SchedulerInstance w') = melody (SchedulerInstance w)).
Proof.
  destruct (isRunning (SchedulerInstance w)) eqn:Hrun.
  - destruct (js_index (melody (SchedulerInstance w))
                (currentIndex (SchedulerInstance w))) as [task|] eqn:Htask.
    + right. right.
      destruct (processNext_emits now w task Hrun Htask)
        as (w' & Hw' & Hout & Hidx & Hrun' & Hmel & _).
      exists task, w'. auto 10.
    + right. left. auto using processNext_undefined_task.
  - left. auto using processNext_idle.
Qed.

Lemma processNext_safe (m : list AudioTask) (now : Z) (w : Worker) :
  safe m w → safe m (final (processNext now w)) ∧ threw (processNext now w) = false.
Proof.
  intros Hsafe. pose proof Hsafe as (Hm & Hrange & Hall).
  destruct (processNext_cases now w)
    as [[_ ->] | [(_ & Hnone & _) | (task & w' & _ & Htask & -> & Hout & Hidx & _ & Hmel)]].
  - by split.
  - destruct (js_index_is_Some _ _ Hrange) as [t Ht]. congruence.
  - split; [|reflexivity]. cbn [final].
    destruct (rem_succ_in_range _ _ Hrange) as [_ Hbound].
    split; [|split].
    + congruence.
    + unfold index_in_range. rewrite Hidx, Hmel. exact Hbound.
    + rewrite Hout. apply Forall_app. split; [exact Hall|].
      apply Forall_singleton. intros j Hj.
      rewrite msg_currentIndex_emission in Hj. injection Hj as <-.
      rewrite <- Hm. exact Hrange.
Qed.

Lemma rem_in_range (r : Z) (m : list AudioTask) :
  m ≠ [] → 0 <= r → 0 <= Z.rem r (Z.of_nat (length m)) < Z.of_nat (length m).
Proof.
  intros Hm Hr. assert (0 < Z.of_nat (length m)) by (destruct m; [done | simpl; lia]).
  rewrite Z.rem_mod_nonneg by lia. apply Z.mod_pos_bound. lia.
Qed.

Lemma dispatch_safe (m : list AudioTask) (e : WorkerEvent) (w : Worker) :
  m ≠ [] → index_nonnegative e = true → safe m w →
  safe m (step e w) ∧ threw (dispatch e w) = false.
Proof.
  intros Hne He Hsafe. pose proof Hsafe as (Hm & Hrange & Hall).
  destruct e as [now dateNow msg | now id]; cbn [step dispatch].
  - destruct msg as [index| |[index|]|mode| | |]; cbn [onmessage final threw];
      try (split; [exact Hsafe | reflexivity]).
    + (* start *)
      unfold start. destruct (isRunning (SchedulerInstance w)); [by split|].
      apply processNext_safe. split; [exact Hm|]. split; [|exact Hall].
      unfold index_in_range. cbn. rewrite Hm. apply rem_in_range; [exact Hne|].
      destruct index as [i|]; cbn in *; [by apply Z.leb_le | lia].
    + (* stop *)
      split; [|reflexivity]. split; [exact Hm|]. split; [exact Hrange|].
      cbn. destruct (timer (SchedulerInstance w)); exact Hall.
    + (* sync *)
      split; [|reflexivity]. split; [exact Hm|]. split; [|exact Hall].
      unfold index_in_range. cbn. rewrite Hm.
      apply rem_in_range; [exact Hne | by apply Z.leb_le].
    + (* get_status *)
      split; [|reflexivity]. split; [exact Hm|]. split; [exact Hrange|]. cbn.
      apply Forall_app. split; [exact Hall|]. apply Forall_singleton. intros j Hj. discriminate.
    + (* check_health *)
      split; [|reflexivity]. split; [exact Hm|]. split; [exact Hrange|]. cbn.
      apply Forall_app. split; [exact Hall|]. apply Forall_singleton. intros j Hj. discriminate.
  - unfold fire. case_bool_decide; [|by split].
    apply processNext_safe. split; [exact Hm|]. split; [exact Hrange | exact Hall].
Qed.

Lemma run_safe (m : list AudioTask) (es : list WorkerEvent) (w : Worker) :
  m ≠ [] → forallb index_nonnegative es = true → safe m w → safe m (run es w).
Proof.
  intros Hne. revert w. induction es as [|e es IH]; intros w Hes Hsafe; [exact Hsafe|].
  cbn in Hes. apply andb_prop in Hes as [He Hes].
  cbn [run foldl]. apply IH; [exact Hes|].
  by apply dispatch_safe.
Qed.

(** X2: as long as the indices of the start and sync messages are not
    negative, currentIndex stays within the melody in every state the event
    loop reaches, no handler throws (the task read by an emission step is
    never undefined), and every position reported in a posted event is a
    valid position. *)
Theorem nonnegative_indices_never_break_the_scheduler
    (m : list AudioTask) (es : list WorkerEvent) (e : WorkerEvent) :
  m ≠ [] →
  forallb index_nonnegative es = true →
  index_nonnegative e = true →
  let w := run es (newWorker m) in
  index_in_range (SchedulerInstance w) ∧
  threw (dispatch e w) = false ∧
  step e w = final (dispatch e w) ∧
  Forall (reports_valid_position m) (outbox (self w)).
Proof.
  intros Hne Hes He w.
  assert (Hsafe : safe m w).
  { apply run_safe; [exact Hne | exact Hes|].
    split; [reflexivity|]. split; [|constructor].
    unfold index_in_range. cbn. destruct m; [done | cbn; lia]. }
  destruct (dispatch_safe m e w Hne He Hsafe) as [_ Hok].
  destruct Hsafe as (_ & Hrange & Hall).
  split; [exact Hrange|]. split; [exact Hok|]. split; [|exact Hall].
  destruct e; reflexivity.
Qed.

Lemma nonnegative_indices_never_break_the_scheduler_witness :
  let es := [Message 0 0 (Protocol.start (Some 25)); TimeoutFires 1500 1;
             Message 1600 1600 (sync (Some 40)); TimeoutFires 3000 2] in
  let w := run es (newWorker theMelody) in
  index_in_range (SchedulerInstance w) ∧
  threw (dispatch (TimeoutFires 6000 3) w) = false.
Proof.
  intros es w.
  destruct (nonnegative_indices_never_break_the_scheduler theMelody es
              (TimeoutFires 6000 3)) as (H1 & H2 & _); [discriminate | reflexivity..|].
  split; [exact H1 | exact H2].
Defined.

Lemma idle_step (e : WorkerEvent) (w : Worker) :
  isRunning (SchedulerInstance w) = false →
  is_start_message e = false →
  isRunning (SchedulerInstance (step e w)) = false ∧
  lastExecutionTime (SchedulerInstance (step e w)) = lastExecutionTime (SchedulerInstance w) ∧
  List.filter is_note_event (outbox (self (step e w)))
    = List.filter is_note_event (outbox (self w)).
Proof.
  intros Hidle He. destruct e as [now dateNow msg | now id]; cbn [step].
  - destruct msg as [index| |[index|]|mode| | |]; cbn [onmessage final];
      try discriminate; try (by repeat split).
    + cbn. repeat split. destruct (timer (SchedulerInstance w)); reflexivity.
    + cbn. repeat split; [exact Hidle|].
      rewrite List.filter_app. cbn. by rewrite app_nil_r.
    + cbn. repeat split; [exact Hidle|].
      rewrite List.filter_app. cbn. by rewrite app_nil_r.
  - unfold fire. case_bool_decide; [|by repeat split].
    rewrite processNext_idle by exact Hidle. by repeat split.
Qed.

(** X3: a scheduler that is not running posts no play_note and no
    sync_state event and keeps its reference clock, whatever stop, sync,
    status and health messages arrive and whatever timers fire, until a start
    message comes. *)
Theorem idle_scheduler_posts_no_note_event (es : list WorkerEvent) (w : Worker) :
  isRunning (SchedulerInstance w) = false →
  forallb (λ e, negb (is_start_message e)) es = true →
  let w' := run es w in
  isRunning (SchedulerInstance w') = false ∧
  lastExecutionTime (SchedulerInstance w') = lastExecutionTime (SchedulerInstance w) ∧
  List.filter is_note_event (outbox (self w'))
    = List.filter is_note_event (outbox (self w)).
Proof.
  revert w. induction es as [|e es IH]; intros w Hidle Hes; [by repeat split|].
  cbn in Hes. apply andb_prop in Hes as [He Hes]. apply negb_true_iff in He.
  destruct (idle_step e w Hidle He) as (Hidle1 & Hlast1 & Hout1).
  destruct (IH (step e w) Hidle1 Hes) as (H1 & H2 & H3).
  change (run (e :: es) w) with (run es (step e w)). cbv zeta.
  split; [exact H1|]. split; [by rewrite H2 | by rewrite H3].
Qed.

(** The melody is stopped after its second note; a late firing of the
    cancelled timer, a sync and a status query follow. *)
Lemma idle_scheduler_posts_no_note_event_witness :
  let w := run [Message 0 0 (Protocol.start None); TimeoutFires 2000 1;
                Message 2500 2500 Protocol.stop] (newWorker theMelody) in
  let es := [TimeoutFires 4000 2; Message 4100 4100 (sync (Some 7));
             Message 4200 4200 get_status] in
  List.filter is_note_event (outbox (self (run es w)))
    = [play_note 392.00 2000 1 0 0; play_note 329.63 2000 1 2000 1].
Proof.
  intros w es.
  exact (proj2 (proj2 (idle_scheduler_posts_no_note_event es w eq_refl eq_refl))).
Defined.

(** X5: a sync message changes nothing but currentIndex: timers, posted
    messages, the running flag and the reference clock are kept, so the
    pending wake-up still fires when it was due, and the emission step it runs
    posts the task at the synced position. *)
Theorem sync_realigns_without_touching_the_timing
    (now dateNow r now' : Z) (w : Worker) :
  melody (SchedulerInstance w) ≠ [] →
  0 <= r →
  let L := Z.of_nat (length (melody (SchedulerInstance w))) in
  let w1 := step (Message now dateNow (sync (Some r))) w in
  self w1 = self w ∧
  isRunning (SchedulerInstance w1) = isRunning (SchedulerInstance w) ∧
  timer (SchedulerInstance w1) = timer (SchedulerInstance w) ∧
  lastExecutionTime (SchedulerInstance w1) = lastExecutionTime (SchedulerInstance w) ∧
  (isRunning (SchedulerInstance w) = true →
   ∃ task w2, js_index (melody (SchedulerInstance w)) (r mod L) = Some task ∧
     processNext now' w1 = Normal w2 ∧
     outbox (self w2) = outbox (self w) ++ [emission now' (r mod L) task]).
Proof.
  intros Hne Hr L w1.
  repeat (split; [reflexivity|]).
  intros Hrun.
  pose proof (rem_in_range r _ Hne Hr) as Hbound.
  assert (Hrem : Z.rem r L = r mod L).
  { apply Z.rem_mod_nonneg; [exact Hr|]. subst L.
    destruct (melody (SchedulerInstance w)); [done | cbn; lia]. }
  destruct (js_index_is_Some (melody (SchedulerInstance w)) _ Hbound) as [task Htask].
  destruct (processNext_emits now' w1 task Hrun Htask) as (w2 & Hw2 & Hout & _).
  exists task, w2. fold L in Htask. rewrite Hrem in Htask.
  split; [exact Htask|]. split; [exact Hw2|].
  rewrite Hout. cbn. fold L. rewrite Hrem. reflexivity.
Qed.

Lemma sync_realigns_without_touching_the_timing_witness :
  let w := step (Message 0 0 (Protocol.start None)) (newWorker theMelody) in
  let w1 := step (Message 500 500 (sync (Some 16))) w in
  timeouts (self w1) = [mkTimeout 1 2000] ∧
  ∃ task w2, js_index theMelody (16 mod 11) = Some task ∧
    processNext 2000 w1 = Normal w2 ∧
    outbox (self w2) = outbox (self w) ++ [emission 2000 (16 mod 11) task].
Proof.
  intros w w1.
  destruct (sync_realigns_without_touching_the_timing 500 500 16 2000 w)
    as (Hself & _ & _ & _ & Hnext); [discriminate | lia |].
  split; [reflexivity | exact (Hnext eq_refl)].
Defined.

Lemma processNext_wakes (now : Z) (w : Worker) :
  index_in_range (SchedulerInstance w) →
  isRunning (SchedulerInstance w) = true →
  match timer (SchedulerInstance w) with
  | Some id => drop_timeout id (timeouts (self w))
  | None => timeouts (self w)
  end = [] →
  isRunning (SchedulerInstance (final (processNext now w))) = true ∧
  wake_up_pending (final (processNext now w)).
Proof.
  intros Hrange Hrun Hclear.
  destruct (js_index_is_Some _ _ Hrange) as [task Htask].
  destruct (processNext_emits now w task Hrun Htask)
    as (w' & -> & _ & _ & Hrun' & _ & _ & Hto & Htm).
  cbn [final]. split; [exact Hrun'|].
  rewrite Hclear in Hto. eexists _, _. split; [exact Hto|]. split; [exact Htm|].
  destruct (Z.ltb_spec (nextDelay now (SchedulerInstance w) task) 0); lia.
Qed.

Lemma step_keeps_the_wake_up (m : list AudioTask) (e : WorkerEvent) (w : Worker) :
  m ≠ [] → index_nonnegative e = true →
  safe m w → loop_inv w →
  (isRunning (SchedulerInstance w) = true → wake_up_pending w) →
  isRunning (SchedulerInstance (step e w)) = true → wake_up_pending (step e w).
Proof.
  intros Hne He Hsafe [Hsingle Hidle] Halive.
  pose proof Hsafe as (Hm & Hrange & _).
  destruct e as [now dateNow msg | now id]; cbn [step].
  - destruct msg as [index| |[index|]|mode| | |]; cbn [onmessage final];
      try exact Halive; try (cbn; exact Halive); try (cbn; discriminate).
    (* start *)
    unfold start. destruct (isRunning (SchedulerInstance w)) eqn:Hrun;
      [intros _; exact (Halive eq_refl)|].
    intros _. destruct (Hidle eq_refl) as [Htimer Hto].
    apply processNext_wakes; cbn.
    + unfold index_in_range. cbn. rewrite Hm. apply rem_in_range; [exact Hne|].
      destruct index as [i|]; cbn in *; [by apply Z.leb_le | lia].
    + reflexivity.
    + rewrite Htimer. exact Hto.
  - unfold fire. case_bool_decide as Hin; [|exact Halive].
    destruct (isRunning (SchedulerInstance w)) eqn:Hrun.
    + intros _. destruct (Halive eq_refl) as (id' & d & Hto & Htimer & _).
      rewrite Hto in Hin. cbn in Hin. apply list_elem_of_singleton in Hin. subst id'.
      apply processNext_wakes; cbn.
      * exact Hrange.
      * exact Hrun.
      * rewrite Htimer, Hto. rewrite drop_timeout_single. reflexivity.
    + rewrite processNext_idle by exact Hrun. cbn. congruence.
Qed.

Lemma run_keeps_the_wake_up (m : list AudioTask) (es : list WorkerEvent) (w : Worker) :
  m ≠ [] → forallb index_nonnegative es = true →
  safe m w → loop_inv w →
  (isRunning (SchedulerInstance w) = true → wake_up_pending w) →
  isRunning (SchedulerInstance (run es w)) = true → wake_up_pending (run es w).
Proof.
  intros Hne. revert w.
  induction es as [|e es IH]; intros w Hes Hsafe Hinv Halive; [exact Halive|].
  cbn in Hes. apply andb_prop in Hes as [He Hes].
  change (run (e :: es) w) with (run es (step e w)).
  apply IH; [exact Hes | | |].
  - by apply dispatch_safe.
  - by apply step_loop_inv.
  - by apply (step_keeps_the_wake_up m).
Qed.

(** X12: the melody loop cannot die silently.  In every state the event
    loop reaches from a fresh worker, with start and sync indices that are not
    negative, a running scheduler has exactly one wake-up pending, it is the
    one this.timer holds, and its delay is not negative; an idle one has
    none. *)
Theorem running_scheduler_always_has_its_wake_up_pending
    (m : list AudioTask) (es : list WorkerEvent) :
  m ≠ [] →
  forallb index_nonnegative es = true →
  let w := run es (newWorker m) in
  if isRunning (SchedulerInstance w)
  then wake_up_pending w
  else timeouts (self w) = [] ∧ timer (SchedulerInstance w) = None.
Proof.
  intros Hne Hes w.
  assert (Hsafe : safe m (newWorker m)).
  { split; [reflexivity|]. split; [|constructor].
    unfold index_in_range. cbn. destruct m; [done | cbn; lia]. }
  destruct (isRunning (SchedulerInstance w)) eqn:Hrun.
  - apply (run_keeps_the_wake_up m es (newWorker m) Hne Hes Hsafe);
      [apply newWorker_loop_inv | discriminate | exact Hrun].
  - destruct (run_loop_inv es (newWorker m) (newWorker_loop_inv m)) as [_ Hidle].
    destruct (Hidle Hrun) as [Htimer Hto]. by split.
Qed.

Lemma running_scheduler_always_has_its_wake_up_pending_witness :
  let es := [Message 0 0 (Protocol.start (Some 3)); TimeoutFires 1500 1;
             Message 1600 1600 get_status; TimeoutFires 9000 2] in
  wake_up_pending (run es (newWorker theMelody)).
Proof.
  intros es.
  exact (running_scheduler_always_has_its_wake_up_pending theMelody es
           ltac:(discriminate) eq_refl).
Defined.

Lemma processNext_keeps_ahead (now : Z) (w : Worker) (task : AudioTask) :
  isRunning (SchedulerInstance w) = true →
  js_index (melody (SchedulerInstance w)) (currentIndex (SchedulerInstance w)) = Some task →
  now <= lastExecutionTime (SchedulerInstance (final (processNext now w))).
Proof.
  intros Hrun Htask.
  destruct (processNext_emits now w task Hrun Htask) as (w' & -> & _ & _ & _ & _ & Hlast & _).
  cbn [final]. rewrite Hlast. unfold nextDelay.
  destruct (Z.ltb_spec (lastExecutionTime (SchedulerInstance w) + duration task - now) 0); lia.
Qed.

(** X13: get_status and check_health only observe.  In whatever state the
    worker is, either query leaves the scheduler and the pending wake-ups as
    they are and posts exactly one message, which is no note event and reports
    the running flag and the position as they are.  The uptime it reports is
    0 for an idle scheduler; for a running one it is never positive as long
    as the query's clock reading has not passed lastExecutionTime, and an
    emission step leaves lastExecutionTime at or after its own clock
    reading: between an emission step and the time its wake-up is due the
    reported uptime is zero or negative. *)
Theorem status_queries_only_observe (t dateNow : Z) (w : Worker) :
  let s := SchedulerInstance w in
  let status := getStatus t s in
  let w2 := step (Message t dateNow get_status) w in
  let w3 := step (Message t dateNow check_health) w in
  (SchedulerInstance w2 = s ∧ timeouts (self w2) = timeouts (self w) ∧
   outbox (self w2) = outbox (self w) ++ [status_response status]) ∧
  (SchedulerInstance w3 = s ∧ timeouts (self w3) = timeouts (self w) ∧
   outbox (self w3) = outbox (self w) ++ [health_check dateNow status]) ∧
  is_note_event (status_response status) = false ∧
  is_note_event (health_check dateNow status) = false ∧
  st_isRunning status = isRunning s ∧
  st_currentIndex status = currentIndex s ∧
  (isRunning s = false → st_uptime status = 0) ∧
  (isRunning s = true → t <= lastExecutionTime s → st_uptime status <= 0) ∧
  (∀ now task, isRunning s = true →
     js_index (melody s) (currentIndex s) = Some task →
     now <= lastExecutionTime (SchedulerInstance (final (processNext now w)))).
Proof.
  cbv zeta. repeat (split; [by repeat split|]).
  split; [|split].
  - intros Hidle. unfold getStatus. cbn. by rewrite Hidle.
  - intros Hrun Hbefore. unfold getStatus. cbn. rewrite Hrun. lia.
  - intros now task. apply processNext_keeps_ahead.
Qed.

(** A query right after the first emission step, and one 800 ms later. *)
Lemma status_queries_only_observe_witness :
  let w := {| SchedulerInstance := start_assign 1000 0 (newScheduler theMelody);
              self := emptyScope |} in
  let w1 := final (processNext 1000 w) in
  st_uptime (getStatus 1800 (SchedulerInstance w1)) <= 0 ∧
  1000 <= lastExecutionTime (SchedulerInstance w1).
Proof.
  intros w w1.
  destruct (status_queries_only_observe 1800 0 w1)
    as (_ & _ & _ & _ & _ & _ & _ & Hup & _).
  destruct (status_queries_only_observe 1800 0 w)
    as (_ & _ & _ & _ & _ & _ & _ & _ & Hahead).
  split.
  - apply Hup; [reflexivity | vm_compute; discriminate].
  - exact (Hahead 1000 (newAudioTask 392.00 2000 (Some 1) None) eq_refl eq_refl).
Defined.

End WorkerLoop.

Module JitterTiming.
Import JitterWorker.

(** X7: in the copy of the worker in part_002 an emission step schedules the
    next one after the nominal duration of its task plus the jitter: exactly
    the duration in performance mode, and between duration and duration + 30
    otherwise; a set_performance_mode message without a mode, or with an empty
    one, selects the balanced mode. *)
Theorem jitter_delay_stays_within_thirty_ms
    (now random30 : Z) (w : Worker) (task : AudioTask) :
  isRunning (SchedulerInstance w) = true →
  js_index (melody (SchedulerInstance w)) (currentIndex (SchedulerInstance w)) = Some task →
  0 <= random30 < 30 →
  (∃ w' id d, processNext now random30 w = Normal w' ∧
     last (timeouts (self w')) = Some (mkTimeout id d) ∧
     duration task <= d < duration task + 30 ∧
     (performanceMode (SchedulerInstance w) = "performance" → d = duration task) ∧
     (performanceMode (SchedulerInstance w) ≠ "performance" → d = duration task + random30)) ∧
  (∀ dateNow mode,
     mode = None ∨ mode = Some "" →
     performanceMode
       (SchedulerInstance (step (Message now dateNow random30 (set_performance_mode mode)) w))
     = "balanced").
Proof.
  intros Hrun Htask Hr. split.
  - unfold processNext. rewrite Hrun, Htask. cbn.
    eexists _, _, _. split; [reflexivity|]. cbn. split; [apply last_snoc|].
    destruct (String.eqb_spec (performanceMode (SchedulerInstance w)) "performance");
      repeat split; try lia; intros; congruence.
  - intros dateNow mode [-> | ->]; reflexivity.
Qed.

Lemma jitter_delay_stays_within_thirty_ms_witness :
  let w := {| SchedulerInstance := start_assign 0 3 (newScheduler theMelody);
              self := emptyScope |} in
  ∃ w' id d, processNext 0 17 w = Normal w' ∧
    last (timeouts (self w')) = Some (mkTimeout id d) ∧
    2800 <= d < 2800 + 30.
Proof.
  intros w.
  destruct (jitter_delay_stays_within_thirty_ms 0 17 w
              (newAudioTask 523.25 2800 (Some 2) None) eq_refl eq_refl)
    as [(w' & id & d & Hw' & Hlast & Hd & _) _]; [lia|].
  exists w', id, d. auto.
Defined.

End JitterTiming.

(** * Further properties of the bridge *)

Module StoredPosition.

Lemma digit_of_pretty_N_char (d : N) :
  (d < 10)%N → digit_of (pretty_N_char d) = Some (Z.of_N d).
Proof.
  intros Hd.
  assert (d = 0 ∨ d = 1 ∨ d = 2 ∨ d = 3 ∨ d = 4 ∨ d = 5 ∨ d = 6 ∨ d = 7 ∨ d = 8 ∨ d = 9)%N
    as Hcases by lia.
  repeat destruct Hcases as [-> | Hcases]; try subst d; reflexivity.
Qed.

(** A character that is a digit is neither white space nor a sign, so
    [parseInt] starts to read the number at it. *)
Lemma parseInt_at_digit (c : ascii) (rest : string) (d : Z) :
  digit_of c = Some d →
  parseInt (String c rest) = leading_digits (String c rest) None.
Proof.
  destruct c as [[] [] [] [] [] [] [] []]; intros H; try discriminate H; reflexivity.
Qed.

(** Reading back the digits that [pretty] puts in front of [s]. *)
Lemma leading_digits_pretty_N_go (x : N) :
  (0 < x)%N →
  ∃ k, 0 <= k ∧ ∀ s acc,
    leading_digits (pretty_N_go x s) acc
      = leading_digits s (Some (default 0 acc * 10 ^ k + Z.of_N x)).
Proof.
  induction (N.lt_wf_0 x) as [x _ IH]. intros Hx.
  assert (Hr : (x `mod` 10 < 10)%N) by (apply N.mod_lt; lia).
  pose proof (digit_of_pretty_N_char _ Hr) as Hdigit.
  pose proof (N.div_mod x 10 ltac:(lia)) as Hdm.
  destruct (decide (x `div` 10 = 0)%N) as [Hq | Hq].
  - exists 1. split; [lia|]. intros s acc.
    rewrite pretty_N_go_step by exact Hx. rewrite Hq, pretty_N_go_0.
    cbn [leading_digits]. rewrite Hdigit. do 2 f_equal. lia.
  - destruct (IH (x `div` 10)%N) as (k & Hk & Hread).
    { apply N.div_lt; lia. }
    { by apply N.neq_0_lt_0. }
    exists (k + 1). split; [lia|]. intros s acc.
    rewrite pretty_N_go_step by exact Hx. rewrite Hread.
    cbn [leading_digits]. rewrite Hdigit. cbn [default]. do 2 f_equal.
    rewrite Z.pow_add_r, Z.pow_1_r by lia.
    assert (Hx10 : Z.of_N x = 10 * Z.of_N (x `div` 10) + Z.of_N (x `mod` 10)) by lia.
    rewrite Hx10. unfold id. ring.
Qed.

Lemma pretty_N_go_head (x : N) (s : string) :
  (0 < x)%N → ∃ c rest d, pretty_N_go x s = String c rest ∧ digit_of c = Some d.
Proof.
  revert s. induction (N.lt_wf_0 x) as [x _ IH]. intros s Hx.
  assert (Hr : (x `mod` 10 < 10)%N) by (apply N.mod_lt; lia).
  rewrite pretty_N_go_step by exact Hx.
  destruct (decide (x `div` 10 = 0)%N) as [Hq | Hq].
  - rewrite Hq, pretty_N_go_0. eexists _, _, _. split; [reflexivity|].
    by apply digit_of_pretty_N_char.
  - apply IH; [apply N.div_lt; lia | by apply N.neq_0_lt_0].
Qed.

Lemma parseInt_pretty_positive (p : positive) :
  parseInt (pretty_N_go (N.pos p) "") = Some (Z.pos p) ∧
  leading_digits (pretty_N_go (N.pos p) "") None = Some (Z.pos p).
Proof.
  assert (Hread : leading_digits (pretty_N_go (N.pos p) "") None = Some (Z.pos p)).
  { destruct (leading_digits_pretty_N_go (N.pos p)) as (k & _ & Hread); [lia|].
    rewrite Hread. cbn. reflexivity. }
  split; [|exact Hread].
  destruct (pretty_N_go_head (N.pos p) "") as (c & rest & d & Hs & Hd); [lia|].
  rewrite Hs in *. rewrite (parseInt_at_digit c rest d Hd). exact Hread.
Qed.

(** [parseInt] reads a decimal numeral back. *)
Lemma parseInt_pretty (i : Z) : parseInt (pretty i) = Some i.
Proof.
  destruct i as [|p|p].
  - reflexivity.
  - apply parseInt_pretty_positive.
  - change (pretty (Z.neg p)) with (String "-" (pretty_N_go (N.pos p) "")).
    change (parseInt (String "-" ?s)) with (Z.opp <$> leading_digits s None).
    rewrite (proj2 (parseInt_pretty_positive p)). reflexivity.
Qed.

End StoredPosition.

Module AmbientLifecycle.
Import WebAudio SoundSystem SoundSystemFacts.

Lemma resume_same_flag (b : bool) (ctx : AudioContext) :
  state ctx = (if b then running else suspended) → resume b ctx = ctx.
Proof. destruct ctx as [s t l c], b; cbn; intros ->; reflexivity. Qed.

Lemma with_audioCtx_same (ctx : AudioContext) (st : State) :
  audioCtx st = Some ctx → with_audioCtx ctx st = st.
Proof. destruct st; cbn; intros ->; reflexivity. Qed.

(** What [initContext] leaves behind: a context whose state agrees with
    the page's activation whenever it was suspended on entry or has just been
    built, and an untouched page. *)
Lemma initContext_result (st st1 : State) :
  initContext st = Normal st1 →
  page st1 = page st ∧
  ambientStarted st1 = ambientStarted st ∧
  audioWorker st1 = audioWorker st ∧
  ambientTimer st1 = ambientTimer st ∧
  ∃ ctx, audioCtx st1 = Some ctx ∧
    (state ctx = running ∨ userActivated (page st) = false) ∧
    match audioCtx st with
    | Some ctx0 =>
        nodes ctx = nodes ctx0 ∧ connections ctx = connections ctx0 ∧
        currentTime ctx = currentTime ctx0 ∧
        masterGain st1 = masterGain st ∧ ambientGain st1 = ambientGain st
    | None =>
        nodes ctx = [GainNode (mkParam 0.35 []); GainNode (mkParam 0.0 [])] ∧
        connections ctx = [(0%nat, destination); (1%nat, node_input 0)] ∧
        masterGain st1 = Some 0%nat ∧ ambientGain st1 = Some 1%nat
    end.
Proof.
  unfold initContext.
  destruct (audioCtx st) as [ctx0|] eqn:Hctx.
  - cbn [and_then]. rewrite Hctx.
    destruct (state ctx0) eqn:Hs; intros [= <-]; cbn.
    + repeat split. eexists. split; [reflexivity|]. cbn.
      destruct (userActivated (page st)); rewrite ?Hs; auto 10.
    + repeat split. rewrite Hctx. eauto 10.
  - destruct (hasAudioContext (page st)); [|discriminate].
    destruct (userActivated (page st)) eqn:Hua; cbn; intros [= <-]; cbn;
      repeat split; eexists; (split; [reflexivity|]); cbn; auto.
Qed.

(** X9: once initContext has returned, calling it again changes nothing:
    the bus graph (master gain 0.35 into the destination, ambient gain 0 into
    the master) is built by the first call only, and an existing context
    keeps its nodes and connections; where the page has no AudioContext the
    call throws and leaves the state as it was. *)
Theorem initContext_builds_the_graph_once (st : State) :
  (∀ st1, initContext st = Normal st1 → initContext st1 = Normal st1) ∧
  (audioCtx st = None → hasAudioContext (page st) = true →
     ∃ st1 ctx, initContext st = Normal st1 ∧ audioCtx st1 = Some ctx ∧
       nodes ctx = [GainNode (mkParam 0.35 []); GainNode (mkParam 0.0 [])] ∧
       connections ctx = [(0%nat, destination); (1%nat, node_input 0)] ∧
       masterGain st1 = Some 0%nat ∧ ambientGain st1 = Some 1%nat) ∧
  (∀ ctx0, audioCtx st = Some ctx0 →
     ∃ st1 ctx, initContext st = Normal st1 ∧ audioCtx st1 = Some ctx ∧
       nodes ctx = nodes ctx0 ∧ connections ctx = connections ctx0) ∧
  (audioCtx st = None → hasAudioContext (page st) = false → initContext st = Throw st).
Proof.
  split; [|split; [|split]].
  - intros st1 Hinit.
    destruct (initContext_result st st1 Hinit) as (Hpage & _ & _ & _ & ctx & Hctx & Hstate & _).
    unfold initContext. rewrite Hctx. cbn [and_then]. rewrite Hctx.
    destruct (state ctx) eqn:Hs; [|reflexivity].
    destruct Hstate as [? | Hua]; [discriminate|].
    rewrite Hpage, Hua, resume_same_flag by exact Hs.
    by rewrite with_audioCtx_same.
  - intros Hnone Hcap.
    assert (∃ st1, initContext st = Normal st1) as [st1 Hinit].
    { unfold initContext. rewrite Hnone, Hcap.
      destruct (userActivated (page st)); cbn; eauto. }
    destruct (initContext_result st st1 Hinit) as (_ & _ & _ & _ & ctx & Hctx & _ & Hnew).
    rewrite Hnone in Hnew. exists st1, ctx. tauto.
  - intros ctx0 Hsome.
    assert (∃ st1, initContext st = Normal st1) as [st1 Hinit].
    { unfold initContext. rewrite Hsome. cbn [and_then]. rewrite Hsome.
      destruct (state ctx0); eauto. }
    destruct (initContext_result st st1 Hinit) as (_ & _ & _ & _ & ctx & Hctx & _ & Hold).
    rewrite Hsome in Hold. exists st1, ctx. tauto.
  - intros Hnone Hcap. unfold initContext. rewrite Hnone, Hcap. reflexivity.
Qed.

Lemma initContext_builds_the_graph_once_witness :
  ∃ st1 ctx, initContext (initial locked_page) = Normal st1 ∧
    audioCtx st1 = Some ctx ∧
    nodes ctx = [GainNode (mkParam 0.35 []); GainNode (mkParam 0.0 [])] ∧
    initContext st1 = Normal st1.
Proof.
  destruct (initContext_builds_the_graph_once (initial locked_page))
    as (Hagain & Hfresh & _).
  destruct (Hfresh eq_refl eq_refl) as (st1 & ctx & Hinit & Hctx & Hnodes & _).
  exists st1, ctx. auto using Hagain.
Defined.

Lemma initContext_fixed (st : State) (ctx : AudioContext) :
  audioCtx st = Some ctx →
  state ctx = running ∨ userActivated (page st) = false →
  initContext st = Normal st.
Proof.
  intros Hctx Hstate. unfold initContext. rewrite Hctx. cbn [and_then]. rewrite Hctx.
  destruct (state ctx) eqn:Hs; [|reflexivity].
  destruct Hstate as [? | Hua]; [discriminate|].
  rewrite Hua, resume_same_flag by exact Hs. by rewrite with_audioCtx_same.
Qed.

Lemma start_worker_page_flags (st : State) :
  userActivated (page (start_worker st)) = userActivated (page st) ∧
  hasAudioContext (page (start_worker st)) = hasAudioContext (page st).
Proof.
  unfold start_worker, setupLegacyInterval.
  destruct (workerSupport (page st)); split; reflexivity.
Qed.

Lemma ambient_blocks_keep_the_state (ag : nat) (ctx : AudioContext) :
  state (drone_layer ag (fade_in ag ctx)) = state ctx.
Proof. destruct ctx; reflexivity. Qed.

(** X10: startAmbient is idempotent: called again on the state it
    returned, it returns that very state: no second fade-in, no further
    drone, worker or interval, because ambientStarted is set. *)
Theorem startAmbient_is_idempotent (st st1 : State) :
  startAmbient st = Normal st1 → startAmbient st1 = Normal st1.
Proof.
  unfold startAmbient at 1.
  destruct (initContext st) as [s0|s0] eqn:Hinit; [|discriminate]. cbn [and_then].
  destruct (initContext_result st s0 Hinit) as (Hpage & _ & _ & _ & ctx & Hctx & Hstate & _).
  rewrite <- Hpage in Hstate. rewrite Hctx.
  assert (Hsame : ∀ s c, audioCtx s = Some c →
            (state c = running ∨ userActivated (page s) = false) →
            (ambientGain s = None ∨ ambientStarted s = true) →
            startAmbient s = Normal s).
  { intros s c Hc Hs Hguard. unfold startAmbient.
    rewrite (initContext_fixed s c Hc Hs). cbn [and_then]. rewrite Hc.
    destruct (ambientGain s); [|reflexivity].
    destruct Hguard as [? | ->]; [discriminate | reflexivity]. }
  destruct (ambientGain s0) as [ag|] eqn:Hag.
  - destruct (ambientStarted s0) eqn:Hstarted.
    + intros [= <-]. eapply Hsame; eauto.
    + intros [= <-].
      match goal with |- startAmbient (start_worker ?s) = _ =>
        destruct (start_worker_audio s) as (Ha & Hg & Hs);
        destruct (start_worker_page_flags s) as (Hua & _) end.
      eapply Hsame.
      * rewrite Ha. reflexivity.
      * rewrite ambient_blocks_keep_the_state, Hua. exact Hstate.
      * right. rewrite Hs. reflexivity.
  - intros [= <-]. eapply Hsame; eauto.
Qed.

Lemma startAmbient_is_idempotent_witness :
  ∃ st1, startAmbient (initial unlocked_page) = Normal st1 ∧
    startAmbient st1 = Normal st1 ∧ drones st1 = 2%nat.
Proof.
  destruct (startAmbient_adds_two_drones (initial unlocked_page) eq_refl eq_refl)
    as (st1 & Hstart & Hdrones & _).
  exists st1. split; [exact Hstart|]. split; [|exact Hdrones].
  exact (startAmbient_is_idempotent _ _ Hstart).
Defined.

Lemma pretty_Z_not_empty (i : Z) : String.eqb (pretty i) "" = false.
Proof.
  destruct (String.eqb_spec (pretty i) "") as [Hempty|]; [|reflexivity].
  pose proof (StoredPosition.parseInt_pretty i) as Hread.
  rewrite Hempty in Hread. discriminate.
Qed.

(** The worker [start_worker] creates, when the page has workers. *)
Lemma start_worker_handle (st : State) :
  workerSupport (page st) = Worker_constructs →
  let stored := default "" (sessionStorage (page st) !! "ambient_melody_index") in
  let k := length (workers (page st)) in
  audioWorker (start_worker st) = Some k ∧
  workers (page (start_worker st)) =
    workers (page st) ++
      [ {| script := "audio-worker.js";
           posted := [Protocol.start (parseInt (if String.eqb stored "" then "0" else stored))];
           has_onmessage := true; terminated := false |} ] ∧
  intervals (page (start_worker st)) = intervals (page st) ∧
  ambientTimer (start_worker st) = ambientTimer st ∧
  sessionStorage (page (start_worker st)) = sessionStorage (page st).
Proof.
  intros Hws stored k. unfold start_worker. rewrite Hws.
  cbn -[parseInt String.eqb]. repeat split.
  unfold post_to, set_onmessage. cbn -[parseInt String.eqb].
  rewrite !WebAudioFacts.alter_at_length. reflexivity.
Qed.

Lemma handler_stores_the_index (now : Z) (data : WorkerMessage) (i : Z) (st : State) :
  msg_currentIndex data = Some i →
  sessionStorage (page (final (onmessage now data st))) !! "ambient_melody_index"
    = Some (pretty i).
Proof.
  intros Hidx. unfold onmessage. rewrite Hidx.
  destruct data as [n d p ts j | j | s | ts s]; cbn in *; try discriminate.
  - destruct (audioCtx st); cbn; [|apply lookup_insert_eq].
    destruct (is_stale now ts); cbn; [apply lookup_insert_eq|].
    destruct (ambientGain st); cbn; apply lookup_insert_eq.
  - apply lookup_insert_eq.
Qed.

(** What [startAmbient] posts to the worker it creates. *)
Lemma startAmbient_posts_the_stored_index (st2 : State) :
  workerSupport (page st2) = Worker_constructs →
  ready st2 → ambientStarted st2 = false →
  let stored := default "" (sessionStorage (page st2) !! "ambient_melody_index") in
  ∃ st3 k h, startAmbient st2 = Normal st3 ∧
    audioWorker st3 = Some k ∧ workers (page st3) !! k = Some h ∧
    has_onmessage h = true ∧ terminated h = false ∧
    posted h = [Protocol.start (parseInt (if String.eqb stored "" then "0" else stored))].
Proof.
  intros Hws Hready Hidle stored.
  destruct (initContext_ready st2 Hready) as (s0 & ctx & ag & Hinit & Hctx & Hag & _ & Hst).
  destruct (initContext_result st2 s0 Hinit) as (Hpage & _).
  unfold startAmbient. rewrite Hinit. cbn [and_then]. rewrite Hctx, Hag, Hst, Hidle.
  eexists _, _, _. split; [reflexivity|].
  match goal with |- context [start_worker ?s] =>
    assert (Hws' : workerSupport (page s) = Worker_constructs) by (cbn; by rewrite Hpage);
    destruct (start_worker_handle s Hws') as (Hk & Hw & _) end.
  split; [exact Hk|]. split.
  { rewrite Hw. apply list_lookup_middle. reflexivity. }
  split; [reflexivity|]. split; [reflexivity|].
  cbn [posted page with_audioCtx with_ambientStarted]. rewrite Hpage. reflexivity.
Qed.

Lemma startAmbient_resumes_at (st2 : State) (i : Z) :
  workerSupport (page st2) = Worker_constructs →
  ready st2 → ambientStarted st2 = false →
  sessionStorage (page st2) !! "ambient_melody_index" = Some (pretty i) →
  ∃ st3 k h, startAmbient st2 = Normal st3 ∧
    audioWorker st3 = Some k ∧ workers (page st3) !! k = Some h ∧
    has_onmessage h = true ∧ terminated h = false ∧
    posted h = [Protocol.start (Some i)].
Proof.
  intros Hws Hready Hidle Hstored.
  destruct (startAmbient_posts_the_stored_index st2 Hws Hready Hidle)
    as (st3 & k & h & Hstart & Hk & Hh & Hon & Hlive & Hposted).
  exists st3, k, h. repeat (split; [assumption|]).
  rewrite Hposted, Hstored. cbn [default from_option id].
  rewrite pretty_Z_not_empty, StoredPosition.parseInt_pretty. reflexivity.
Qed.

(** X11: the position the handler persists is the position the next
    startAmbient resumes from: on a page that has workers and finds the
    stored index i, startAmbient creates one worker, installs the handler and
    posts {action: 'start', index: i} to it; with nothing stored it posts
    index 0. *)
Theorem stored_position_resumes_the_melody
    (now : Z) (data : WorkerMessage) (i : Z) (st st2 : State) :
  msg_currentIndex data = Some i →
  workerSupport (page st2) = Worker_constructs →
  ready st2 → ambientStarted st2 = false →
  ∃ st3 k h, startAmbient st2 = Normal st3 ∧
    audioWorker st3 = Some k ∧ workers (page st3) !! k = Some h ∧
    has_onmessage h = true ∧ terminated h = false ∧
    (sessionStorage (page st2) = sessionStorage (page (final (onmessage now data st))) →
       posted h = [Protocol.start (Some i)]) ∧
    (sessionStorage (page st2) !! "ambient_melody_index" = None →
       posted h = [Protocol.start (Some 0)]).
Proof.
  intros Hidx Hws Hready Hidle.
  destruct (startAmbient_posts_the_stored_index st2 Hws Hready Hidle)
    as (st3 & k & h & Hstart & Hk & Hh & Hon & Hlive & Hposted).
  exists st3, k, h. repeat (split; [assumption|]). split.
  - intros Hstore. rewrite Hposted, Hstore.
    rewrite (handler_stores_the_index now data i st Hidx). cbn [default from_option id].
    rewrite pretty_Z_not_empty, StoredPosition.parseInt_pretty. reflexivity.
  - intros Hnone. rewrite Hposted, Hnone. reflexivity.
Qed.

(** The handler stores position 7 on one page; the next page, loaded with
    the same session storage, starts its worker at 7. *)
Lemma stored_position_resumes_the_melody_witness :
  let st := final (startAmbient (initial unlocked_page)) in
  let st1 := final (onmessage 100 (sync_state 7) st) in
  let next_page := with_sessionStorage (sessionStorage (page st1)) unlocked_page in
  ∃ st3 k h, startAmbient (initial next_page) = Normal st3 ∧
    audioWorker st3 = Some k ∧ workers (page st3) !! k = Some h ∧
    posted h = [Protocol.start (Some 7)].
Proof.
  intros st st1 next_page.
  destruct (stored_position_resumes_the_melody 100 (sync_state 7) 7 st (initial next_page)
              eq_refl eq_refl eq_refl eq_refl)
    as (st3 & k & h & Hstart & Hk & Hh & _ & _ & Hresume & _).
  exists st3, k, h. auto using Hresume.
Defined.

End AmbientLifecycle.

(** * The ambient sources of the bridge: drones, worker and interval timer *)

Module AmbientSourcesFacts.
Import WebAudio WebAudioFacts SoundSystem SoundSystemFacts AmbientSources.

Lemma same_ambience_refl (st : State) : same_ambience st st.
Proof. by repeat split. Qed.

Lemma same_ambience_trans (a b c : State) :
  same_ambience a b → same_ambience b c → same_ambience a c.
Proof.
  intros (H1 & H2 & H3 & H4 & H5 & H6) (G1 & G2 & G3 & G4 & G5 & G6).
  repeat split; congruence.
Qed.

Lemma with_audioCtx_same_ambience (c : AudioContext) (st : State) :
  count_running_forever c = drones st → same_ambience st (with_audioCtx c st).
Proof. intros Hc. repeat split. exact Hc. Qed.

Lemma with_page_same_ambience (p : Page) (st : State) :
  workers p = workers (page st) →
  map iid (intervals p) = map iid (intervals (page st)) →
  same_ambience st (with_page p st).
Proof. intros Hw Hi. repeat split; assumption. Qed.

Lemma count_createTone (f : Q) (ty : OscillatorType) (t d v : Q) (dest : option nat)
    (st : State) :
  drones (createTone f ty t d v dest st) = drones st.
Proof.
  unfold createTone, drones.
  destruct (audioCtx st) as [ctx|] eqn:Hctx; [|by rewrite Hctx].
  destruct dest as [k|]; [|by rewrite Hctx].
  destruct (Qle_bool d 0); [by rewrite Hctx|].
  destruct ctx as [s now l c].
  unfold_audio. cbn [audioCtx with_audioCtx]. push_alter.
  rewrite List.filter_app, length_app. cbn. lia.
Qed.

Lemma count_createNote (f t d v : Q) (dest : option nat) (st : State) :
  drones (createNote f t d v dest st) = drones st.
Proof.
  unfold createNote, drones.
  destruct (audioCtx st) as [ctx|] eqn:Hctx; [|by rewrite Hctx].
  destruct dest as [k|]; [|by rewrite Hctx].
  destruct ctx as [s now l c].
  unfold_audio. cbn [audioCtx with_audioCtx]. push_alter.
  rewrite List.filter_app, length_app. cbn. lia.
Qed.

Lemma count_synthesize (note : Q) (d p : Z) (ag : nat) (ctx : AudioContext) :
  count_running_forever (synthesize note d p ag ctx) = count_running_forever ctx.
Proof.
  destruct ctx as [s now l c].
  unfold_audio. push_alter.
  rewrite List.filter_app, length_app. cbn. lia.
Qed.

Lemma createTone_fields (f : Q) (ty : OscillatorType) (t d v : Q) (dest : option nat)
    (st : State) :
  let st' := createTone f ty t d v dest st in
  audioWorker st' = audioWorker st ∧ ambientTimer st' = ambientTimer st ∧
  ambientStarted st' = ambientStarted st ∧ page st' = page st.
Proof.
  unfold createTone.
  destruct (audioCtx st) as [ctx|]; [|by repeat split].
  destruct dest as [k|]; [|by repeat split].
  destruct (Qle_bool d 0); [by repeat split|].
  cbv beta iota zeta delta [createOscillator createGain add_node].
  by repeat split.
Qed.

Lemma createNote_fields (f t d v : Q) (dest : option nat) (st : State) :
  let st' := createNote f t d v dest st in
  audioWorker st' = audioWorker st ∧ ambientTimer st' = ambientTimer st ∧
  ambientStarted st' = ambientStarted st ∧ page st' = page st.
Proof.
  unfold createNote.
  destruct (audioCtx st) as [ctx|]; [|by repeat split].
  destruct dest as [k|]; [|by repeat split].
  cbv beta iota zeta delta [createOscillator createGain createBiquadFilter add_node].
  by repeat split.
Qed.

Lemma createTone_same_ambience (f : Q) (ty : OscillatorType) (t d v : Q)
    (dest : option nat) (st : State) :
  same_ambience st (createTone f ty t d v dest st).
Proof.
  destruct (createTone_fields f ty t d v dest st) as (H1 & H2 & H3 & H4).
  split; [apply count_createTone|]. rewrite H4. by repeat split.
Qed.

Lemma createNote_same_ambience (f t d v : Q) (dest : option nat) (st : State) :
  same_ambience st (createNote f t d v dest st).
Proof.
  destruct (createNote_fields f t d v dest st) as (H1 & H2 & H3 & H4).
  split; [apply count_createNote|]. rewrite H4. by repeat split.
Qed.

Lemma initContext_same_ambience (st : State) :
  same_ambience st (final (initContext st)) ∧
  page (final (initContext st)) = page st.
Proof.
  unfold initContext.
  destruct (audioCtx st) as [ctx|] eqn:Hctx.
  - cbn [and_then]. rewrite Hctx.
    destruct (state ctx); cbn [final]; [|split; [apply same_ambience_refl | reflexivity]].
    split; [|reflexivity]. apply with_audioCtx_same_ambience.
    unfold drones. rewrite Hctx. reflexivity.
  - destruct (hasAudioContext (page st)); cbn [and_then final];
      [|split; [apply same_ambience_refl | reflexivity]].
    destruct (userActivated (page st)); cbn; (split; [|reflexivity]);
      repeat split; unfold drones; cbn; rewrite Hctx; reflexivity.
Qed.

Lemma and_then_same_ambience (c : Completion State) (k : State → Completion State)
    (st : State) :
  same_ambience st (final c) → (∀ s, same_ambience s (final (k s))) →
  same_ambience st (final (and_then c k)).
Proof.
  intros Hc Hk. destruct c as [a|a]; cbn [and_then final] in *; [|exact Hc].
  eapply same_ambience_trans; [exact Hc | apply Hk].
Qed.

Lemma sound_same_ambience (tones : State → State) (st : State) :
  (∀ s, same_ambience s (tones s)) → same_ambience st (final (sound tones st)).
Proof.
  intros Ht. unfold sound.
  apply and_then_same_ambience; [apply initContext_same_ambience|].
  intros s. destruct (audioCtx s); cbn [final]; [apply Ht | apply same_ambience_refl].
Qed.

(** A block of tones, last call first. *)
Ltac chain_same_ambience :=
  cbv zeta;
  repeat (eapply same_ambience_trans;
          [| first [apply createTone_same_ambience | apply createNote_same_ambience]]);
  apply same_ambience_refl.

Lemma sounds_same_ambience (type : string) (fn : Options → State → Completion State)
    (o : Options) (st : State) :
  sounds type = Some fn → same_ambience st (final (fn o st)).
Proof.
  unfold sounds. intros H.
  repeat match type of H with
         | (if ?b then _ else _) = _ => destruct b
         end;
    try discriminate; injection H as <-;
    apply sound_same_ambience; intros s; cbn -[createNote createTone];
    chain_same_ambience.
Qed.

Lemma console_warn_same_ambience (msg : string) (st : State) :
  same_ambience st (with_page (console_warn msg (page st)) st).
Proof. by apply with_page_same_ambience. Qed.

Lemma play_same_ambience (type : string) (options : option Options) (st : State) :
  same_ambience st (final (play type options st)).
Proof.
  unfold play.
  assert (Hbody : same_ambience st
                    (final (play_body type (default (mkOptions None) options) st))).
  { unfold play_body. apply and_then_same_ambience.
    - destruct (audioCtx st); [apply same_ambience_refl | apply initContext_same_ambience].
    - intros s. destruct (sounds type) as [fn|] eqn:Hfn; [by eapply sounds_same_ambience|].
      destruct (inheritedFunction (page s) type) as [[|]|]; apply same_ambience_refl. }
  destruct (play_body type (default (mkOptions None) options) st) as [a|a];
    cbn [try_catch final] in *; [exact Hbody|].
  eapply same_ambience_trans; [exact Hbody | apply console_warn_same_ambience].
Qed.

Lemma onmessage_same_ambience (now : Z) (data : WorkerMessage) (st : State) :
  same_ambience st (final (onmessage now data st)).
Proof.
  unfold onmessage.
  set (st1 := match msg_currentIndex data with
              | Some i => with_page (setItem "ambient_melody_index" i (page st)) st
              | None => st
              end).
  assert (H1 : same_ambience st st1).
  { subst st1. destruct (msg_currentIndex data);
      [by apply with_page_same_ambience | apply same_ambience_refl]. }
  eapply same_ambience_trans; [exact H1|].
  destruct data as [n d p ts j | j | s | ts s]; cbn [final]; try apply same_ambience_refl.
  destruct (audioCtx st1) as [ctx|] eqn:Hctx; cbn [final]; [|apply same_ambience_refl].
  destruct (is_stale now ts); cbn [final]; [apply console_warn_same_ambience|].
  destruct (ambientGain st1); cbn [final]; [|apply same_ambience_refl].
  apply with_audioCtx_same_ambience. unfold drones. rewrite Hctx. apply count_synthesize.
Qed.

Lemma interval_callback_same_ambience (i : nat) (st : State) :
  same_ambience st (interval_callback i st) ∧ page (interval_callback i st) = page st.
Proof.
  unfold interval_callback.
  destruct (audioCtx st); [|split; [apply same_ambience_refl | reflexivity]].
  destruct (MELODY_NOTES !! _); [|split; [apply same_ambience_refl | reflexivity]].
  split; [chain_same_ambience|]. cbv zeta.
  match goal with |- page (createNote ?a ?b ?c ?d ?e ?s) = _ =>
    destruct (createNote_fields a b c d e s) as (_ & _ & _ & ->) end.
  match goal with |- page (createNote ?a ?b ?c ?d ?e ?s) = _ =>
    destruct (createNote_fields a b c d e s) as (_ & _ & _ & ->) end.
  reflexivity.
Qed.

Lemma interval_fires_same_ambience (id : positive) (st : State) :
  same_ambience st (interval_fires id st).
Proof.
  unfold interval_fires.
  destruct (List.find _ _) as [reg|]; [|apply same_ambience_refl].
  destruct (audioCtx st) eqn:Hctx; [|apply same_ambience_refl].
  destruct (interval_callback_same_ambience (counter reg) st) as [Hcb Hpage].
  eapply same_ambience_trans; [exact Hcb|].
  apply with_page_same_ambience; [reflexivity|].
  cbn. rewrite map_map. apply map_ext. intros i. destruct (Pos.eqb (iid i) id); reflexivity.
Qed.

(** Every event but startAmbient() and stopAmbient() leaves the ambient
    sources alone. *)
Lemma step_same_ambience (e : Event) (st : State) :
  match e with StartAmbient | StopAmbient _ => False | _ => True end →
  same_ambience st (step e st).
Proof.
  destruct e as [|v|type options|now data|id| |dt]; cbn [step]; intros He.
  - destruct He.
  - destruct He.
  - apply play_same_ambience.
  - destruct (listening st); [apply onmessage_same_ambience | apply same_ambience_refl].
  - apply interval_fires_same_ambience.
  - by apply with_page_same_ambience.
  - destruct (audioCtx st) as [ctx|] eqn:Hctx; [|apply same_ambience_refl].
    destruct (state ctx); [apply same_ambience_refl|].
    apply with_audioCtx_same_ambience. unfold drones. rewrite Hctx. reflexivity.
Qed.

Lemma startAmbient_drones (st : State) :
  drones (final (startAmbient st)) = drones st ∨
  drones (final (startAmbient st)) = (drones st + 2)%nat.
Proof.
  unfold startAmbient.
  destruct (initContext_same_ambience st) as [(Hd & _) _].
  destruct (initContext st) as [st1|st1]; cbn [and_then final] in *; [|by left].
  destruct (audioCtx st1) as [ctx|] eqn:Hctx; [|by left].
  destruct (ambientGain st1) as [ag|]; [|by left].
  destruct (ambientStarted st1); cbn [final]; [by left|].
  right.
  match goal with |- context [start_worker ?s] =>
    destruct (start_worker_audio s) as (Ha & _) end.
  unfold drones at 1. rewrite Ha. cbn [audioCtx with_audioCtx].
  rewrite count_drone_layer, count_fade_in, <- Hd. unfold drones. rewrite Hctx. reflexivity.
Qed.

Lemma step_drones (e : Event) (st : State) :
  (is_StartAmbient e = false → drones (step e st) = drones st) ∧
  (drones st <= drones (step e st) <= drones st + (if is_StartAmbient e then 2 else 0))%nat.
Proof.
  assert (Hframe : is_StartAmbient e = false → drones (step e st) = drones st).
  { destruct e as [|v|type options|now data|id| |dt]; intros He; try discriminate;
      try (by apply step_same_ambience).
    apply stopAmbient_drones. }
  split; [exact Hframe|].
  destruct e as [|v|type options|now data|id| |dt];
    try (rewrite Hframe by reflexivity; cbn; lia).
  cbn [step is_StartAmbient]. destruct (startAmbient_drones st) as [-> | ->]; lia.
Qed.

(** X14: the drones are added by startAmbient() alone, two at most per
    call, and nothing ever takes one away: no call of play(), no message of
    the worker, no tick of the legacy interval and no stopAmbient() starts an
    oscillator without a stop time or stops one that has none. *)
Theorem drones_come_from_startAmbient_alone (es : list Event) (st : State) :
  (∀ e, is_StartAmbient e = false → drones (step e st) = drones st) ∧
  (drones st <= drones (run es st)
             <= drones st + 2 * length (List.filter is_StartAmbient es))%nat.
Proof.
  split; [intros e; apply step_drones|].
  revert st. induction es as [|e es IH]; intros st; [cbn; lia|].
  change (run (e :: es) st) with (run es (step e st)).
  specialize (IH (step e st)).
  destruct (step_drones e st) as [_ Hstep].
  cbn [List.filter]. destruct (is_StartAmbient e); cbn [length]; lia.
Qed.

Lemma drones_come_from_startAmbient_alone_witness :
  let st := final (startAmbient (initial unlocked_page)) in
  let es := [StopAmbient 0.65; StartAmbient; Play "hover" None] in
  drones (step (Play "click" None) st) = drones st ∧
  (drones st <= drones (run es st)
             <= drones st + 2 * length (List.filter is_StartAmbient es))%nat.
Proof.
  intros st es.
  destruct (drones_come_from_startAmbient_alone es st) as [Hframe Hbounds].
  split; [exact (Hframe (Play "click" None) eq_refl) | exact Hbounds].
Defined.

Lemma same_ambience_listening (st st' : State) :
  same_ambience st st' → listening st' = listening st.
Proof.
  intros (_ & Hw & _ & _ & Hws & _). unfold listening. by rewrite Hw, Hws.
Qed.

Lemma same_ambience_tidy (st st' : State) :
  same_ambience st st' → tidy st → tidy st'.
Proof.
  intros Hsame (T1 & T2 & T3 & T4 & T5).
  pose proof (same_ambience_listening st st' Hsame) as Hl.
  destruct Hsame as (_ & Hw & Ht & Hs & Hws & Hi).
  unfold tidy. rewrite Hw, Ht, Hs, Hws, Hi, Hl.
  exact (conj T1 (conj T2 (conj T3 (conj T4 T5)))).
Qed.

Lemma stopAmbient_page (v : Q) (st : State) :
  audioWorker (stopAmbient v st) = None ∧
  ambientTimer (stopAmbient v st) = None ∧
  ambientStarted (stopAmbient v st) = false ∧
  workers (page (stopAmbient v st)) =
    match audioWorker st with
    | Some k => workers (terminate k (post_to k Protocol.stop (page st)))
    | None => workers (page st)
    end ∧
  intervals (page (stopAmbient v st)) =
    match ambientTimer st with
    | Some id => filter (fun i => iid i ≠ id) (intervals (page st))
    | None => intervals (page st)
    end.
Proof. stopAmbient_cases st; repeat split; reflexivity. Qed.

Lemma stopAmbient_tidy (v : Q) (st : State) : tidy st → tidy (stopAmbient v st).
Proof.
  intros (T1 & T2 & T3 & T4 & T5).
  destruct (stopAmbient_page v st) as (Hw & Ht & Hs & Hws & Hi).
  unfold tidy, listening. rewrite Hw, Ht, Hs, Hws, Hi.
  split; [|split; [|split; [discriminate | by split]]].
  - destruct (ambientTimer st) as [id|]; [|exact T1].
    destruct (intervals (page st)) as [|i [|i' rest]]; try discriminate.
    injection T1 as Hid. rewrite filter_cons_False; [reflexivity|]. intros Hne. by apply Hne.
  - intros k' h' Hlook Hlive. exfalso.
    destruct (audioWorker st) as [k|] eqn:Hk.
    + cbn in Hlook. destruct (decide (k' = k)) as [->|Hne].
      * rewrite !list_lookup_alter_eq in Hlook.
        destruct (workers (page st) !! k); cbn in Hlook; [|discriminate].
        injection Hlook as <-. discriminate.
      * rewrite !list_lookup_alter_ne in Hlook by done.
        specialize (T2 k' h' Hlook Hlive). congruence.
    + specialize (T2 k' h' Hlook Hlive). discriminate.
Qed.

(** What the three ways through the try block of [startAmbient], and the
    branch without [window.Worker], leave behind. *)
Lemma start_worker_sources (st : State) :
  ambientStarted (start_worker st) = ambientStarted st ∧
  match workerSupport (page st) with
  | Worker_constructs =>
      audioWorker (start_worker st) = Some (length (workers (page st))) ∧
      (∃ h, workers (page (start_worker st)) = workers (page st) ++ [h] ∧
            terminated h = false ∧ has_onmessage h = true) ∧
      intervals (page (start_worker st)) = intervals (page st) ∧
      ambientTimer (start_worker st) = ambientTimer st
  | storage_throws =>
      audioWorker (start_worker st) = Some (length (workers (page st))) ∧
      (∃ h, workers (page (start_worker st)) = workers (page st) ++ [h] ∧
            terminated h = false ∧ has_onmessage h = false) ∧
      ∃ i, intervals (page (start_worker st)) = intervals (page st) ++ [i] ∧
           ambientTimer (start_worker st) = Some (iid i)
  | no_Worker | Worker_throws =>
      audioWorker (start_worker st) = audioWorker st ∧
      workers (page (start_worker st)) = workers (page st) ∧
      ∃ i, intervals (page (start_worker st)) = intervals (page st) ++ [i] ∧
           ambientTimer (start_worker st) = Some (iid i)
  end.
Proof.
  split; [apply start_worker_audio|].
  destruct (workerSupport (page st)) eqn:Hws.
  - unfold start_worker, setupLegacyInterval. rewrite Hws. cbn. eauto.
  - unfold start_worker, setupLegacyInterval. rewrite Hws. cbn. eauto.
  - unfold start_worker, setupLegacyInterval. rewrite Hws. cbn. eauto 10.
  - destruct (AmbientLifecycle.start_worker_handle st Hws) as (Hk & Hw & Hi & Ht & _).
    split; [exact Hk|]. split; [|by split]. eexists. split; [exact Hw|]. by split.
Qed.

Lemma new_worker_is_the_only_live_one (st : State) (ws : list WorkerHandle) (h : WorkerHandle) :
  (∀ k' h', workers (page st) !! k' = Some h' → terminated h' = false → None = Some k') →
  ws = workers (page st) ++ [h] → terminated h = false →
  (∀ k' h', ws !! k' = Some h' → terminated h' = false →
            Some (length (workers (page st))) = Some k') ∧
  (∀ k', Some (length (workers (page st))) = Some k' →
         ∃ h', ws !! k' = Some h' ∧ terminated h' = false).
Proof.
  intros T2 -> Hlive. split.
  - intros k' h' Hlook Hl.
    destruct (decide (k' < length (workers (page st)))%nat) as [Hlt|Hge].
    + rewrite lookup_app_l in Hlook by exact Hlt.
      specialize (T2 k' h' Hlook Hl). discriminate.
    + apply lookup_lt_Some in Hlook. rewrite length_app in Hlook. cbn in Hlook.
      f_equal. lia.
  - intros k' [= <-]. exists h.
    rewrite lookup_app_r by lia. rewrite Nat.sub_diag. by split.
Qed.

Lemma start_worker_tidy (st : State) :
  tidy st → audioWorker st = None → ambientTimer st = None → ambientStarted st = true →
  tidy (start_worker st).
Proof.
  intros (T1 & T2 & T3 & T4 & T5) Hk Ht Hs.
  destruct (start_worker_sources st) as [Hstarted Hsrc].
  rewrite Ht in T1. rewrite Hk in T2, T3.
  unfold tidy, listening. rewrite Hstarted, Hs.
  destruct (workerSupport (page st)).
  - destruct Hsrc as (Hw & Hws & i & Hi & Htimer).
    rewrite Hw, Hws, Hi, Htimer, Hk, map_app, T1.
    split; [reflexivity|]. split; [exact T2|]. split; [exact T3|].
    split; discriminate.
  - destruct Hsrc as (Hw & Hws & i & Hi & Htimer).
    rewrite Hw, Hws, Hi, Htimer, Hk, map_app, T1.
    split; [reflexivity|]. split; [exact T2|]. split; [exact T3|].
    split; discriminate.
  - destruct Hsrc as (Hw & (h & Hws & Hlive & Hon) & i & Hi & Htimer).
    destruct (new_worker_is_the_only_live_one st _ h T2 Hws Hlive) as [N2 N3].
    rewrite Hw, Hi, Htimer, map_app, T1.
    split; [reflexivity|]. split; [exact N2|]. split; [exact N3|].
    split; [discriminate|].
    rewrite Hws, lookup_app_r by lia. rewrite Nat.sub_diag. cbn. rewrite Hon. discriminate.
  - destruct Hsrc as (Hw & (h & Hws & Hlive & Hon) & Hi & Htimer).
    destruct (new_worker_is_the_only_live_one st _ h T2 Hws Hlive) as [N2 N3].
    rewrite Hw, Hi, Htimer, Ht, T1.
    split; [reflexivity|]. split; [exact N2|]. split; [exact N3|].
    split; [discriminate | reflexivity].
Qed.

Lemma startAmbient_tidy (st : State) : tidy st → tidy (final (startAmbient st)).
Proof.
  intros Htidy. unfold startAmbient.
  destruct (initContext_same_ambience st) as [Hsame _].
  pose proof (same_ambience_tidy _ _ Hsame Htidy) as Htidy1.
  destruct (initContext st) as [st1|st1]; cbn [and_then final] in *; [|exact Htidy1].
  destruct (audioCtx st1) as [ctx|]; [|exact Htidy1].
  destruct (ambientGain st1) as [ag|]; [|exact Htidy1].
  destruct (ambientStarted st1) eqn:Hstarted; cbn [final]; [exact Htidy1|].
  pose proof Htidy1 as (T1 & T2 & T3 & T4 & T5).
  destruct (T4 Hstarted) as [Hk Ht].
  apply start_worker_tidy; simpl_state; [|exact Hk | exact Ht | reflexivity].
  unfold tidy, listening in *. simpl_state.
  split; [exact T1|]. split; [exact T2|]. split; [exact T3|].
  split; [discriminate | exact T5].
Qed.

Lemma step_tidy (e : Event) (st : State) : tidy st → tidy (step e st).
Proof.
  intros Htidy.
  destruct e as [|v|type options|now data|id| |dt];
    try (eapply same_ambience_tidy; [by apply step_same_ambience | exact Htidy]).
  - by apply startAmbient_tidy.
  - by apply stopAmbient_tidy.
Qed.

Lemma run_tidy (es : list Event) (st : State) : tidy st → tidy (run es st).
Proof.
  revert st. induction es as [|e es IH]; intros st Htidy; [exact Htidy|].
  change (run (e :: es) st) with (run es (step e st)). apply IH. by apply step_tidy.
Qed.

(** X15: unlike the drones, the worker and the legacy interval do not
    pile up.  On a page that starts with no worker and no interval, in every
    state the sound system reaches: at most one interval is registered and it
    is the one ambientTimer holds; a worker that was not terminated is the one
    audioWorker holds, so there is at most one, and the worker audioWorker
    holds is live; while the ambience is not started there is neither; and a
    worker that is listened to never has the interval next to it, so the
    melody is never fed twice.  Worker and interval do exist together after a
    startAmbient() whose sessionStorage.getItem threw: the worker is then left
    without a handler beside the fallback interval, until stopAmbient()
    terminates the one and clears the other. *)
Theorem worker_and_interval_never_pile_up (es : list Event) (p : Page) :
  workers p = [] → intervals p = [] →
  let st := run es (initial p) in
  tidy st ∧
  (length (intervals (page st)) <= 1)%nat ∧
  (∀ k k' h h', workers (page st) !! k = Some h → terminated h = false →
                workers (page st) !! k' = Some h' → terminated h' = false → k = k') ∧
  (listening st = true → intervals (page st) = []) ∧
  (ambientStarted st = false →
   intervals (page st) = [] ∧ Forall (fun h => terminated h = true) (workers (page st))) ∧
  (workerSupport p = storage_throws → hasAudioContext p = true →
   let st1 := step StartAmbient (initial p) in
   (∃ k h i, audioWorker st1 = Some k ∧ workers (page st1) = [h] ∧
      terminated h = false ∧ has_onmessage h = false ∧ posted h = [] ∧
      intervals (page st1) = [i] ∧ ambientTimer st1 = Some (iid i)) ∧
   ∀ v, intervals (page (step (StopAmbient v) st1)) = [] ∧
        Forall (fun h => terminated h = true) (workers (page (step (StopAmbient v) st1)))).
Proof.
  intros Hw Hi st.
  assert (Hinit : tidy (initial p)).
  { unfold tidy, listening. cbn. rewrite Hw, Hi.
    split; [reflexivity|]. split; [intros k h Hl; by rewrite lookup_nil in Hl|].
    split; [discriminate|]. split; [done | discriminate]. }
  assert (Hreleased : ∀ s, tidy s → ambientStarted s = false →
            intervals (page s) = [] ∧ Forall (fun h => terminated h = true) (workers (page s))).
  { intros s (T1 & T2 & T3 & T4 & T5) Hidle. destruct (T4 Hidle) as [Hk Ht].
    rewrite Ht in T1. split; [by apply map_eq_nil in T1|].
    apply Forall_lookup. intros k h Hlook.
    destruct (terminated h) eqn:Hlive; [reflexivity|].
    specialize (T2 k h Hlook Hlive). congruence. }
  assert (Htidy : tidy st) by (by apply run_tidy).
  split; [exact Htidy|]. pose proof Htidy as (T1 & T2 & T3 & T4 & T5).
  split; [|split; [|split; [|split]]].
  - rewrite <- (length_map iid), T1. destruct (ambientTimer st); cbn; lia.
  - intros k k' h h' Hk Hlive Hk' Hlive'.
    pose proof (T2 k h Hk Hlive). pose proof (T2 k' h' Hk' Hlive'). congruence.
  - intros Hl. rewrite (T5 Hl) in T1. by apply map_eq_nil in T1.
  - by apply Hreleased.
  - intros Hstore Hcap st1. split.
    + subst st1. cbn [step]. unfold startAmbient.
      destruct (initContext_ready (initial p) Hcap)
        as (s0 & ctx & ag & Hinit0 & Hctx & Hag & _ & Hst).
      destruct (initContext_same_ambience (initial p)) as [_ Hpage].
      rewrite Hinit0 in Hpage |- *. cbn [final and_then] in *.
      rewrite Hctx, Hag, Hst. cbn [initial ambientStarted final].
      unfold start_worker, setupLegacyInterval. simpl_state. rewrite Hpage.
      cbn [initial page]. rewrite Hstore. cbn. rewrite Hw, Hi. cbn. eauto 12.
    + intros v. apply Hreleased.
      * apply step_tidy, step_tidy. exact Hinit.
      * cbn [step]. apply stopAmbient_page.
Qed.

Lemma worker_and_interval_never_pile_up_witness :
  let p := {| hasAudioContext := true; userActivated := true;
              workerSupport := storage_throws; inheritedFunction := fun _ => None;
              sessionStorage := ∅; workers := []; intervals := [];
              nextIntervalId := 1%positive; console := [] |} in
  let es := [StartAmbient; StopAmbient 0.65; StartAmbient; Play "click" None] in
  let st := run es (initial p) in
  tidy st ∧ (length (intervals (page st)) <= 1)%nat ∧
  ∃ k h i, audioWorker (step StartAmbient (initial p)) = Some k ∧
    workers (page (step StartAmbient (initial p))) = [h] ∧
    terminated h = false ∧ has_onmessage h = false ∧
    intervals (page (step StartAmbient (initial p))) = [i].
Proof.
  intros p es st.
  destruct (worker_and_interval_never_pile_up es p eq_refl eq_refl)
    as (H1 & H2 & _ & _ & _ & H6).
  split; [exact H1|]. split; [exact H2|].
  destruct (H6 eq_refl eq_refl) as [(k & h & i & Hk & Hws & Hlive & Hon & _ & Hi & _) _].
  exists k, h, i. by repeat split.
Defined.

End AmbientSourcesFacts.

(** * The automation the bridge schedules *)

Module Automation.
Import WebAudio WebAudioFacts SoundSystem SoundSystemFacts AmbientSources.
Local Open Scope Q_scope.

Lemma clamp_bounds (x lo hi : Q) : lo <= hi → lo <= clamp x lo hi ∧ clamp x lo hi <= hi.
Proof.
  intros Hle. unfold clamp. split.
  - apply Q.le_max_l.
  - apply Q.max_lub; [exact Hle | apply Q.le_min_l].
Qed.

Lemma clamp_positive (x lo hi : Q) : 0 < lo → negb (Qle_bool (clamp x lo hi) 0) = true.
Proof.
  intros Hlo. apply negb_true_iff. destruct (Qle_bool (clamp x lo hi) 0) eqn:Hle; [|reflexivity].
  apply Qle_bool_iff in Hle. exfalso.
  apply (Qlt_irrefl 0). eapply Qlt_le_trans; [exact Hlo|].
  eapply Qle_trans; [|exact Hle]. unfold clamp. apply Q.le_max_l.
Qed.

Lemma on_param_ramps (p : ParamName) (f : AudioParam → AudioParam) (n : AudioNode) :
  (∀ a, forallb ramp_target_positive (events a) = true →
        forallb ramp_target_positive (events (f a)) = true) →
  node_ramps_positive n = true → node_ramps_positive (on_param p f n) = true.
Proof.
  intros Hf. unfold node_ramps_positive.
  destruct n, p; cbn; rewrite ?andb_true_r; try done;
    rewrite ?andb_true_iff; intuition auto.
Qed.

Lemma alter_ramps (g : AudioNode → AudioNode) (k : nat) (l : list AudioNode) :
  (∀ n, node_ramps_positive n = true → node_ramps_positive (g n) = true) →
  forallb node_ramps_positive l = true →
  forallb node_ramps_positive (alter g k l) = true.
Proof.
  intros Hg. revert k. induction l as [|x l IH]; intros [|k]; cbn; try done;
    rewrite !andb_true_iff; intros [H1 H2]; split; auto.
Qed.

Lemma cancel_keeps_ramps (t : Q) (a : AudioParam) :
  forallb ramp_target_positive (events a) = true →
  forallb ramp_target_positive
    (filter (fun e => Qle_bool t (event_time e) = false) (events a)) = true.
Proof.
  rewrite !forallb_forall. intros H e He. apply H.
  apply list_elem_of_In, list_elem_of_filter in He. apply list_elem_of_In. tauto.
Qed.

Lemma schedule_keeps_ramps (e : AutomationEvent) (a : AudioParam) :
  ramp_target_positive e = true →
  forallb ramp_target_positive (events a) = true →
  forallb ramp_target_positive (events (schedule e a)) = true.
Proof.
  intros He Ha. cbn. rewrite forallb_app, Ha. cbn. by rewrite He.
Qed.

Lemma createTone_ramps (f : Q) (ty : OscillatorType) (t d v : Q) (dest : option nat)
    (st : State) :
  ramps_positive st = true → ramps_positive (createTone f ty t d v dest st) = true.
Proof.
  unfold createTone, ramps_positive.
  destruct (audioCtx st) as [ctx|] eqn:Hctx; [|by rewrite Hctx].
  destruct dest as [k|]; [|by rewrite Hctx].
  destruct (Qle_bool d 0); [by rewrite Hctx|].
  destruct ctx as [s now l c]. unfold context_ramps_positive.
  unfold_audio. cbn [audioCtx with_audioCtx]. push_alter.
  rewrite forallb_app. intros ->. reflexivity.
Qed.

Lemma createNote_ramps (f t d v : Q) (dest : option nat) (st : State) :
  ramps_positive st = true → ramps_positive (createNote f t d v dest st) = true.
Proof.
  unfold createNote, ramps_positive.
  destruct (audioCtx st) as [ctx|] eqn:Hctx; [|by rewrite Hctx].
  destruct dest as [k|]; [|by rewrite Hctx].
  destruct ctx as [s now l c]. unfold context_ramps_positive.
  unfold_audio. cbn [audioCtx with_audioCtx]. push_alter.
  rewrite forallb_app. intros ->.
  cbn -[clamp SAFE_MIN_VOLUME]. rewrite clamp_positive by reflexivity. reflexivity.
Qed.

Lemma synthesize_ramps (note : Q) (d p : Z) (ag : nat) (ctx : AudioContext) :
  context_ramps_positive ctx = true →
  context_ramps_positive (synthesize note d p ag ctx) = true.
Proof.
  destruct ctx as [s now l c]. unfold context_ramps_positive.
  unfold_audio. push_alter.
  rewrite forallb_app. intros ->. reflexivity.
Qed.

Lemma fade_ramps (v0 v1 : Q) (ag : nat) (ctx : AudioContext) :
  let now := currentTime ctx in
  context_ramps_positive ctx = true →
  context_ramps_positive
    (param_linearRampToValueAtTime ag gain v1 (now + 0.5)
       (param_setValueAtTime ag gain v0 now
          (param_cancelScheduledValues ag gain now ctx))) = true.
Proof.
  destruct ctx as [s now l c]. unfold context_ramps_positive.
  unfold_audio. intros Hl.
  repeat (apply alter_ramps; [intros n; apply on_param_ramps; intros a Ha|]);
    try exact Hl.
  - by apply schedule_keeps_ramps.
  - by apply schedule_keeps_ramps.
  - by apply cancel_keeps_ramps.
Qed.

Lemma fade_in_ramps (ag : nat) (ctx : AudioContext) :
  context_ramps_positive ctx = true → context_ramps_positive (fade_in ag ctx) = true.
Proof. exact (fade_ramps 0.0 0.65 ag ctx). Qed.

Lemma fade_out_ramps (v : Q) (ag : nat) (ctx : AudioContext) :
  context_ramps_positive ctx = true → context_ramps_positive (fade_out v ag ctx) = true.
Proof. exact (fade_ramps v 0.0 ag ctx). Qed.

Lemma drone_layer_ramps (ag : nat) (ctx : AudioContext) :
  context_ramps_positive ctx = true → context_ramps_positive (drone_layer ag ctx) = true.
Proof.
  unfold context_ramps_positive. rewrite drone_layer_nodes, forallb_app.
  intros ->. reflexivity.
Qed.

Lemma initContext_ramps (st : State) :
  ramps_positive st = true → ramps_positive (final (initContext st)) = true.
Proof.
  unfold initContext, ramps_positive.
  destruct (audioCtx st) as [ctx|] eqn:Hctx.
  - cbn [and_then]. rewrite Hctx.
    destruct (state ctx); cbn [final]; [|by rewrite Hctx].
    cbn. by destruct ctx.
  - intros _. destruct (hasAudioContext (page st)); cbn [and_then final]; [|by rewrite Hctx].
    destruct (userActivated (page st)); reflexivity.
Qed.

Lemma and_then_ramps (c : Completion State) (k : State → Completion State) :
  ramps_positive (final c) = true →
  (∀ s, ramps_positive s = true → ramps_positive (final (k s)) = true) →
  ramps_positive (final (and_then c k)) = true.
Proof. intros Hc Hk. destruct c as [a|a]; cbn [and_then final] in *; auto. Qed.

Lemma sound_ramps (tones : State → State) (st : State) :
  (∀ s, ramps_positive s = true → ramps_positive (tones s) = true) →
  ramps_positive st = true → ramps_positive (final (sound tones st)) = true.
Proof.
  intros Ht Hst. unfold sound. apply and_then_ramps; [by apply initContext_ramps|].
  intros s Hs. destruct (audioCtx s); cbn [final]; auto.
Qed.

Lemma sounds_ramps (type : string) (fn : Options → State → Completion State)
    (o : Options) (st : State) :
  sounds type = Some fn →
  ramps_positive st = true → ramps_positive (final (fn o st)) = true.
Proof.
  unfold sounds. intros H.
  repeat match type of H with
         | (if ?b then _ else _) = _ => destruct b
         end;
    try discriminate; injection H as <-;
    apply sound_ramps; intros s Hs; cbn -[createNote createTone]; cbv zeta;
    repeat first [apply createTone_ramps | apply createNote_ramps]; exact Hs.
Qed.

Lemma with_page_ramps (p : Page) (st : State) :
  ramps_positive (with_page p st) = ramps_positive st.
Proof. reflexivity. Qed.

Lemma play_ramps (type : string) (options : option Options) (st : State) :
  ramps_positive st = true → ramps_positive (final (play type options st)) = true.
Proof.
  intros Hst. unfold play.
  assert (Hbody : ramps_positive
                    (final (play_body type (default (mkOptions None) options) st)) = true).
  { unfold play_body. apply and_then_ramps.
    - destruct (audioCtx st); [exact Hst | by apply initContext_ramps].
    - intros s Hs. destruct (sounds type) as [fn|] eqn:Hfn; [by eapply sounds_ramps|].
      destruct (inheritedFunction (page s) type) as [[|]|]; exact Hs. }
  destruct (play_body type (default (mkOptions None) options) st) as [a|a];
    cbn [try_catch final] in *; exact Hbody.
Qed.

Lemma onmessage_ramps (now : Z) (data : WorkerMessage) (st : State) :
  ramps_positive st = true → ramps_positive (final (onmessage now data st)) = true.
Proof.
  intros Hst. unfold onmessage.
  set (st1 := match msg_currentIndex data with
              | Some i => with_page (setItem "ambient_melody_index" i (page st)) st
              | None => st
              end).
  assert (H1 : ramps_positive st1 = true).
  { subst st1. destruct (msg_currentIndex data); exact Hst. }
  destruct data as [n d p ts j | j | s | ts s]; cbn [final]; try exact H1.
  destruct (audioCtx st1) as [ctx|] eqn:Hctx; cbn [final]; [|exact H1].
  destruct (is_stale now ts); cbn [final]; [exact H1|].
  destruct (ambientGain st1); cbn [final]; [|exact H1].
  unfold ramps_positive in *. rewrite Hctx in H1. cbn [audioCtx with_audioCtx].
  by apply synthesize_ramps.
Qed.

Lemma interval_fires_ramps (id : positive) (st : State) :
  ramps_positive st = true → ramps_positive (interval_fires id st) = true.
Proof.
  intros Hst. unfold interval_fires.
  destruct (List.find _ _) as [reg|]; [|exact Hst].
  destruct (audioCtx st) eqn:Hctx; [|exact Hst].
  rewrite with_page_ramps. unfold interval_callback. rewrite Hctx.
  destruct (MELODY_NOTES !! _); [|exact Hst].
  cbv zeta. repeat apply createNote_ramps. exact Hst.
Qed.

Lemma startAmbient_ramps (st : State) :
  ramps_positive st = true → ramps_positive (final (startAmbient st)) = true.
Proof.
  intros Hst. unfold startAmbient. apply and_then_ramps; [by apply initContext_ramps|].
  intros s Hs.
  destruct (audioCtx s) as [ctx|] eqn:Hctx; [|exact Hs].
  destruct (ambientGain s) as [ag|]; [|exact Hs].
  destruct (ambientStarted s); cbn [final]; [exact Hs|].
  match goal with |- context [start_worker ?s] =>
    destruct (start_worker_audio s) as (Ha & _) end.
  unfold ramps_positive in *. rewrite Ha. cbn [audioCtx with_audioCtx].
  rewrite Hctx in Hs. by apply drone_layer_ramps, fade_in_ramps.
Qed.

Lemma stopAmbient_ramps (v : Q) (st : State) :
  ramps_positive st = true → ramps_positive (stopAmbient v st) = true.
Proof.
  unfold ramps_positive. destruct (stopAmbient_audio v st) as [-> _].
  destruct (audioCtx st), (ambientGain st); try done. apply fade_out_ramps.
Qed.

Lemma step_ramps (e : Event) (st : State) :
  ramps_positive st = true → ramps_positive (step e st) = true.
Proof.
  intros Hst. destruct e as [|v|type options|now data|id| |dt]; cbn [step].
  - by apply startAmbient_ramps.
  - by apply stopAmbient_ramps.
  - by apply play_ramps.
  - destruct (listening st); [by apply onmessage_ramps | exact Hst].
  - by apply interval_fires_ramps.
  - exact Hst.
  - unfold ramps_positive in *. destruct (audioCtx st) as [ctx|] eqn:Hctx; [|by rewrite Hctx].
    destruct (state ctx); [by rewrite Hctx|]. exact Hst.
Qed.

(** X16: the sound system never asks for an exponential ramp to zero or
    below (a RangeError in Web Audio).  Whatever its callers do and whatever
    volumes they pass, in every state it reaches each
    exponentialRampToValueAtTime scheduled on any parameter of any node has a
    target above zero: createTone and createNote clamp the volume to
    SAFE_MIN_VOLUME or more, and the fades and the worker's notes ramp
    linearly. *)
Theorem exponential_ramps_never_target_zero (es : list Event) (p : Page) :
  ramps_positive (run es (initial p)) = true.
Proof.
  assert (Hrun : ∀ st, ramps_positive st = true → ramps_positive (run es st) = true).
  { induction es as [|e es IH]; intros st Hst; [exact Hst|].
    change (run (e :: es) st) with (run es (step e st)). by apply IH, step_ramps. }
  by apply Hrun.
Qed.

End Automation.

(** * The legacy interval *)

Module LegacyInterval.
Import WebAudio WebAudioFacts SoundSystem SoundSystemFacts AmbientSources AmbientSourcesFacts.
Local Open Scope Q_scope.

Lemma createNote_pitch (f t d v : Q) (k : nat) (st : State) (ctx : AudioContext) :
  audioCtx st = Some ctx →
  let st' := createNote f t d v (Some k) st in
  (∃ ctx', audioCtx st' = Some ctx' ∧ currentTime ctx' = currentTime ctx) ∧
  scheduled_pitches st' = scheduled_pitches st ++ [f] ∧
  ambientGain st' = ambientGain st ∧ page st' = page st.
Proof.
  intros Hctx. unfold createNote, scheduled_pitches. rewrite Hctx.
  destruct ctx as [s now l c].
  unfold_audio. cbn [audioCtx with_audioCtx ambientGain page]. push_alter.
  split; [eexists; split; reflexivity|]. split; [|by split].
  rewrite omap_app. reflexivity.
Qed.

Lemma melody_note_exists (c : nat) : is_Some (MELODY_NOTES !! (c mod length MELODY_NOTES)%nat).
Proof. apply lookup_lt_is_Some. apply Nat.mod_upper_bound. discriminate. Qed.

(** One tick of the interval, with a context at hand. *)
Lemma tick (id : positive) (per : Z) (c : nat) (st : State) :
  is_Some (audioCtx st) → is_Some (ambientGain st) →
  intervals (page st) = [mkInterval id per c] →
  let st' := interval_fires id st in
  ∃ note, MELODY_NOTES !! (c mod length MELODY_NOTES)%nat = Some note ∧
    is_Some (audioCtx st') ∧ is_Some (ambientGain st') ∧
    intervals (page st') = [mkInterval id per (S c)] ∧
    scheduled_pitches st' = scheduled_pitches st ++ [note; note * 0.5].
Proof.
  intros [ctx Hctx] [ag Hag] Hreg. cbv zeta.
  destruct (melody_note_exists c) as [note Hnote]. exists note. split; [exact Hnote|].
  unfold interval_fires. rewrite Hreg. cbn [List.find iid]. rewrite Pos.eqb_refl, Hctx.
  cbn [counter]. unfold interval_callback. rewrite Hctx, Hnote, Hag. cbv zeta.
  destruct (createNote_pitch note (currentTime ctx + 0.02) 0.9 0.028 ag st ctx Hctx)
    as ((ctx1 & Hctx1 & _) & Hp1 & Hg1 & Hpage1).
  set (st1 := createNote note (currentTime ctx + 0.02) 0.9 0.028 (Some ag) st) in *.
  rewrite Hg1, Hag.
  destruct (createNote_pitch (note * 0.5) (currentTime ctx + 0.02) 1.1 0.014 ag st1 ctx1 Hctx1)
    as ((ctx2 & Hctx2 & _) & Hp2 & Hg2 & Hpage2).
  set (st2 := createNote (note * 0.5) (currentTime ctx + 0.02) 1.1 0.014 (Some ag) st1) in *.
  cbn [audioCtx ambientGain page with_page with_intervals intervals].
  rewrite Hctx2, Hg2, Hg1, Hag, Hpage2, Hpage1, Hreg.
  split; [eauto|]. split; [eauto|]. split.
  - cbn. rewrite Pos.eqb_refl. reflexivity.
  - unfold scheduled_pitches in *. cbn [audioCtx with_page]. rewrite Hctx2 in *.
    rewrite Hp2, Hp1, <- app_assoc. reflexivity.
Qed.

Lemma time_passes (dt : Q) (st : State) :
  let st' := step (TimePasses dt) st in
  (is_Some (audioCtx st) → is_Some (audioCtx st')) ∧
  ambientGain st' = ambientGain st ∧ page st' = page st ∧
  scheduled_pitches st' = scheduled_pitches st.
Proof.
  cbn [step]. unfold scheduled_pitches.
  destruct (audioCtx st) as [ctx|] eqn:Hctx; [|by rewrite Hctx].
  destruct (state ctx); [by rewrite Hctx|]. cbn. eauto.
Qed.

Lemma ticks_play_in_order (id : positive) (per : Z) (dts : list Q) (c : nat) (st : State) :
  is_Some (audioCtx st) → is_Some (ambientGain st) →
  intervals (page st) = [mkInterval id per c] →
  let st' := run (legacy_ticks id dts) st in
  ∃ notes, length notes = length dts ∧
    (∀ j, (j < length dts)%nat →
          notes !! j = MELODY_NOTES !! ((c + j) mod length MELODY_NOTES)%nat) ∧
    scheduled_pitches st' =
      scheduled_pitches st ++ flat_map (fun f => [f; f * 0.5]) notes ∧
    intervals (page st') = [mkInterval id per (c + length dts)].
Proof.
  revert c st. induction dts as [|dt dts IH]; intros c st Hctx Hag Hreg; cbv zeta.
  - exists []. cbn. rewrite app_nil_r, Nat.add_0_r.
    split; [reflexivity|]. split; [intros j Hj; lia|]. by split.
  - change (run (legacy_ticks id (dt :: dts)) st)
      with (run (legacy_ticks id dts) (step (IntervalFires id) (step (TimePasses dt) st))).
    destruct (time_passes dt st) as (Hc1 & Hg1 & Hp1 & Hs1).
    set (st1 := step (TimePasses dt) st) in *.
    assert (Hag1 : is_Some (ambientGain st1)) by (rewrite Hg1; exact Hag).
    assert (Hreg1 : intervals (page st1) = [mkInterval id per c]) by (rewrite Hp1; exact Hreg).
    destruct (tick id per c st1 (Hc1 Hctx) Hag1 Hreg1)
      as (note & Hnote & Hc2 & Hg2 & Hreg2 & Hs2).
    change (step (IntervalFires id) st1) with (interval_fires id st1).
    set (st2 := interval_fires id st1) in *.
    destruct (IH (S c) st2 Hc2 Hg2 Hreg2) as (notes & Hlen & Hnotes & Hs & Hregs).
    exists (note :: notes). split; [cbn; by rewrite Hlen|]. split; [|split].
    + intros [|j] Hj.
      * rewrite Nat.add_0_r. symmetry. exact Hnote.
      * change ((note :: notes) !! S j) with (notes !! j).
        cbn [length] in Hj. rewrite (Hnotes j) by lia.
        replace (S c + j)%nat with (c + S j)%nat by lia. reflexivity.
    + rewrite Hs, Hs2, Hs1, <- app_assoc. reflexivity.
    + rewrite Hregs. cbn. do 2 f_equal. lia.
Qed.

Lemma startAmbient_registers_the_interval (p : Page) :
  hasAudioContext p = true → workerSupport p ≠ Worker_constructs →
  let st := final (startAmbient (initial p)) in
  is_Some (audioCtx st) ∧ is_Some (ambientGain st) ∧
  intervals (page st) = intervals p ++ [mkInterval (nextIntervalId p) 1300 0] ∧
  ambientTimer st = Some (nextIntervalId p).
Proof.
  intros Hcap Hws. cbv zeta.
  destruct (initContext_ready (initial p) Hcap)
    as (st1 & ctx & ag & Hinit & Hctx & Hag & _ & Hst).
  destruct (initContext_same_ambience (initial p)) as [(_ & Hw & _) Hpage].
  rewrite Hinit in Hw, Hpage. cbn [final] in Hw, Hpage.
  unfold startAmbient. rewrite Hinit. cbn [and_then]. rewrite Hctx, Hag, Hst.
  cbn [initial ambientStarted final].
  match goal with |- context [start_worker ?s] =>
    destruct (start_worker_audio s) as (Ha & Hg & _) end.
  rewrite Ha, Hg. simpl_state. rewrite Hag.
  split; [eauto|]. split; [eauto|].
  unfold start_worker, setupLegacyInterval. simpl_state. rewrite Hpage. cbn [initial page].
  destruct (workerSupport p); [| | |done]; cbn; by split.
Qed.

(** X17: the fallback plays MELODY_NOTES in order, round and round.  On a
    page without a usable Worker, startAmbient() registers one interval with a
    period of 1300 ms, and the j-th tick of it (counting from 0, whatever time
    passes in between) schedules two oscillators, one at MELODY_NOTES[j mod 8]
    and one an octave below; the lookup never leaves the array, and no tick
    adds a drone. *)
Theorem legacy_interval_plays_the_notes_in_order (p : Page) (dts : list Q) :
  hasAudioContext p = true → workerSupport p ≠ Worker_constructs → intervals p = [] →
  let st := final (startAmbient (initial p)) in
  let st' := run (legacy_ticks (nextIntervalId p) dts) st in
  intervals (page st) = [mkInterval (nextIntervalId p) 1300 0] ∧
  ∃ notes, length notes = length dts ∧
    (∀ j, (j < length dts)%nat →
          notes !! j = MELODY_NOTES !! (j mod length MELODY_NOTES)%nat) ∧
    scheduled_pitches st' =
      scheduled_pitches st ++ flat_map (fun f => [f; f * 0.5]) notes ∧
    intervals (page st') = [mkInterval (nextIntervalId p) 1300 (length dts)].
Proof.
  intros Hcap Hws Hnone st st'.
  destruct (startAmbient_registers_the_interval p Hcap Hws) as (Hctx & Hag & Hreg & _).
  fold st in Hctx, Hag, Hreg. rewrite Hnone in Hreg. cbn in Hreg.
  split; [exact Hreg|].
  exact (ticks_play_in_order (nextIntervalId p) 1300 dts 0 st Hctx Hag Hreg).
Qed.

Lemma legacy_interval_plays_the_notes_in_order_witness :
  let p := {| hasAudioContext := true; userActivated := true;
              workerSupport := no_Worker; inheritedFunction := fun _ => None;
              sessionStorage := ∅; workers := []; intervals := [];
              nextIntervalId := 1%positive; console := [] |} in
  let st := final (startAmbient (initial p)) in
  let st' := run (legacy_ticks 1 (replicate 9 1.3)) st in
  ∃ notes, length notes = 9%nat ∧ notes !! 8%nat = Some 261.63 ∧
    scheduled_pitches st' =
      scheduled_pitches st ++ flat_map (fun f => [f; f * 0.5]) notes.
Proof.
  intros p st st'.
  destruct (legacy_interval_plays_the_notes_in_order p (replicate 9 1.3) eq_refl
              ltac:(discriminate) eq_refl)
    as (_ & notes & Hlen & Hnotes & Hpitches & _).
  exists notes. split; [exact Hlen|]. split; [|exact Hpitches].
  rewrite (Hnotes 8%nat) by (cbn; lia). reflexivity.
Defined.

End LegacyInterval.

(** * The pointer handlers *)

Module InteractionsFacts.
Import WebAudio SoundSystem Interactions.
Local Open Scope Q_scope.

Section Pointer.
Variable sqrt : Q → Q.

Lemma handle_all_cons (e : PointerEvent) (es : list PointerEvent) (w : Wiring) :
  handle_all sqrt (e :: es) w = handle_all sqrt es (handle sqrt e w).
Proof. reflexivity. Qed.

Lemma clickHandler_keeps_the_pointer (target : bool) (w : Wiring) :
  pointerSensitivity (final (clickHandler target w)) = pointerSensitivity w ∧
  lastHoverAt (final (clickHandler target w)) = lastHoverAt w.
Proof.
  unfold clickHandler. destruct (unlockAndStart (system w)); [|by split].
  destruct target; [|by split]. destruct (play _ _ _); by split.
Qed.

Lemma hoverHandler_keeps_the_sensitivity (target : bool) (nowMs : Z) (w : Wiring) :
  pointerSensitivity (final (hoverHandler target nowMs w)) = pointerSensitivity w.
Proof.
  unfold hoverHandler. destruct target; [|reflexivity]. cbn [negb].
  destruct (nowMs - lastHoverAt w <? 60)%Z; [reflexivity|].
  cbv zeta. destruct (play _ _ _); reflexivity.
Qed.

Lemma handle_sensitivity (e : PointerEvent) (w : Wiring) :
  0.4 <= pointerSensitivity w ∧ pointerSensitivity w <= 1.8 →
  0.4 <= pointerSensitivity (handle sqrt e w) ∧ pointerSensitivity (handle sqrt e w) <= 1.8.
Proof.
  intros Hw. destruct e as [target|target nowMs|x y nowMs| |]; cbn [handle].
  - by rewrite (proj1 (clickHandler_keeps_the_pointer target w)).
  - by rewrite hoverHandler_keeps_the_sensitivity.
  - unfold moveHandler. cbn [pointerSensitivity].
    destruct (lastMoveAt w =? 0)%Z; [exact Hw|].
    apply Automation.clamp_bounds. unfold Qle. cbn. lia.
  - exact Hw.
  - exact Hw.
Qed.

(** X18: pointerSensitivity, the intensity the click and hover sounds are
    played with, stays between 0.4 and 1.8 whatever the pointer does and
    whatever Math.sqrt returns: only moveHandler assigns it, and it clamps. *)
Theorem pointer_sensitivity_stays_in_range (es : list PointerEvent) (st : State) :
  let w := handle_all sqrt es (wired st) in
  0.4 <= pointerSensitivity w ∧ pointerSensitivity w <= 1.8.
Proof.
  cbv zeta. generalize (wired st) (eq_refl : pointerSensitivity (wired st) = 0.85).
  intros w0 H0.
  assert (Hw0 : 0.4 <= pointerSensitivity w0 ∧ pointerSensitivity w0 <= 1.8).
  { rewrite H0. split; unfold Qle; cbn; lia. }
  clear H0. revert w0 Hw0. induction es as [|e es IH]; intros w0 Hw0; [exact Hw0|].
  rewrite handle_all_cons. apply IH. by apply handle_sensitivity.
Qed.

Lemma throttled_hover (target : bool) (t t' : Z) (w : Wiring) :
  lastHoverAt w = t → (t' - t < 60)%Z → hoverHandler target t' w = Normal w.
Proof.
  intros Hlast Hsoon. unfold hoverHandler. destruct target; [|reflexivity]. cbn [negb].
  rewrite Hlast. destruct (Z.ltb_spec (t' - t) 60); [reflexivity | lia].
Qed.

(** X19: the hover sound is throttled to one per 60 ms.  A mouseenter over
    an interactive element at least 60 ms after the last hover sound plays
    'hover' at the current sensitivity and records its time; every further
    mouseenter whose Date.now() reading is less than 60 ms later, over
    whatever element, changes nothing at all. *)
Theorem hover_burst_plays_once (t : Z) (burst : list (bool * Z)) (w : Wiring) :
  (60 <= t - lastHoverAt w)%Z →
  Forall (fun e => (e.2 - t < 60)%Z) burst →
  let w1 := handle sqrt (MouseEnter true t) w in
  system w1 =
    final (play "hover" (Some (mkOptions (Some (pointerSensitivity w)))) (system w)) ∧
  lastHoverAt w1 = t ∧
  handle_all sqrt (map (fun e => MouseEnter e.1 e.2) burst) w1 = w1.
Proof.
  intros Hlate Hburst. cbv zeta. cbn [handle].
  assert (Hplay : final (hoverHandler true t w) =
            with_system
              (final (play "hover" (Some (mkOptions (Some (pointerSensitivity w))))
                        (system w)))
              {| pointerSensitivity := pointerSensitivity w;
                 lastMoveAt := lastMoveAt w; lastX := lastX w; lastY := lastY w;
                 lastHoverAt := t; system := system w |}).
  { unfold hoverHandler. cbn [negb].
    destruct (Z.ltb_spec (t - lastHoverAt w) 60); [lia|]. cbv zeta.
    cbn [pointerSensitivity system].
    destruct (play _ _ _); reflexivity. }
  rewrite Hplay.
  split; [reflexivity|]. split; [reflexivity|].
  set (w1 := with_system _ _).
  assert (Hlast : lastHoverAt w1 = t) by reflexivity.
  clearbody w1. induction Hburst as [|[target t'] burst Hsoon _ IH]; [reflexivity|].
  cbn [map fst snd]. rewrite handle_all_cons. cbn [handle].
  cbn [snd] in Hsoon.
  rewrite (throttled_hover target t t' w1 Hlast Hsoon). exact IH.
Qed.

End Pointer.

Lemma hover_burst_plays_once_witness :
  let w := wired (SoundSystem.initial unlocked_page) in
  let w1 := handle (fun x => x) (MouseEnter true 5000) w in
  lastHoverAt w1 = 5000%Z ∧
  handle_all (fun x => x) [MouseEnter true 5010; MouseEnter false 5030; MouseEnter true 5059] w1
    = w1.
Proof.
  intros w w1.
  destruct (hover_burst_plays_once (fun x => x) 5000
              [(true, 5010%Z); (false, 5030%Z); (true, 5059%Z)] w)
    as (_ & Hlast & Hburst).
  - cbn. lia.
  - repeat constructor; cbn; lia.
  - split; [exact Hlast | exact Hburst].
Defined.

End InteractionsFacts.

(** * The notes of the handler in src/unnamed/part_001 *)

Module PianoNotes.
Import WebAudio WebAudioFacts AmbientSources.
Local Open Scope Q_scope.

Lemma piano_synthesize_count (r note : Q) (d p : Z) (ag : nat) (ctx : AudioContext) :
  count_running_forever (PianoBridge.synthesize r note d p ag ctx) = count_running_forever ctx.
Proof.
  destruct ctx as [s now l c].
  unfold_audio. push_alter.
  rewrite List.filter_app, length_app. cbn. lia.
Qed.

Lemma piano_synthesize_ramps (r note : Q) (d p : Z) (ag : nat) (ctx : AudioContext) :
  context_ramps_positive ctx = true →
  context_ramps_positive (PianoBridge.synthesize r note d p ag ctx) = true.
Proof.
  destruct ctx as [s now l c]. unfold context_ramps_positive.
  unfold_audio. push_alter.
  rewrite forallb_app. intros ->.
  destruct (p =? 0)%Z; [reflexivity|]. destruct (p =? 2)%Z; reflexivity.
Qed.

(** X20: the two-layer note of the part_001 handler ends by itself and is
    well formed.  Whatever message arrives and whatever Math.random()
    returns, the handler adds no oscillator without a stop time, and every
    exponential ramp it schedules (to 0.6 maxVol and to 0.001) has a target
    above zero. *)
Theorem piano_handler_adds_no_drone
    (random : Q) (data : WorkerMessage) (st : PianoBridge.State) (ctx : AudioContext) :
  PianoBridge.audioCtx st = Some ctx →
  context_ramps_positive ctx = true →
  ∃ ctx', PianoBridge.audioCtx (final (PianoBridge.onmessage random data st)) = Some ctx' ∧
    count_running_forever ctx' = count_running_forever ctx ∧
    context_ramps_positive ctx' = true ∧
    (length (nodes ctx) <= length (nodes ctx'))%nat.
Proof.
  intros Hctx Hramps. unfold PianoBridge.onmessage.
  set (st1 := match msg_currentIndex data with
              | Some i => PianoBridge.with_page
                            (setItem "ambient_melody_index" i (PianoBridge.page st)) st
              | None => st
              end).
  assert (Hctx1 : PianoBridge.audioCtx st1 = Some ctx).
  { subst st1. destruct (msg_currentIndex data); exact Hctx. }
  destruct data as [n d p ts j | j | s | ts s]; cbn [final]; eauto.
  rewrite Hctx1. destruct (PianoBridge.ambientGain st1) as [ag|]; cbn [final]; [|eauto].
  eexists. split; [reflexivity|].
  split; [apply piano_synthesize_count|]. split; [by apply piano_synthesize_ramps|].
  destruct (SoundSystemFacts.piano_synthesize_new_nodes random n d p ag ctx) as (new & -> & _).
  rewrite length_app. lia.
Qed.

Lemma piano_handler_adds_no_drone_witness :
  let ctx := (createGain (newAudioContext true)).2 in
  let st := {| PianoBridge.audioCtx := Some ctx; PianoBridge.masterGain := None;
               PianoBridge.sfxGain := None; PianoBridge.ambientGain := Some 0%nat;
               PianoBridge.ambientStarted := true; PianoBridge.ambientTimer := None;
               PianoBridge.audioWorker := Some 0%nat; PianoBridge.page := unlocked_page |} in
  ∃ ctx', PianoBridge.audioCtx
            (final (PianoBridge.onmessage 0.5 (play_note 392.0 2000 1 100 0) st)) = Some ctx' ∧
    count_running_forever ctx' = 0%nat.
Proof.
  intros ctx st.
  destruct (piano_handler_adds_no_drone 0.5 (play_note 392.0 2000 1 100 0) st ctx
              eq_refl eq_refl) as (ctx' & Hctx' & Hcount & _).
  exists ctx'. split; [exact Hctx' | exact Hcount].
Defined.

End PianoNotes.

(** * From the worker through the bridge to the next page *)

Module Reload.
Import WebAudio SoundSystem AmbientSources AmbientSourcesFacts.

(** The bridge receives the events [evs], reading the clock [reads]. *)
Lemma last_message_is_the_stored_one
    (evs : list WorkerMessage) (reads : list Z) (st : State) (ev : WorkerMessage) (j : Z) :
  listening st = true → length reads = length evs →
  last evs = Some ev → msg_currentIndex ev = Some j →
  sessionStorage (page (run (zip_with FromWorker reads evs) st)) !! "ambient_melody_index"
    = Some (pretty j).
Proof.
  revert reads st. induction evs as [|e rest IH]; intros reads st Hl Hlen Hlast Hj;
    [discriminate|].
  destruct reads as [|r reads]; [discriminate|]. cbn [zip_with].
  change (run (FromWorker r e :: ?l) st) with (run l (step (FromWorker r e) st)).
  destruct rest as [|e' rest'].
  - injection Hlast as ->. destruct reads; [|discriminate].
    cbn [zip_with run foldl step]. rewrite Hl.
    by apply AmbientLifecycle.handler_stores_the_index.
  - apply IH; [|by injection Hlen | exact Hlast | exact Hj].
    rewrite (same_ambience_listening st); [exact Hl|].
    by apply step_same_ambience.
Qed.

Lemma last_position (f : nat → option Z) (n : nat) :
  last (f <$> seq 0 (S n)) = Some (f n).
Proof. rewrite seq_S, fmap_app. cbn. apply last_snoc. Qed.

(** X21: a reload replays the last task the worker emitted.  When the
    bridge has received the events of n >= 1 consecutive emission steps that
    began at position i, session storage holds (i+n-1) mod L, the position of
    the last emitted task and not the position the scheduler moved on to; the
    next startAmbient on a page with that storage posts start with this index,
    and a fresh worker that receives it emits the task at that position
    first. *)
Theorem reload_replays_the_last_emitted_task
    (nows reads : list Z) (w : AudioWorker.Worker) (st st2 : State) (now2 dateNow2 : Z) :
  AudioWorker.isRunning (AudioWorker.SchedulerInstance w) = true →
  AudioWorker.index_in_range (AudioWorker.SchedulerInstance w) →
  nows ≠ [] → length reads = length nows →
  listening st = true →
  let m := AudioWorker.melody (AudioWorker.SchedulerInstance w) in
  let i := AudioWorker.currentIndex (AudioWorker.SchedulerInstance w) in
  let w' := AudioWorker.emissions nows w in
  let events := drop (length (outbox (AudioWorker.self w))) (outbox (AudioWorker.self w')) in
  let st' := run (zip_with FromWorker reads events) st in
  let last_emitted := ((i + Z.of_nat (length nows) - 1) mod Z.of_nat (length m))%Z in
  sessionStorage (page st') !! "ambient_melody_index" = Some (pretty last_emitted) ∧
  AudioWorker.currentIndex (AudioWorker.SchedulerInstance w')
    = ((last_emitted + 1) mod Z.of_nat (length m))%Z ∧
  (sessionStorage (page st2) = sessionStorage (page st') →
   workerSupport (page st2) = Worker_constructs → ready st2 → ambientStarted st2 = false →
   ∃ st3 k h, startAmbient st2 = Normal st3 ∧ audioWorker st3 = Some k ∧
     workers (page st3) !! k = Some h ∧
     posted h = [Protocol.start (Some last_emitted)]) ∧
  ∃ task, js_index m last_emitted = Some task ∧
    outbox (AudioWorker.self
              (AudioWorker.step
                 (AudioWorker.Message now2 dateNow2 (Protocol.start (Some last_emitted)))
                 (AudioWorker.newWorker m)))
      = [AudioWorker.emission now2 last_emitted task].
Proof.
  intros Hrun Hrange Hne Hlen Hl m i w' events st' last_emitted.
  destruct (WorkerLoop.emissions_positions nows w Hrun Hrange) as [(evs & Hout & Hpos) Hidx].
  fold m i w' in Hout, Hpos, Hidx.
  assert (Hevents : events = evs).
  { subst events. rewrite Hout. apply drop_app_length. }
  assert (HL : (0 <= i < Z.of_nat (length m))%Z) by exact Hrange.
  destruct nows as [|now0 nows0]; [done|]. clear Hne.
  set (n := length nows0) in *.
  assert (Hn : (i + Z.of_nat (length (now0 :: nows0)) - 1 = i + Z.of_nat n)%Z)
    by (cbn [length]; lia).
  assert (Hbound : (0 <= last_emitted < Z.of_nat (length m))%Z)
    by (subst last_emitted; apply Z.mod_pos_bound; lia).
  assert (Hstored :
    sessionStorage (page st') !! "ambient_melody_index" = Some (pretty last_emitted)).
  { assert (Hlast : msg_currentIndex <$> last evs = Some (Some last_emitted)).
    { rewrite <- fmap_last, Hpos. cbn [length]. fold n. rewrite last_position.
      subst last_emitted. rewrite Hn. reflexivity. }
    destruct (last evs) as [ev|] eqn:Hev; [|discriminate]. injection Hlast as Hj.
    subst st'. rewrite Hevents.
    apply (last_message_is_the_stored_one evs reads st ev last_emitted Hl); [|exact Hev|exact Hj].
    rewrite Hlen. apply (f_equal length) in Hpos. by rewrite !length_fmap, length_seq in Hpos. }
  split; [exact Hstored|]. split; [|split].
  - rewrite Hidx. subst last_emitted. rewrite Hn, Zplus_mod_idemp_l.
    f_equal. cbn [length]. lia.
  - intros Hsame Hws Hready Hidle. rewrite <- Hsame in Hstored.
    destruct (AmbientLifecycle.startAmbient_resumes_at st2 last_emitted Hws Hready Hidle
                Hstored) as (st3 & k & h & H1 & H2 & H3 & _ & _ & H4).
    by exists st3, k, h.
  - destruct (js_index_is_Some m last_emitted Hbound) as [task Htask].
    exists task. split; [exact Htask|].
    cbn [AudioWorker.step AudioWorker.onmessage default from_option id].
    unfold AudioWorker.start. cbn [AudioWorker.newWorker AudioWorker.newScheduler
      AudioWorker.SchedulerInstance AudioWorker.isRunning AudioWorker.self].
    assert (Hrem : Z.rem last_emitted (Z.of_nat (length m)) = last_emitted).
    { rewrite Z.rem_mod_nonneg by lia. apply Z.mod_small. exact Hbound. }
    match goal with |- context [AudioWorker.processNext now2 ?x] =>
      destruct (AudioWorkerFacts.processNext_emits now2 x task) as (w2 & -> & Hout2 & _)
    end.
    + reflexivity.
    + cbn. rewrite Hrem. exact Htask.
    + cbn [final]. rewrite Hout2. cbn. rewrite Hrem. reflexivity.
Qed.

(** Three emissions from position 9 of the melody: positions 9, 10 and 0
    are emitted, 0 is stored, and the next page starts its worker at 0. *)
Lemma reload_replays_the_last_emitted_task_witness :
  let w := {| AudioWorker.SchedulerInstance :=
                AudioWorker.start_assign 0 9 (AudioWorker.newScheduler AudioWorker.theMelody);
              AudioWorker.self := emptyScope |} in
  let st := final (startAmbient (initial unlocked_page)) in
  let events := outbox (AudioWorker.self (AudioWorker.emissions [0; 3003; 7000] w)) in
  let st' := run (zip_with FromWorker [5; 3010; 7004] events) st in
  sessionStorage (page st') !! "ambient_melody_index" = Some (pretty 0%Z) ∧
  AudioWorker.currentIndex
    (AudioWorker.SchedulerInstance (AudioWorker.emissions [0; 3003; 7000] w)) = 1%Z.
Proof.
  intros w st events st'.
  assert (Hrange : AudioWorker.index_in_range (AudioWorker.SchedulerInstance w))
    by (vm_compute; split; [discriminate | reflexivity]).
  destruct (reload_replays_the_last_emitted_task [0; 3003; 7000]%Z [5; 3010; 7004]%Z w st
              (initial unlocked_page) 0 0 eq_refl Hrange ltac:(discriminate) eq_refl eq_refl)
    as (Hstored & Hnext & _).
  split; [exact Hstored | exact Hnext].
Defined.

End Reload.
